(** * OS-simulator: the three simulation engines of [script.js]

  A shallow embedding of the CPU scheduler, the contiguous memory
  allocator and the disk queue of [src/script.js], with the functions
  of the page that feed them and report on them, followed by the
  properties established about them.

  JavaScript numbers that hold integers (times, sizes, addresses,
  cylinders) are [Z]; the fractional quantities (seek times, averages,
  percentages) are binary64 [float]s as in JavaScript.  The sums and
  differences of the source are those of binary64 as well: they are
  the sums and differences of [Z] as long as the result is at most
  2^53 in absolute value.  The statements that depend on a computed
  number therefore bound the inputs (module [Range]); those that
  compare numbers, or relate two runs of the same computation, need
  no bound.

  Objects that the source mutates in place are threaded through the
  functions as values; a snapshot made with the spread operator is a
  copy of the record at that moment. *)

From Stdlib Require Import ZArith List String Bool Lia Permutation Sorted.
From Stdlib Require Import DecimalString Floats.
Import ListNotations.
Open Scope Z_scope.

(** ** [Array.prototype.sort] with a comparator [(a, b) => key a - key b]

  The sort is stable (ECMAScript 2019); a stable insertion sort gives
  the same array as any other stable sort. *)

Section StableSort.
Context {A : Type} (key : A -> Z).

Fixpoint insert_by (x : A) (l : list A) : list A :=
  match l with
  | [] => [x]
  | y :: l' => if key x <=? key y then x :: y :: l' else y :: insert_by x l'
  end.

Fixpoint sort_by (l : list A) : list A :=
  match l with
  | [] => []
  | x :: l' => insert_by x (sort_by l')
  end.
End StableSort.

(** ** CPU scheduling (script.js, lines 320-557)

  Times are integers.  The clock, the completion, turnaround and
  waiting times and the remaining time are computed by [+] and [-] of
  [Z], which are those of the source while the results stay within
  2^53 in absolute value: [Range.load] bounds them. *)

Module Sched.

Record Process := mkProcess {
  id : Z;
  name : string;
  arrivalTime : Z;
  burstTime : Z;
  priority : Z;
  remainingTime : Z;
  waitingTime : Z;
  turnaroundTime : Z;
  completionTime : Z;
  status : string;
  startTime : option Z   (* absent until a scheduler assigns it *)
}.

(** The object built by [addProcess]. *)
Definition addProcess (id : Z) (name : string)
    (arrivalTime burstTime priority : Z) : Process :=
  mkProcess id name arrivalTime burstTime priority
            burstTime 0 0 0 "ready" None.

(** An element of the returned array:
    [{...process, startTime: currentTime, duration: d}].  [snapshot]
    is the spread copy; its own [startTime] key is the one the literal
    overrides, kept here as [sliceStart]. *)
Record Slice := mkSlice {
  snapshot : Process;
  sliceStart : Z;
  duration : Z
}.

(** The four assignments shared by FCFS, SJF and Priority:
    startTime, completionTime, turnaroundTime, waitingTime. *)
Definition dispatch (currentTime : Z) (process : Process) : Process :=
  let completion := currentTime + burstTime process in
  let turnaround := completion - arrivalTime process in
  mkProcess (id process) (name process) (arrivalTime process)
            (burstTime process) (priority process) (remainingTime process)
            (turnaround - burstTime process) turnaround completion
            (status process) (Some currentTime).

(** *** scheduleFCFS *)

Fixpoint fcfs_forEach (currentTime : Z) (processList : list Process)
    : list Slice :=
  match processList with
  | [] => []
  | process :: rest =>
      let currentTime :=
        if currentTime <? arrivalTime process
        then arrivalTime process else currentTime in
      let process := dispatch currentTime process in
      mkSlice process currentTime (burstTime process)
        :: fcfs_forEach (completionTime process) rest
  end.

Definition scheduleFCFS (processList : list Process) : list Slice :=
  fcfs_forEach 0 (sort_by arrivalTime processList).

(** *** scheduleSJF and schedulePriority

    The two functions differ only in the key by which the ready queue
    is sorted.  The pair ([processList], [i]) of the source is carried
    as the unread suffix [processList.slice(i)]. *)

Section ReadyQueue.
Variable key : Process -> Z.

(** The inner loop: move the arrived processes to the ready queue. *)
Fixpoint enqueue_arrived (currentTime : Z) (pending readyQueue : list Process)
    : list Process * list Process :=
  match pending with
  | process :: rest =>
      if arrivalTime process <=? currentTime
      then enqueue_arrived currentTime rest (readyQueue ++ [process])
      else (pending, readyQueue)
  | [] => (pending, readyQueue)
  end.

(** The outer loop; [None] when the iteration budget is used up. *)
Fixpoint ready_loop (fuel : nat) (currentTime : Z)
    (pending readyQueue : list Process) (scheduled : list Slice)
    : option (list Slice) :=
  match pending, readyQueue with
  | [], [] => Some scheduled
  | _, _ =>
      match fuel with
      | O => None
      | S fuel =>
          let '(pending, readyQueue) :=
            enqueue_arrived currentTime pending readyQueue in
          match sort_by key readyQueue with
          | [] =>
              match pending with
              | next :: _ =>
                  ready_loop fuel (arrivalTime next) pending [] scheduled
              | [] => None   (* processList[i] is undefined *)
              end
          | process :: readyQueue =>
              let process := dispatch currentTime process in
              ready_loop fuel (completionTime process) pending readyQueue
                (scheduled ++
                   [mkSlice process currentTime (burstTime process)])
          end
      end
  end.

(** Every pass either dispatches a process or moves the clock to the
    next arrival, after which one is dispatched. *)
Definition ready_schedule (processList : list Process)
    : option (list Slice) :=
  ready_loop (2 * List.length processList)%nat 0
             (sort_by arrivalTime processList) [] [].
End ReadyQueue.

Definition scheduleSJF : list Process -> option (list Slice) :=
  ready_schedule burstTime.

Definition schedulePriority : list Process -> option (list Slice) :=
  ready_schedule priority.

(** *** scheduleRoundRobin *)

Definition set_remainingTime (r : Z) (process : Process) : Process :=
  mkProcess (id process) (name process) (arrivalTime process)
            (burstTime process) (priority process) r
            (waitingTime process) (turnaroundTime process)
            (completionTime process) (status process) (startTime process).

(** The body of [if (process.remainingTime === 0)]. *)
Definition complete (currentTime : Z) (process : Process) : Process :=
  let turnaround := currentTime - arrivalTime process in
  mkProcess (id process) (name process) (arrivalTime process)
            (burstTime process) (priority process) (remainingTime process)
            (turnaround - burstTime process) turnaround currentTime
            (status process) (startTime process).

(** One run of [for (let process of queue)]: the queue with its
    objects updated, the slices pushed, and the clock. *)
Fixpoint rr_pass (quantum currentTime : Z) (queue : list Process)
    : list Process * list Slice * Z :=
  match queue with
  | [] => ([], [], currentTime)
  | process :: rest =>
      if (0 <? remainingTime process) && (arrivalTime process <=? currentTime)
      then
        let executeTime := Z.min quantum (remainingTime process) in
        let slice := mkSlice process currentTime executeTime in
        let currentTime := currentTime + executeTime in
        let process :=
          set_remainingTime (remainingTime process - executeTime) process in
        let process :=
          if remainingTime process =? 0
          then complete currentTime process else process in
        let '(rest, slices, currentTime) :=
          rr_pass quantum currentTime rest in
        (process :: rest, slice :: slices, currentTime)
      else
        let '(rest, slices, currentTime) :=
          rr_pass quantum currentTime rest in
        (process :: rest, slices, currentTime)
  end.

(** [while (queue.some(p => p.remainingTime > 0))]; [None] when the
    loop is still running after [fuel] passes. *)
Fixpoint rr_while (fuel : nat) (quantum currentTime : Z)
    (queue : list Process) (scheduled : list Slice)
    : option (list Process * list Slice) :=
  if existsb (fun p => 0 <? remainingTime p) queue then
    match fuel with
    | O => None
    | S fuel =>
        let '(queue, slices, currentTime) :=
          rr_pass quantum currentTime queue in
        rr_while fuel quantum currentTime queue (scheduled ++ slices)
    end
  else Some (queue, scheduled).

(** The result pairs the process objects as the run leaves them with
    the returned array [scheduled]. *)
Definition scheduleRoundRobin (fuel : nat) (processList : list Process)
    (quantum : Z) : option (list Process * list Slice) :=
  let queue := sort_by arrivalTime processList in
  let queue := map (fun p => set_remainingTime (burstTime p) p) queue in
  rr_while fuel quantum 0 queue [].

End Sched.

(** ** Memory management (script.js, lines 294-296 and 605-739)

  Sizes and addresses are integers.  The end of a new block, the size
  of a remainder and the running address of a compaction are computed
  by [+] and [-] of [Z], which are those of the source while the
  results stay within 2^53 in absolute value; they do on every layout
  that requests of a positive size produce, where nothing exceeds
  1024. *)

Module Mem.

Inductive Status := allocated | free.

Record MemoryBlock := mkBlock {
  id : Z;
  processName : option string;   (* [None] is JavaScript's null *)
  size : Z;
  startAddress : Z;
  endAddress : Z;
  status : Status
}.

Definition is_free (block : MemoryBlock) : bool :=
  match status block with free => true | allocated => false end.

Definition is_allocated (block : MemoryBlock) : bool :=
  match status block with allocated => true | free => false end.

Definition is_OS (block : MemoryBlock) : bool :=
  match processName block with
  | Some n => String.eqb n "OS"%string
  | None => false
  end.

(** The initial value of the global [memoryBlocks]. *)
Definition initialBlocks : list MemoryBlock :=
  [mkBlock 1 (Some "OS"%string) 128 0 128 allocated].

(** What the "insufficient memory" branch and the success branch of
    [allocateMemory] report. *)
Inductive AllocOutcome :=
| Allocated (newBlock : MemoryBlock)
| InsufficientMemory.

(** Objects are compared by identity in [indexOf]; an object of
    [memoryBlocks] is named by its position in the array. *)
Definition indexed (memoryBlocks : list MemoryBlock)
    : list (nat * MemoryBlock) :=
  combine (seq 0 (List.length memoryBlocks)) memoryBlocks.

Definition fits (processSize : Z) (ib : nat * MemoryBlock) : bool :=
  processSize <=? size (snd ib).

(** The [switch (algorithm)] of [allocateMemory]: the selected block
    and its index, or [None] for null/undefined. *)
Definition selectBlock (algorithm : string) (processSize : Z)
    (memoryBlocks : list MemoryBlock) : option (nat * MemoryBlock) :=
  let freeBlocks := filter (fun ib => is_free (snd ib)) (indexed memoryBlocks) in
  if String.eqb algorithm "first"%string then
    find (fits processSize) freeBlocks
  else if String.eqb algorithm "best"%string then
    hd_error (sort_by (fun ib => size (snd ib))
                      (filter (fits processSize) freeBlocks))
  else if String.eqb algorithm "worst"%string then
    hd_error (sort_by (fun ib => - size (snd ib))
                      (filter (fits processSize) freeBlocks))
  else None.

(** [memoryBlocks.splice(blockIndex, 1)]. *)
Definition splice1 (blockIndex : nat) (memoryBlocks : list MemoryBlock)
    : list MemoryBlock :=
  firstn blockIndex memoryBlocks ++ skipn (S blockIndex) memoryBlocks.

Definition decimal (n : nat) : string :=
  NilZero.string_of_uint (Nat.to_uint n).

Definition allocateMemory (processSize : Z) (algorithm : string)
    (memoryBlocks : list MemoryBlock) : AllocOutcome * list MemoryBlock :=
  match selectBlock algorithm processSize memoryBlocks with
  | Some (blockIndex, selectedBlock) =>
      let users :=
        filter (fun b => is_allocated b && negb (is_OS b)) memoryBlocks in
      let processName := ("P" ++ decimal (List.length users + 1))%string in
      let newBlock :=
        mkBlock (Z.of_nat (List.length memoryBlocks) + 1) (Some processName)
                processSize (startAddress selectedBlock)
                (startAddress selectedBlock + processSize) allocated in
      let memoryBlocks := splice1 blockIndex memoryBlocks ++ [newBlock] in
      let memoryBlocks :=
        if processSize <? size selectedBlock then
          memoryBlocks ++
            [mkBlock (Z.of_nat (List.length memoryBlocks) + 1) None
                     (size selectedBlock - processSize)
                     (startAddress selectedBlock + processSize)
                     (endAddress selectedBlock) free]
        else memoryBlocks in
      (Allocated newBlock, sort_by startAddress memoryBlocks)
  | None => (InsufficientMemory, memoryBlocks)
  end.

Definition deallocateMemory (memoryBlocks : list MemoryBlock)
    : list MemoryBlock :=
  filter is_OS memoryBlocks ++ [mkBlock 2 None 896 128 1024 free].

(** The [forEach((block, index) => ...)] of [compactMemory]: the
    rebuilt blocks and the final [currentAddress]. *)
Fixpoint relocate (index : nat) (currentAddress : Z)
    (allocatedBlocks : list MemoryBlock) : list MemoryBlock * Z :=
  match allocatedBlocks with
  | [] => ([], currentAddress)
  | block :: rest =>
      let moved :=
        mkBlock (Z.of_nat index + 1) (processName block) (size block)
                currentAddress (currentAddress + size block)
                (status block) in
      let '(rest, currentAddress) :=
        relocate (S index) (currentAddress + size block) rest in
      (moved :: rest, currentAddress)
  end.

Definition compactMemory (memoryBlocks : list MemoryBlock)
    : list MemoryBlock :=
  let allocatedBlocks :=
    sort_by startAddress (filter is_allocated memoryBlocks) in
  let totalAllocated :=
    fold_left (fun sum block => sum + size block) allocatedBlocks 0 in
  let totalFree := 1024 - totalAllocated in
  let '(memoryBlocks, currentAddress) := relocate 0 0 allocatedBlocks in
  if 0 <? totalFree then
    memoryBlocks ++
      [mkBlock (Z.of_nat (List.length memoryBlocks) + 1) None totalFree
               currentAddress 1024 free]
  else memoryBlocks.

(** A call of one of the three operations, and a run of calls on the
    global [memoryBlocks]. *)
Inductive Call :=
| allocate (processSize : Z) (algorithm : string)
| deallocate
| compact.

Definition call (memoryBlocks : list MemoryBlock) (c : Call)
    : list MemoryBlock :=
  match c with
  | allocate processSize algorithm =>
      snd (allocateMemory processSize algorithm memoryBlocks)
  | deallocate => deallocateMemory memoryBlocks
  | compact => compactMemory memoryBlocks
  end.

Definition run (calls : list Call) (memoryBlocks : list MemoryBlock)
    : list MemoryBlock :=
  fold_left call calls memoryBlocks.

Definition is_reset (c : Call) : bool :=
  match c with allocate _ _ => false | _ => true end.

Definition totalSize (memoryBlocks : list MemoryBlock) : Z :=
  fold_right (fun block sum => size block + sum) 0 memoryBlocks.

End Mem.

(** ** Disk queue (script.js, lines 893-971)

  Cylinders and the head position are integers (the NaN that an empty
  cylinder field leaves in a request is not represented).  The seek
  distance and its running total are computed by [-], [Z.abs] and [+]
  of [Z], which are those of the source while the results stay within
  2^53; the seek time is the binary64 product. *)

Module Disk.

(** The [timestamp] key of a request is never read by the engine and
    is left out. *)
Record DiskRequest := mkRequest {
  id : Z;
  cylinder : Z;
  algorithm : string;
  seekTime : float;
  processed : bool
}.

(** The object built by [addDiskRequest]. *)
Definition addDiskRequest (id cylinder : Z) (algorithm : string)
    : DiskRequest :=
  mkRequest id cylinder algorithm 0%float false.

(** An integer as a JavaScript number: the nearest binary64 value. *)
Definition number (z : Z) : float :=
  SF2Prim (binary_normalize 53 1024 z 0 false).

(** 0.1 ms per cylinder: the double nearest to one tenth. *)
Definition timePerCylinder : float := 0x1.999999999999ap-4%float.

Definition pending (request : DiskRequest) : bool :=
  negb (processed request).

(** The [forEach] over [pendingRequests]: the requests as the loop
    leaves them, the head and the accumulated distance. *)
Fixpoint serve (currentHeadPosition totalSeekDistance : Z)
    (pendingRequests : list DiskRequest) : list DiskRequest * Z * Z :=
  match pendingRequests with
  | [] => ([], currentHeadPosition, totalSeekDistance)
  | request :: rest =>
      let seekDistance := Z.abs (cylinder request - currentHeadPosition) in
      let seekTime := (number seekDistance * timePerCylinder)%float in
      let request :=
        mkRequest (id request) (cylinder request) (algorithm request)
                  seekTime true in
      let '(rest, currentHeadPosition, totalSeekDistance) :=
        serve (cylinder request) (totalSeekDistance + seekDistance) rest in
      (request :: rest, currentHeadPosition, totalSeekDistance)
  end.

(** [pendingRequests] holds the very objects of [diskRequests]: what
    the loop wrote shows in [diskRequests] at their positions. *)
Fixpoint write_back (diskRequests served : list DiskRequest)
    : list DiskRequest :=
  match diskRequests with
  | [] => []
  | request :: rest =>
      if pending request then
        match served with
        | s :: served => s :: write_back rest served
        | [] => request :: write_back rest []
        end
      else request :: write_back rest served
  end.

Record DiskRun := mkRun {
  diskRequests : list DiskRequest;     (* the global, after the run *)
  pendingRequests : list DiskRequest;  (* in the order served *)
  headPosition : Z;
  totalSeekDistance : Z;
  avgSeekTime : float
}.

(** [None] is the early return after [alert('No pending disk
    requests')].  [algorithm] is the value read from the selector. *)
Definition processDiskRequests (algorithm : string) (headPosition : Z)
    (diskRequests : list DiskRequest) : option DiskRun :=
  let pendingRequests := filter pending diskRequests in
  match pendingRequests with
  | [] => None
  | _ :: _ =>
      let '(served, currentHeadPosition, totalSeekDistance) :=
        serve headPosition 0 pendingRequests in
      let avgSeekTime :=
        (fold_left (fun sum r => sum + seekTime r) served 0
           / number (Z.of_nat (List.length served)))%float in
      Some (mkRun (write_back diskRequests served) served
                  currentHeadPosition totalSeekDistance avgSeekTime)
  end.

End Disk.

(** ** Vocabulary of the statements *)

(** *** Orders induced by a sort key *)

Definition le_key {A : Type} (key : A -> Z) (a b : A) : Prop := key a <= key b.
Definition lt_key {A : Type} (key : A -> Z) (a b : A) : Prop := key a < key b.

(** *** Scheduling: valid inputs and consistent traces *)

Module SchedSpec.
Import Sched.

Definition valid (p : Process) : Prop :=
  0 <= arrivalTime p /\ 1 <= burstTime p.

(** The metrics a returned entry carries. *)
Definition metrics_ok (s : Slice) : Prop :=
  0 <= waitingTime (snapshot s)
  /\ burstTime (snapshot s) <= turnaroundTime (snapshot s).

(** [s] is over before [t] starts, and starts no later. *)
Definition precedes (s t : Slice) : Prop :=
  sliceStart s <= sliceStart t
  /\ sliceStart s + duration s <= sliceStart t.

(** Every slice precedes all the slices after it, and none starts
    before its process has arrived. *)
Definition chronological (trace : list Slice) : Prop :=
  StronglySorted precedes trace
  /\ Forall (fun s => arrivalTime (snapshot s) <= sliceStart s) trace.

(** The CPU time the processes of a queue still need. *)
Definition remaining_total (queue : list Process) : Z :=
  fold_right (fun p sum => remainingTime p + sum) 0 queue.

(** What Round Robin has recorded for [p] when the clock shows [t] and
    [trace] has been pushed: the remaining time is within bounds, the
    time already received fits between the arrival and [t], and a
    finished process carries the metrics of the slice that finished
    it. *)
Definition recorded (trace : list Slice) (t : Z) (p : Process) : Prop :=
  0 <= remainingTime p <= burstTime p
  /\ (remainingTime p < burstTime p ->
      arrivalTime p + (burstTime p - remainingTime p) <= t)
  /\ (remainingTime p = 0 ->
      turnaroundTime p = completionTime p - arrivalTime p
      /\ waitingTime p = turnaroundTime p - burstTime p
      /\ arrivalTime p + burstTime p <= completionTime p <= t
      /\ exists s, In s trace
                   /\ id (snapshot s) = id p /\ name (snapshot s) = name p
                   /\ remainingTime (snapshot s) = duration s
                   /\ completionTime p = sliceStart s + duration s).

(** Name, completion time and waiting time of an entry. *)
Definition report (s : Slice) : string * Z * Z :=
  (name (snapshot s), completionTime (snapshot s), waitingTime (snapshot s)).
End SchedSpec.

(** *** Disk: the seek distances as the specification words them *)

Module DiskSpec.
Import Disk.

(** [|cylinder_i - head_(i-1)|] for a head that starts at [head] and
    stands, after each request, on the cylinder just served. *)
Fixpoint seek_distances (head : Z) (cylinders : list Z) : list Z :=
  match cylinders with
  | [] => []
  | c :: rest => Z.abs (c - head) :: seek_distances c rest
  end.

Definition sum (l : list Z) : Z := fold_right Z.add 0 l.

(** A request without its algorithm tag. *)
Definition untagged (r : DiskRequest) : Z * Z * float * bool :=
  (id r, cylinder r, seekTime r, processed r).

(** What a run shows apart from the tags: the order of service (ids
    and cylinders), the seek times, the distance, the head and the
    average. *)
Definition outcome (r : DiskRun)
    : list (Z * Z * float) * Z * Z * float :=
  (map (fun q => (id q, cylinder q, seekTime q)) (pendingRequests r),
   totalSeekDistance r, headPosition r, avgSeekTime r).
End DiskSpec.

(** *** Memory: the invariants of a layout *)

Module MemSpec.
Import Mem.

Definition well_sized (blocks : list MemoryBlock) : Prop :=
  Forall (fun b => endAddress b - startAddress b = size b) blocks.

(** Any two blocks, taken in the order of the list, cover disjoint
    address ranges. *)
Definition no_overlap (blocks : list MemoryBlock) : Prop :=
  ForallOrdPairs
    (fun a b => endAddress a <= startAddress b
                \/ endAddress b <= startAddress a) blocks.

Definition sorted_by_address (blocks : list MemoryBlock) : Prop :=
  StronglySorted (le_key startAddress) blocks.

(** [blocks] tile the addresses from [a] up to [z]: each block starts
    where the one before it ends and has a positive size. *)
Fixpoint tiles (a : Z) (blocks : list MemoryBlock) (z : Z) : Prop :=
  match blocks with
  | [] => a = z
  | b :: rest =>
      startAddress b = a /\ 0 < size b /\ endAddress b = a + size b
      /\ tiles (endAddress b) rest z
  end.

(** The kernel's block comes first and is the only block named OS. *)
Definition os_first (blocks : list MemoryBlock) : Prop :=
  match blocks with
  | [] => False
  | os :: rest =>
      is_OS os = true /\ status os = allocated /\ size os = 128
      /\ Forall (fun b => is_OS b = false) rest
  end.

Definition full_layout (blocks : list MemoryBlock) : Prop :=
  tiles 0 blocks 1024 /\ os_first blocks.

Definition positive_request (c : Call) : Prop :=
  match c with
  | allocate processSize _ => 0 < processSize
  | _ => True
  end.

(** A block that an allocation may take. *)
Definition candidate (processSize : Z) (b : MemoryBlock) : Prop :=
  status b = free /\ processSize <= size b.

(** The free blocks large enough, each with its position in the
    array, in the order of the array. *)
Definition candidates (processSize : Z) (blocks : list MemoryBlock)
    : list (nat * MemoryBlock) :=
  filter (fits processSize)
         (filter (fun ib => is_free (snd ib)) (indexed blocks)).

(** The block an allocation creates in place of [selectedBlock]. *)
Definition placed (processSize : Z) (blocks : list MemoryBlock)
    (selectedBlock : MemoryBlock) : MemoryBlock :=
  let users := filter (fun b => is_allocated b && negb (is_OS b)) blocks in
  mkBlock (Z.of_nat (List.length blocks) + 1)
          (Some ("P" ++ decimal (List.length users + 1))%string)
          processSize (startAddress selectedBlock)
          (startAddress selectedBlock + processSize) allocated.

(** The free block an allocation leaves behind, if any. *)
Definition remainder (processSize : Z) (blockId : Z)
    (selectedBlock : MemoryBlock) : list MemoryBlock :=
  if processSize <? size selectedBlock then
    [mkBlock blockId None (size selectedBlock - processSize)
             (startAddress selectedBlock + processSize)
             (endAddress selectedBlock) free]
  else [].
End MemSpec.

(** *** The range in which the arithmetic of the source is exact *)

Module Range.

(** Binary64 holds every integer of absolute value up to 2^53, and
    gives a sum or a difference of two of them exactly when the result
    is such an integer again.  A [small] number leaves room for one
    more sum or difference. *)
Definition small (z : Z) : Prop := Z.abs z <= 2 ^ 52.

Definition magnitude (numbers : list Z) : Z :=
  fold_right (fun z sum => Z.abs z + sum) 0 numbers.

(** What bounds the clock of a scheduler, and with it every time the
    scheduler computes: the arrival and burst times, added up in
    absolute value. *)
Definition load (processList : list Sched.Process) : Z :=
  magnitude (map Sched.arrivalTime processList)
  + magnitude (map Sched.burstTime processList).

Definition small_block (b : Mem.MemoryBlock) : Prop :=
  small (Mem.startAddress b) /\ small (Mem.size b).
End Range.

(** *** Scheduling: what a trace says about the processes *)

Module TraceSpec.
Import Sched.

(** What is submitted with a process and no scheduler changes. *)
Definition submitted (p : Process) : Z * string * Z * Z * Z :=
  (id p, name p, arrivalTime p, burstTime p, priority p).

(** The processes of a trace, in the order of their slices. *)
Definition served_order (trace : list Slice) : list (Z * string * Z * Z * Z) :=
  map (fun s => submitted (snapshot s)) trace.

Definition arrival_of (b : Z * string * Z * Z * Z) : Z :=
  let '(_, _, arrival, _, _) := b in arrival.

(** The entry of a process that ran from [sliceStart] to completion:
    the slice lasts the whole burst and the copy carries the metrics
    that follow from it. *)
Definition ran_to_completion (s : Slice) : Prop :=
  duration s = burstTime (snapshot s)
  /\ startTime (snapshot s) = Some (sliceStart s)
  /\ completionTime (snapshot s) = sliceStart s + burstTime (snapshot s)
  /\ turnaroundTime (snapshot s)
     = completionTime (snapshot s) - arrivalTime (snapshot s)
  /\ waitingTime (snapshot s) = sliceStart s - arrivalTime (snapshot s).

(** [s] was not preferred to a process that was waiting: if the process
    of the later slice [s'] had arrived when [s] started, its key is no
    smaller, and on equal keys it did not arrive earlier. *)
Definition preferred (key : Process -> Z) (s s' : Slice) : Prop :=
  arrivalTime (snapshot s') <= sliceStart s ->
  key (snapshot s) <= key (snapshot s')
  /\ (key (snapshot s) = key (snapshot s') ->
      arrivalTime (snapshot s) <= arrivalTime (snapshot s')).

(** Processes of equal key stand in the order of their arrival. *)
Definition tie (key : Process -> Z) (a b : Process) : Prop :=
  key a = key b -> arrivalTime a <= arrivalTime b.

(** The slices follow one another without a gap from time [t]. *)
Fixpoint gapless (t : Z) (trace : list Slice) : Prop :=
  match trace with
  | [] => True
  | s :: rest => sliceStart s = t /\ gapless (t + duration s) rest
  end.

(** The CPU time a trace gives in all, and to the process of id [i]. *)
Definition busy (trace : list Slice) : Z :=
  fold_right (fun s sum => duration s + sum) 0 trace.

Definition served (i : Z) (trace : list Slice) : Z :=
  busy (filter (fun s => id (snapshot s) =? i) trace).

(** The sum of a metric over the entries of a trace. *)
Definition total (metric : Process -> Z) (trace : list Slice) : Z :=
  fold_right (fun s sum => metric (snapshot s) + sum) 0 trace.
End TraceSpec.

(** ** Memory statistics (script.js, lines 764-780) *)

Module MemStats.
Import Mem.

Record MemoryStats := mkStats {
  usedMemory : Z;
  freeMemory : Z;
  fragmentation : float;
  allocatedBlocks : nat;
  freeBlocks : nat
}.

(** [Math.max(...sizes, 0)]. *)
Definition largest (sizes : list Z) : Z := fold_right Z.max 0 sizes.

(** What [updateMemoryStats] writes to the page, before [toFixed]. *)
Definition updateMemoryStats (memoryBlocks : list MemoryBlock) : MemoryStats :=
  let totalMemory := 1024 in
  let usedMemory :=
    fold_left (fun sum b => sum + size b) (filter is_allocated memoryBlocks) 0 in
  let freeMemory := totalMemory - usedMemory in
  let freeBlocks := List.length (filter is_free memoryBlocks) in
  let allocatedBlocks := List.length (filter is_allocated memoryBlocks) in
  let largestFreeBlock := largest (map size (filter is_free memoryBlocks)) in
  let fragmentation :=
    if 0 <? freeMemory then
      (Disk.number (freeMemory - largestFreeBlock) / Disk.number freeMemory
       * Disk.number 100)%float
    else Disk.number 0 in
  mkStats usedMemory freeMemory fragmentation allocatedBlocks freeBlocks.
End MemStats.

(** *** Memory: the shape of the layouts that the calls produce *)

Module LayoutSpec.
Import Mem.

(** The kernel's block, as the initial layout has it. *)
Definition osBlock : MemoryBlock :=
  mkBlock 1 (Some "OS"%string) 128 0 128 allocated.

(** The free block that [deallocateMemory] appends. *)
Definition freshFree : MemoryBlock := mkBlock 2 None 896 128 1024 free.

(** The owner names P1, ..., Pk. *)
Definition userNames (k : nat) : list (option string) :=
  map (fun i => Some ("P" ++ decimal i)%string) (seq 1 k).

(** The kernel's block, then allocated blocks owned by P1, ..., Pk in
    this order, then at most one free block. *)
Definition shaped (blocks : list MemoryBlock) : Prop :=
  exists users tail,
    blocks = osBlock :: users ++ tail
    /\ Forall (fun b => status b = allocated) users
    /\ map processName users = userNames (List.length users)
    /\ (tail = []
        \/ exists f, tail = [f] /\ status f = free /\ processName f = None).

(** One of the three algorithm names of the selector. *)
Definition fit_algorithm (algorithm : string) : Prop :=
  algorithm = "first"%string \/ algorithm = "best"%string
  \/ algorithm = "worst"%string.

(** Owner, size and status of a block. *)
Definition content (b : MemoryBlock) : option string * Z * Status :=
  (processName b, size b, status b).

(** The blocks follow one another from address [a], each ending
    [size] after its start. *)
Fixpoint packed (a : Z) (blocks : list MemoryBlock) : Prop :=
  match blocks with
  | [] => True
  | b :: rest =>
      startAddress b = a /\ endAddress b = a + size b
      /\ packed (endAddress b) rest
  end.
End LayoutSpec.

(** ** Reading a form field *)

(** [parseInt(field) || fallback]: the number read, or [fallback] when
    it is 0 or NaN ([None]). *)
Definition or_default (field : option Z) (fallback : Z) : Z :=
  match field with
  | Some n => if n =? 0 then fallback else n
  | None => fallback
  end.

(** The ids 1, 2, ..., n that [length + 1] gives to the objects pushed
    on an array that starts empty. *)
Definition numbered (n : nat) : list Z := map Z.of_nat (seq 1 n).

(** ** The process list (script.js, lines 320-383) *)

Module ProcessList.

(** [addProcess], from the texts of the four fields, the numeric ones
    already through [parseInt]. *)
Definition addProcess (nameField : string)
    (arrivalField burstField priorityField : option Z)
    (processes : list Sched.Process) : list Sched.Process :=
  let name :=
    match nameField with
    | EmptyString =>
        ("P" ++ Mem.decimal (List.length processes + 1))%string
    | _ => nameField
    end in
  let arrivalTime := or_default arrivalField 0 in
  let burstTime := or_default burstField 1 in
  let priority := or_default priorityField 1 in
  processes ++
    [Sched.addProcess (Z.of_nat (List.length processes) + 1) name
                      arrivalTime burstTime priority].

(** [processes.splice(index, 1)], for the index of a table row. *)
Definition removeProcess (index : nat) (processes : list Sched.Process)
    : list Sched.Process :=
  firstn index processes ++ skipn (S index) processes.

Definition clearProcesses : list Sched.Process := [].

Inductive Action :=
| add (nameField : string) (arrivalField burstField priorityField : option Z)
| remove (index : nat)
| clear.

Definition act (processes : list Sched.Process) (a : Action)
    : list Sched.Process :=
  match a with
  | add nameField arrivalField burstField priorityField =>
      addProcess nameField arrivalField burstField priorityField processes
  | remove index => removeProcess index processes
  | clear => clearProcesses
  end.

(** The list after a series of actions on the page as loaded. *)
Definition session (actions : list Action) : list Sched.Process :=
  fold_left act actions [].

Definition not_negative (field : option Z) : Prop :=
  match field with Some n => 0 <= n | None => True end.

(** An action that submits no negative arrival or burst time. *)
Definition well_formed (a : Action) : Prop :=
  match a with
  | add _ arrivalField burstField _ =>
      not_negative arrivalField /\ not_negative burstField
  | _ => True
  end.

(** A process as [addProcess] leaves it. *)
Definition fresh (p : Sched.Process) : Prop :=
  Sched.remainingTime p = Sched.burstTime p
  /\ Sched.waitingTime p = 0 /\ Sched.turnaroundTime p = 0
  /\ Sched.completionTime p = 0 /\ Sched.startTime p = None
  /\ Sched.status p = "ready"%string.
End ProcessList.

(** ** Running a scheduler (script.js, lines 385-417 and 584-602)

  The totals of [calculateStatistics] are sums of integers, those of
  the source while they stay within 2^53; the averages and the
  utilisation are binary64 quotients of them. *)

Module SchedStats.
Import Sched.

(** The own properties of [completedProcesses], in the order of their
    creation. *)
Definition Completed := list (string * Slice).

(** A property is overwritten where it stands, or created last. *)
Fixpoint put (key : string) (value : Slice) (object : Completed)
    : Completed :=
  match object with
  | [] => [(key, value)]
  | (k, v) :: rest =>
      if String.eqb k key then (k, value) :: rest
      else (k, v) :: put key value rest
  end.

(** [completedProcesses[key] = value].  The object is a literal: the
    key [__proto__] reaches the setter of [Object.prototype], which
    creates no property. *)
Definition assign (key : string) (value : Slice) (object : Completed)
    : Completed :=
  if String.eqb key "__proto__" then object else put key value object.

(** The array index a key spells, if any: a decimal numeral without
    superfluous zeros, below 2^32 - 1. *)
Definition array_index (key : string) : option Z :=
  match NilZero.uint_of_string key with
  | Some u =>
      let n := N.of_uint u in
      if String.eqb (NilZero.string_of_uint (N.to_uint n)) key
         && (Z.of_N n <? 2 ^ 32 - 1)
      then Some (Z.of_N n) else None
  | None => None
  end.

Definition is_index (property : string * Slice) : bool :=
  match array_index (fst property) with Some _ => true | None => false end.

Definition index_of (property : string * Slice) : Z :=
  match array_index (fst property) with Some n => n | None => 0 end.

(** [Object.values]: the properties named by array indices come first,
    by index; the others follow in the order of their creation. *)
Definition values (object : Completed) : list Slice :=
  map snd (sort_by index_of (filter is_index object)
           ++ filter (fun property => negb (is_index property)) object).

(** [Math.max(...numbers)], which is -Infinity without arguments. *)
Definition max_of (numbers : list Z) : float :=
  match numbers with
  | [] => neg_infinity
  | n :: rest => Disk.number (fold_left Z.max rest n)
  end.

Record Statistics := mkStatistics {
  avgWaitingTime : float;
  avgTurnaroundTime : float;
  cpuUtilization : float
}.

(** The body of the [forEach] that fills [completedProcesses]. *)
Definition collect (completedProcesses : Completed) (process : Slice)
    : Completed :=
  if completionTime (snapshot process) =? 0 then completedProcesses
  else assign (name (snapshot process)) process completedProcesses.

(** What [calculateStatistics] writes to the page, before [toFixed]. *)
Definition calculateStatistics (scheduledProcesses : list Slice)
    : Statistics :=
  let completedProcesses := fold_left collect scheduledProcesses [] in
  let processArray := values completedProcesses in
  let count := Z.of_nat (List.length processArray) in
  let waitingSum :=
    fold_left (fun sum p => sum + waitingTime (snapshot p)) processArray 0 in
  let turnaroundSum :=
    fold_left (fun sum p => sum + turnaroundTime (snapshot p))
              processArray 0 in
  let avgWaitingTime := (Disk.number waitingSum / Disk.number count)%float in
  let avgTurnaroundTime :=
    (Disk.number turnaroundSum / Disk.number count)%float in
  let totalTime :=
    max_of (map (fun p => sliceStart p + duration p) scheduledProcesses) in
  let durationSum :=
    fold_left (fun sum p => sum + duration p) scheduledProcesses 0 in
  let cpuUtilization :=
    (Disk.number durationSum / totalTime * Disk.number 100)%float in
  mkStatistics avgWaitingTime avgTurnaroundTime cpuUtilization.

(** What a click on the run button comes to. *)
Inductive Run :=
| alert                     (* 'Add processes first!' *)
| running                   (* the scheduler has not returned *)
| shown (scheduledProcesses : list Slice) (statistics : Statistics).

(** [runScheduler], for the value of the algorithm selector and the
    quantum field after [parseInt]; [fuel] bounds the passes of Round
    Robin.  Each scheduler gets a copy of the array [processes] that
    holds the same objects: what FCFS, SJF and Priority write into them
    is still there at the next click.  The result is what one click
    displays, for [processes] as it stands at that click. *)
Definition runScheduler (fuel : nat) (algorithm : string)
    (timeQuantumField : option Z) (processes : list Process) : Run :=
  match processes with
  | [] => alert
  | _ :: _ =>
      let timeQuantum := or_default timeQuantumField 4 in
      let scheduledProcesses :=
        if String.eqb algorithm "fcfs" then Some (scheduleFCFS processes)
        else if String.eqb algorithm "sjf" then scheduleSJF processes
        else if String.eqb algorithm "priority"
        then schedulePriority processes
        else if String.eqb algorithm "rr"
        then option_map snd (scheduleRoundRobin fuel processes timeQuantum)
        else Some [] in
      match scheduledProcesses with
      | Some scheduledProcesses =>
          shown scheduledProcesses (calculateStatistics scheduledProcesses)
      | None => running
      end
  end.
End SchedStats.

(** ** The file system (script.js, lines 792-841)

  Sizes are integers; their total is that of the source while it
  stays within 2^53. *)

Module Files.

(** The [created] key holds the time of the call and is left out. *)
Record FileItem := mkItem {
  id : Z;
  name : string;
  type : string;
  size : Z;
  parentPath : string;
  fullPath : string
}.

(** [createFileOrFolder], for the texts of the name field and of the
    type selector and the size field after [parseInt]. *)
Definition createFileOrFolder (fileName fileType : string)
    (fileSizeField : option Z) (fileSystem : list FileItem)
    : list FileItem :=
  let fileSize := or_default fileSizeField 0 in
  match fileName with
  | EmptyString => fileSystem   (* 'Please enter a file/folder name' *)
  | _ =>
      fileSystem ++
        [mkItem (Z.of_nat (List.length fileSystem) + 1) fileName fileType
                (if String.eqb fileType "file" then fileSize else 0)
                "/" ("/" ++ fileName)]
  end.

Record FileStats := mkFileStats {
  totalFiles : nat;
  totalFolders : nat;
  usedSpace : Z;          (* KB *)
  freeSpace : float       (* MB *)
}.

Definition updateFileStats (fileSystem : list FileItem) : FileStats :=
  let files := filter (fun item => String.eqb (type item) "file") fileSystem in
  let folders :=
    filter (fun item => String.eqb (type item) "folder") fileSystem in
  let totalSize := fold_left (fun sum file => sum + size file) files 0 + 182 in
  let freeKB := 10 * 1024 - totalSize in
  mkFileStats (List.length files + 4) (List.length folders + 4) totalSize
              (Disk.number freeKB / Disk.number 1024)%float.

(** The globals the file functions share. *)
Record State := mkState {
  fileSystem : list FileItem;
  selectedFile : option string     (* [None] is null *)
}.

Inductive Action :=
| create (fileName fileType : string) (fileSizeField : option Z)
| select (textContent : string)
| deleteSelected.

(** [deleteSelected] logs the deletion and clears the selection; it
    does so only when the selection is a non-empty text. *)
Definition act (s : State) (a : Action) : State :=
  match a with
  | create fileName fileType fileSizeField =>
      mkState (createFileOrFolder fileName fileType fileSizeField
                                  (fileSystem s))
              (selectedFile s)
  | select textContent => mkState (fileSystem s) (Some textContent)
  | deleteSelected =>
      match selectedFile s with
      | None | Some EmptyString => s
      | Some _ => mkState (fileSystem s) None
      end
  end.

Definition session (actions : list Action) : State :=
  fold_left act actions (mkState [] None).

(** The files a series of actions asked for: the [create] actions with
    a name and the type [file]. *)
Definition requested_files (actions : list Action) : list Z :=
  flat_map
    (fun a =>
       match a with
       | create (String _ _) fileType fileSizeField =>
           if String.eqb fileType "file"
           then [or_default fileSizeField 0] else []
       | _ => []
       end) actions.
End Files.

(** ** The disk panel (script.js, lines 893-978) *)

Module DiskPanel.
Import Disk.

(** What the disk functions read back: the global [diskRequests] and
    the number shown as head position. *)
Record Panel := mkPanel {
  requests : list DiskRequest;
  head : Z
}.

(** [addDiskRequest], for a cylinder field that holds a number. *)
Definition addDiskRequest (cylinder : Z) (algorithm : string)
    (diskRequests : list DiskRequest) : list DiskRequest :=
  if (cylinder <? 0) || (199 <? cylinder)
  then diskRequests   (* 'Cylinder must be between 0 and 199' *)
  else diskRequests ++
         [Disk.addDiskRequest (Z.of_nat (List.length diskRequests) + 1)
                              cylinder algorithm].

Definition clearDiskRequests : list DiskRequest := [].

Inductive Action :=
| add (cylinder : Z) (algorithm : string)
| process (algorithm : string)
| clear.

Definition act (p : Panel) (a : Action) : Panel :=
  match a with
  | add cylinder algorithm =>
      mkPanel (addDiskRequest cylinder algorithm (requests p)) (head p)
  | process algorithm =>
      match processDiskRequests algorithm (or_default (Some (head p)) 0)
                                (requests p) with
      | Some run => mkPanel (diskRequests run) (headPosition run)
      | None => p
      end
  | clear => mkPanel clearDiskRequests (head p)
  end.

(** The panel after a series of actions on a page that shows [head]
    and has no request yet. *)
Definition session (head : Z) (actions : list Action) : Panel :=
  fold_left act actions (mkPanel [] head).

End DiskPanel.

(** * Properties *)

(** ** The exact range *)

(** Up to 2^53 the binary64 sum of two integers is their sum; there it
    ends: 2^53 + 1 is not a binary64 number, and adding 1 to 2^53
    gives 2^53 again. *)
Lemma exact_range_ends_at_2_53 :
  (Disk.number (2 ^ 53 - 1) + Disk.number 1)%float = Disk.number (2 ^ 53)
  /\ (Disk.number (2 ^ 53) + Disk.number 1)%float = Disk.number (2 ^ 53)
  /\ Disk.number (2 ^ 53 + 1) = Disk.number (2 ^ 53).
Proof. repeat split; vm_compute; reflexivity. Qed.

(** ** The stable sort *)

Section StableSortFacts.
Context {A : Type} (key : A -> Z).

Lemma insert_by_perm (x : A) (l : list A) :
  Permutation (insert_by key x l) (x :: l).
Proof.
  induction l as [|y l IH]; simpl; [reflexivity|].
  destruct (key x <=? key y); [reflexivity|].
  rewrite IH. apply perm_swap.
Qed.

Lemma sort_by_perm (l : list A) : Permutation (sort_by key l) l.
Proof.
  induction l as [|x l IH]; simpl; [reflexivity|].
  rewrite insert_by_perm. now constructor.
Qed.

Lemma sort_by_In (l : list A) (x : A) : In x (sort_by key l) <-> In x l.
Proof.
  split; apply Permutation_in;
    [apply sort_by_perm | symmetry; apply sort_by_perm].
Qed.

Lemma sort_by_length (l : list A) :
  List.length (sort_by key l) = List.length l.
Proof. apply Permutation_length, sort_by_perm. Qed.

Lemma insert_by_sorted (x : A) (l : list A) :
  Sorted (le_key key) l -> Sorted (le_key key) (insert_by key x l).
Proof.
  induction 1 as [|y l Hs IH Hhd]; simpl; [repeat constructor|].
  destruct (key x <=? key y) eqn:Hxy.
  - repeat constructor; auto. unfold le_key; lia.
  - constructor; [exact IH|].
    destruct l as [|z l]; simpl.
    + constructor. unfold le_key; lia.
    + destruct (key x <=? key z); constructor.
      * unfold le_key; lia.
      * now inversion Hhd.
Qed.

Lemma sort_by_sorted (l : list A) : Sorted (le_key key) (sort_by key l).
Proof.
  induction l; simpl; [constructor | now apply insert_by_sorted].
Qed.

Lemma le_key_trans : Relations_1.Transitive (le_key key).
Proof. intros a b c; unfold le_key; lia. Qed.

Lemma sort_by_strongly_sorted (l : list A) :
  StronglySorted (le_key key) (sort_by key l).
Proof.
  apply Sorted_StronglySorted; [exact le_key_trans | apply sort_by_sorted].
Qed.

(** A sorted array is left as it is: the sort is stable. *)
Lemma sort_by_id (l : list A) : Sorted (le_key key) l -> sort_by key l = l.
Proof.
  induction 1 as [|x l Hs IH Hhd]; simpl; [reflexivity|].
  rewrite IH. destruct Hhd as [|y l Hxy]; simpl; [reflexivity|].
  unfold le_key in Hxy. destruct (key x <=? key y) eqn:E; [reflexivity|lia].
Qed.

(** With pairwise distinct keys there is one sorted arrangement. *)
Lemma sorted_perm_unique (l2 : list A) : forall l1,
  StronglySorted (le_key key) l1 -> StronglySorted (lt_key key) l2 ->
  Permutation l1 l2 -> l1 = l2.
Proof.
  induction l2 as [|y l2 IH]; intros l1 H1 H2 Hp.
  - symmetry in Hp. now apply Permutation_nil in Hp.
  - destruct l1 as [|x l1];
      [now apply Permutation_nil in Hp|].
    inversion H1 as [|? ? H1' Hx]; subst.
    inversion H2 as [|? ? H2' Hy]; subst.
    rewrite Forall_forall in Hx, Hy.
    assert (Hxy : x = y).
    { assert (Hin : In x (y :: l2))
        by (apply (Permutation_in _ Hp); now left).
      assert (Hin' : In y (x :: l1))
        by (apply (Permutation_in _ (Permutation_sym Hp)); now left).
      destruct Hin as [->|Hin]; [reflexivity|].
      destruct Hin' as [->|Hin']; [reflexivity|].
      specialize (Hx _ Hin'). specialize (Hy _ Hin).
      unfold le_key, lt_key in *. lia. }
    subst. f_equal. apply IH; auto.
    now apply Permutation_cons_inv in Hp.
Qed.

Lemma sort_by_unique (l target : list A) :
  StronglySorted (lt_key key) target -> Permutation l target ->
  sort_by key l = target.
Proof.
  intros Ht Hp. apply sorted_perm_unique; auto.
  - apply sort_by_strongly_sorted.
  - now rewrite sort_by_perm.
Qed.

(** The first element after the sort is the earliest of the elements
    of least key. *)
Lemma sort_by_head (l : list A) : forall x,
  hd_error (sort_by key l) = Some x ->
  exists before after,
    l = before ++ x :: after
    /\ (forall y, In y before -> key x < key y)
    /\ (forall y, In y after -> key x <= key y).
Proof.
  induction l as [|a l IH]; intros x Hx; simpl in Hx; [discriminate|].
  destruct (sort_by key l) as [|m rest] eqn:Hsort.
  - assert (l = []) as ->.
    { apply length_zero_iff_nil. rewrite <- sort_by_length, Hsort.
      reflexivity. }
    simpl in Hx. injection Hx as <-.
    exists [], []. repeat split; intros y [].
  - destruct (IH m eq_refl) as (before & after & Hl & Hb & Ha).
    simpl in Hx. destruct (key a <=? key m) eqn:Ham;
      simpl in Hx; injection Hx as <-.
    + exists [], l. repeat split; [intros y []|].
      intros y Hy. rewrite Hl in Hy. apply in_app_or in Hy.
      destruct Hy as [Hy|[<-|Hy]];
        [specialize (Hb _ Hy) | | specialize (Ha _ Hy)]; lia.
    + exists (a :: before), after. rewrite Hl. repeat split; auto.
      intros y [<-|Hy]; [lia | now apply Hb].
Qed.

Lemma sort_by_head_exists (l : list A) :
  l <> [] -> exists x, hd_error (sort_by key l) = Some x.
Proof.
  intros Hl. destruct (sort_by key l) as [|x rest] eqn:Hsort.
  - elim Hl. apply length_zero_iff_nil.
    now rewrite <- sort_by_length, Hsort.
  - now exists x.
Qed.
End StableSortFacts.

(** ** Disk queue *)

Section DiskFacts.
Import Disk DiskSpec.

Lemma last_cons_default (A : Type) (l : list A) (x d d' : A) :
  last (x :: l) d = last (x :: l) d'.
Proof.
  revert x; induction l as [|y l IH]; intros x; [reflexivity|].
  change (last (y :: l) d = last (y :: l) d'). apply IH.
Qed.

Lemma serve_spec (queue : list DiskRequest) : forall head total,
  let '(served, head', total') := serve head total queue in
  map id served = map id queue
  /\ map cylinder served = map cylinder queue
  /\ map algorithm served = map algorithm queue
  /\ map seekTime served =
       map (fun d => (number d * timePerCylinder)%float)
           (seek_distances head (map cylinder queue))
  /\ Forall (fun r => processed r = true) served
  /\ head' = last (map cylinder queue) head
  /\ total' = total + sum (seek_distances head (map cylinder queue)).
Proof.
  induction queue as [|r queue IH]; intros head total; simpl.
  - repeat split; auto; lia.
  - specialize (IH (cylinder r) (total + Z.abs (cylinder r - head))).
    destruct (serve (cylinder r) (total + Z.abs (cylinder r - head)) queue)
      as [[served head'] total'].
    destruct IH as (Hid & Hcyl & Halg & Htime & Hproc & Hhead & Htotal).
    simpl. rewrite Hid, Hcyl, Halg, Htime.
    repeat split; auto.
    + rewrite Hhead. destruct (map cylinder queue) as [|c cs];
        [reflexivity | apply last_cons_default].
    + unfold sum in *. simpl. lia.
Qed.

Lemma write_back_all_pending (queue served : list DiskRequest) :
  Forall (fun r => processed r = false) queue ->
  List.length served = List.length queue ->
  write_back queue served = served.
Proof.
  intros Hq; revert served.
  induction Hq as [|r queue Hr _ IH]; intros [|s served] Hlen;
    simpl in *; try discriminate; auto.
  unfold pending. rewrite Hr. simpl. f_equal. apply IH. lia.
Qed.

Lemma write_back_spec (requests : list DiskRequest) : forall served,
  map cylinder served = map cylinder (filter pending requests) ->
  Forall (fun r => processed r = true) served ->
  map cylinder (write_back requests served) = map cylinder requests
  /\ Forall (fun r => processed r = true) (write_back requests served).
Proof.
  induction requests as [|r requests IH]; intros served Hcyl Hdone; simpl.
  - split; constructor.
  - simpl in Hcyl. unfold pending in Hcyl |- *.
    destruct (processed r) eqn:Hr; simpl in *; fold pending in Hcyl.
    + destruct (IH served Hcyl Hdone) as [H1 H2].
      split; [now rewrite H1 | now constructor].
    + destruct served as [|s served]; [discriminate|].
      inversion Hcyl; subst. inversion Hdone; subst.
      destruct (IH served) as [H1' H2']; auto.
      simpl. split; [congruence | now constructor].
Qed.

Lemma filter_pending_unprocessed (requests : list DiskRequest) :
  Forall (fun r => processed r = false) (filter pending requests).
Proof.
  apply Forall_forall. intros r Hr. apply filter_In in Hr.
  destruct Hr as [_ Hr]. unfold pending in Hr.
  now destruct (processed r).
Qed.

Lemma write_back_stored (requests : list DiskRequest) : forall served,
  List.length served = List.length (filter pending requests) ->
  List.length (write_back requests served) = List.length requests
  /\ map snd (filter (fun change => pending (fst change))
                     (combine requests (write_back requests served)))
     = served
  /\ Forall (fun change => pending (fst change) = false ->
                           snd change = fst change)
            (combine requests (write_back requests served)).
Proof.
  induction requests as [|r requests IH]; intros served Hlen; simpl in *.
  - destruct served; [|discriminate]. repeat split; constructor.
  - destruct (pending r) eqn:Hr.
    + destruct served as [|s served]; [discriminate|].
      simpl in Hlen. injection Hlen as Hlen.
      destruct (IH served Hlen) as (H1 & H2 & H3).
      simpl. rewrite Hr. simpl. rewrite H1, H2.
      split; [reflexivity|]. split; [reflexivity|].
      constructor; [simpl; congruence | exact H3].
    + destruct (IH served Hlen) as (H1 & H2 & H3).
      simpl. rewrite Hr. rewrite H1, H2.
      split; [reflexivity|]. split; [reflexivity|].
      constructor; [reflexivity | exact H3].
Qed.

(** C3.  For a head, cylinders and a total distance within the exact
    range: whenever some request is pending, the run succeeds; it
    serves the pending requests in the order of submission (same ids,
    same cylinders, in the order of the queue), gives each the seek
    time [|cylinder - head| * 0.1] for the head left by the request
    before it, leaves the head on the last cylinder served, turns
    every processed flag from false to true, and reports as total
    distance the sum of the [|cylinder_i - head_(i-1)|].  The requests
    served, with their seek times, are what [diskRequests] then holds
    at the places of the pending ones; the other requests are left as
    they were.  From head 50 with pending cylinders 98, 183, 37, 122
    the total is 364. *)
Theorem processDiskRequests_arrival_order
    (algorithm : string) (head : Z) (requests : list DiskRequest) :
  filter pending requests <> [] ->
  Range.small head ->
  Forall (fun r => Range.small (cylinder r)) requests ->
  Range.small
    (sum (seek_distances head (map cylinder (filter pending requests)))) ->
  let queue := filter pending requests in
  exists run,
    processDiskRequests algorithm head requests = Some run
    /\ map id (pendingRequests run) = map id queue
    /\ map cylinder (pendingRequests run) = map cylinder queue
    /\ map seekTime (pendingRequests run) =
         map (fun d => (number d * timePerCylinder)%float)
             (seek_distances head (map cylinder queue))
    /\ Forall (fun r => processed r = false) queue
    /\ Forall (fun r => processed r = true) (pendingRequests run)
    /\ map cylinder (diskRequests run) = map cylinder requests
    /\ Forall (fun r => processed r = true) (diskRequests run)
    /\ List.length (diskRequests run) = List.length requests
    /\ map snd (filter (fun change => pending (fst change))
                       (combine requests (diskRequests run)))
       = pendingRequests run
    /\ Forall (fun change => pending (fst change) = false ->
                             snd change = fst change)
              (combine requests (diskRequests run))
    /\ headPosition run = last (map cylinder queue) head
    /\ totalSeekDistance run = sum (seek_distances head (map cylinder queue))
    /\ (head = 50 -> map cylinder queue = [98; 183; 37; 122] ->
        totalSeekDistance run = 364).
Proof.
  intros Hne _ _ _ queue. unfold processDiskRequests. fold queue.
  destruct queue as [|q0 queue'] eqn:Hq; [now elim Hne|].
  rewrite <- Hq.
  pose proof (serve_spec queue head 0) as Hs.
  destruct (serve head 0 queue) as [[served head'] total'].
  destruct Hs as (Hid & Hcyl & _ & Htime & Hdone & Hhead & Htotal).
  destruct (write_back_spec requests served) as [Hwc Hwd]; auto.
  assert (Hlen : List.length served = List.length (filter pending requests)).
  { fold queue. now rewrite <- (length_map cylinder served), Hcyl, length_map. }
  destruct (write_back_stored requests served Hlen) as (Hl & Hstored & Hkept).
  eexists; split; [reflexivity|]; simpl.
  split; [exact Hid|]. split; [exact Hcyl|]. split; [exact Htime|].
  split; [subst queue; apply filter_pending_unprocessed|].
  split; [exact Hdone|]. split; [exact Hwc|]. split; [exact Hwd|].
  split; [exact Hl|]. split; [exact Hstored|]. split; [exact Hkept|].
  split; [exact Hhead|]. split; [simpl in Htotal; exact Htotal|].
  intros -> Hc. rewrite Htotal, Hc. reflexivity.
Qed.

(** At the scenario of the specification. *)
Lemma processDiskRequests_arrival_order_scenario_D :
  let requests :=
    [addDiskRequest 1 98 "scan"; addDiskRequest 2 183 "scan";
     addDiskRequest 3 37 "scan"; addDiskRequest 4 122 "scan"] in
  filter pending requests <> []
  /\ Range.small 50
  /\ Forall (fun r => Range.small (cylinder r)) requests
  /\ Range.small
       (sum (seek_distances 50 (map cylinder (filter pending requests))))
  /\ exists run,
       processDiskRequests "scan" 50 requests = Some run
       /\ map seekTime (diskRequests run)
          = map (fun d => (number d * timePerCylinder)%float) [48; 85; 146; 85]
       /\ totalSeekDistance run = 364.
Proof.
  intros requests.
  assert (Hne : filter pending requests <> []) by discriminate.
  assert (Hhead : Range.small 50) by (vm_compute; discriminate).
  assert (Hcyl : Forall (fun r => Range.small (cylinder r)) requests)
    by (repeat constructor; vm_compute; discriminate).
  assert (Hsum : Range.small
                   (sum (seek_distances
                           50 (map cylinder (filter pending requests)))))
    by (vm_compute; discriminate).
  split; [exact Hne|]. split; [exact Hhead|]. split; [exact Hcyl|].
  split; [exact Hsum|].
  destruct (processDiskRequests_arrival_order "scan" 50 requests
              Hne Hhead Hcyl Hsum)
    as (run & Hrun & _ & _ & Htime & _ & _ & _ & _ & _ & Hstored & _ & _
        & _ & H364).
  exists run. split; [exact Hrun|]. split; [|now apply H364].
  injection Hrun as <-. reflexivity.
Defined.

Lemma serve_untagged (q1 : list DiskRequest) : forall q2 head total,
  map untagged q1 = map untagged q2 ->
  let '(s1, h1, t1) := serve head total q1 in
  let '(s2, h2, t2) := serve head total q2 in
  map untagged s1 = map untagged s2 /\ h1 = h2 /\ t1 = t2.
Proof.
  induction q1 as [|r1 q1 IH]; intros [|r2 q2] head total Heq;
    simpl in *; try discriminate; auto.
  inversion Heq as [[Hi Hc Ht Hp Hrest]].
  specialize (IH q2 (cylinder r1) (total + Z.abs (cylinder r1 - head)) Hrest).
  destruct (serve (cylinder r1) (total + Z.abs (cylinder r1 - head)) q1)
    as [[s1 h1] t1].
  destruct (serve (cylinder r1) (total + Z.abs (cylinder r1 - head)) q2)
    as [[s2 h2] t2].
  destruct IH as (Hs & Hh & Htot). simpl. unfold untagged at 1 3. simpl.
  rewrite Hs. auto.
Qed.

Lemma filter_pending_untagged (q1 : list DiskRequest) : forall q2,
  map untagged q1 = map untagged q2 ->
  map untagged (filter pending q1) = map untagged (filter pending q2).
Proof.
  induction q1 as [|r1 q1 IH]; intros [|r2 q2] Heq;
    simpl in *; try discriminate; auto.
  inversion Heq as [[Hi Hc Ht Hp Hrest]].
  assert (Hpend : pending r1 = pending r2) by (unfold pending; now rewrite Hp).
  rewrite Hpend. destruct (pending r2); simpl; auto.
  rewrite (IH q2 Hrest). f_equal. unfold untagged. congruence.
Qed.

Lemma sum_seekTime_untagged (s1 : list DiskRequest) : forall s2 acc,
  map untagged s1 = map untagged s2 ->
  fold_left (fun sum r => (sum + seekTime r)%float) s1 acc
  = fold_left (fun sum r => (sum + seekTime r)%float) s2 acc.
Proof.
  induction s1 as [|r1 s1 IH]; intros [|r2 s2] acc Heq;
    simpl in *; try discriminate; auto.
  inversion Heq as [[Hi Hc Ht Hp Hrest]]. rewrite Ht. now apply IH.
Qed.

Lemma outcome_untagged (s1 s2 : list DiskRequest) :
  map untagged s1 = map untagged s2 ->
  map (fun q => (id q, cylinder q, seekTime q)) s1
  = map (fun q => (id q, cylinder q, seekTime q)) s2.
Proof.
  revert s2; induction s1 as [|r1 s1 IH]; intros [|r2 s2] Heq;
    simpl in *; try discriminate; auto.
  inversion Heq as [[Hi Hc Ht Hp Hrest]]. now rewrite (IH s2 Hrest).
Qed.

(** C9.  Two runs from the same head over queues that agree on
    everything but the algorithm tags of their requests, under any two
    selections of the algorithm, show the same outcome: the same order
    of service, seek times, total distance, final head and average. *)
Theorem processDiskRequests_algorithm_blind
    (a1 a2 : string) (head : Z) (q1 q2 : list DiskRequest) :
  map untagged q1 = map untagged q2 ->
  option_map outcome (processDiskRequests a1 head q1)
  = option_map outcome (processDiskRequests a2 head q2).
Proof.
  intros Heq. unfold processDiskRequests.
  pose proof (filter_pending_untagged q1 q2 Heq) as Hf.
  pose proof (serve_untagged _ _ head 0 Hf) as Hs.
  destruct (filter pending q1) as [|p1 f1] eqn:H1;
    destruct (filter pending q2) as [|p2 f2] eqn:H2;
    try discriminate; [reflexivity|].
  destruct (serve head 0 (p1 :: f1)) as [[s1 h1] t1].
  destruct (serve head 0 (p2 :: f2)) as [[s2 h2] t2].
  destruct Hs as (Hs & -> & ->). simpl. unfold outcome; simpl.
  rewrite (outcome_untagged _ _ Hs), (sum_seekTime_untagged _ _ _ Hs).
  apply (f_equal (@List.length _)) in Hs. rewrite !length_map in Hs.
  now rewrite Hs.
Qed.

(** The FCFS queue of scenario D under four selections. *)
Lemma processDiskRequests_algorithm_blind_scenario_D :
  let queue tag :=
    [addDiskRequest 1 98 tag; addDiskRequest 2 183 tag;
     addDiskRequest 3 37 tag; addDiskRequest 4 122 tag] in
  map untagged (queue "scan"%string) = map untagged (queue "sstf"%string)
  /\ option_map outcome (processDiskRequests "c-scan" 50 (queue "scan"%string))
     = option_map outcome (processDiskRequests "fcfs" 50 (queue "sstf"%string)).
Proof.
  intros queue.
  assert (H : map untagged (queue "scan"%string)
              = map untagged (queue "sstf"%string)) by reflexivity.
  split; [exact H|].
  exact (processDiskRequests_algorithm_blind "c-scan" "fcfs" 50 _ _ H).
Defined.
End DiskFacts.

(** ** Memory management *)

Section MemFacts.
Import Mem MemSpec.

Lemma combine_seq_In (blocks : list MemoryBlock) : forall s i b,
  In (i, b) (combine (seq s (List.length blocks)) blocks)
  <-> (s <= i)%nat /\ nth_error blocks (i - s) = Some b.
Proof.
  induction blocks as [|c blocks IH]; intros s i b; simpl.
  - split; [intros [] | intros [_ H]]. now destruct (i - s)%nat.
  - rewrite IH. split.
    + intros [H|[Hle Hn]].
      * injection H as <- <-. split; [lia|]. now rewrite Nat.sub_diag.
      * split; [lia|]. replace (i - s)%nat with (S (i - S s)) by lia.
        exact Hn.
    + intros [Hle Hn]. destruct (Nat.eq_dec s i) as [<-|Hne].
      * rewrite Nat.sub_diag in Hn. left. simpl in Hn. congruence.
      * right. split; [lia|].
        replace (i - s)%nat with (S (i - S s)) in Hn by lia. exact Hn.
Qed.

Lemma indexed_In (blocks : list MemoryBlock) (i : nat) (b : MemoryBlock) :
  In (i, b) (indexed blocks) <-> nth_error blocks i = Some b.
Proof.
  unfold indexed. rewrite combine_seq_In, Nat.sub_0_r.
  split; [tauto | split; [lia | assumption]].
Qed.
Lemma is_free_true (b : MemoryBlock) : is_free b = true <-> status b = free.
Proof. unfold is_free; destruct (status b); split; congruence. Qed.

Lemma is_allocated_true (b : MemoryBlock) :
  is_allocated b = true <-> status b = allocated.
Proof. unfold is_allocated; destruct (status b); split; congruence. Qed.

Lemma candidates_In (processSize : Z) (blocks : list MemoryBlock) i b :
  In (i, b) (candidates processSize blocks)
  <-> nth_error blocks i = Some b /\ candidate processSize b.
Proof.
  unfold candidates, candidate, fits.
  rewrite !filter_In, indexed_In; simpl.
  rewrite is_free_true, Z.leb_le. tauto.
Qed.

Lemma candidates_nil (processSize : Z) (blocks : list MemoryBlock) :
  (forall c, In c blocks -> status c = free -> size c < processSize) ->
  candidates processSize blocks = [].
Proof.
  intros Hnone. destruct (candidates processSize blocks) as [|[i b] l] eqn:E;
    [reflexivity|].
  assert (Hin : In (i, b) (candidates processSize blocks))
    by (rewrite E; now left).
  apply candidates_In in Hin. destruct Hin as [Hn [Hf Hs]].
  apply nth_error_In in Hn. specialize (Hnone _ Hn Hf). lia.
Qed.

Lemma find_filter (A : Type) (f : A -> bool) (l : list A) :
  find f l = hd_error (filter f l).
Proof.
  induction l as [|x l IH]; simpl; [reflexivity|].
  now destruct (f x).
Qed.

(** The three branches of the switch, over the candidates. *)
Lemma selectBlock_candidates algorithm processSize blocks :
  selectBlock algorithm processSize blocks =
    if String.eqb algorithm "first" then
      hd_error (candidates processSize blocks)
    else if String.eqb algorithm "best" then
      hd_error (sort_by (fun ib => size (snd ib))
                        (candidates processSize blocks))
    else if String.eqb algorithm "worst" then
      hd_error (sort_by (fun ib => - size (snd ib))
                        (candidates processSize blocks))
    else None.
Proof.
  unfold selectBlock, candidates. now rewrite find_filter.
Qed.

Lemma hd_error_In (A : Type) (l : list A) (x : A) :
  hd_error l = Some x -> In x l.
Proof. destruct l; simpl; [discriminate | intros [= ->]; now left]. Qed.

Lemma selectBlock_sound algorithm processSize blocks i b :
  selectBlock algorithm processSize blocks = Some (i, b) ->
  nth_error blocks i = Some b /\ candidate processSize b.
Proof.
  rewrite selectBlock_candidates. intros H.
  apply candidates_In.
  destruct (String.eqb algorithm "first");
    [|destruct (String.eqb algorithm "best");
      [|destruct (String.eqb algorithm "worst"); [|discriminate]]];
    apply hd_error_In in H; try exact H;
    now apply sort_by_In in H.
Qed.

Lemma selectBlock_none algorithm processSize blocks :
  (forall c, In c blocks -> status c = free -> size c < processSize) ->
  selectBlock algorithm processSize blocks = None.
Proof.
  intros H. rewrite selectBlock_candidates, (candidates_nil _ _ H).
  simpl. now repeat destruct (String.eqb algorithm _).
Qed.

(** C6.  When no free block is as large as the request, the
    allocation, under any algorithm, reports insufficient memory and
    leaves the block list as it was. *)
Theorem allocateMemory_fails_atomically
    (processSize : Z) (algorithm : string) (blocks : list MemoryBlock) :
  (forall c, In c blocks -> status c = free -> size c < processSize) ->
  allocateMemory processSize algorithm blocks = (InsufficientMemory, blocks).
Proof.
  intros H. unfold allocateMemory. now rewrite (selectBlock_none _ _ _ H).
Qed.

(** A request of 60 KB against a layout whose free blocks hold 50 and
    40 KB. *)
Lemma allocateMemory_fails_atomically_example :
  let blocks :=
    [mkBlock 1 (Some "OS"%string) 128 0 128 allocated;
     mkBlock 2 None 50 128 178 free;
     mkBlock 3 (Some "P1"%string) 806 178 984 allocated;
     mkBlock 4 None 40 984 1024 free] in
  (forall c, In c blocks -> status c = free -> size c < 60)
  /\ allocateMemory 60 "best" blocks = (InsufficientMemory, blocks).
Proof.
  intros blocks.
  assert (H : forall c, In c blocks -> status c = free -> size c < 60).
  { intros c [<-|[<-|[<-|[<-|[]]]]]; simpl; intros; try discriminate; lia. }
  split; [exact H|].
  exact (allocateMemory_fails_atomically 60 "best" blocks H).
Defined.

(** *** The effect of a successful allocation *)

Lemma allocateMemory_success algorithm processSize blocks i b :
  selectBlock algorithm processSize blocks = Some (i, b) ->
  allocateMemory processSize algorithm blocks =
    (Allocated (placed processSize blocks b),
     sort_by startAddress
       (splice1 i blocks ++
          placed processSize blocks b
            :: remainder processSize
                 (Z.of_nat (List.length
                    (splice1 i blocks ++ [placed processSize blocks b])) + 1)
                 b)).
Proof.
  intros H. unfold allocateMemory. rewrite H. fold (placed processSize blocks b).
  unfold remainder. destruct (processSize <? size b).
  - now rewrite <- app_assoc.
  - reflexivity.
Qed.

Lemma nth_error_splits (blocks : list MemoryBlock) : forall i b,
  nth_error blocks i = Some b ->
  blocks = firstn i blocks ++ b :: skipn (S i) blocks.
Proof.
  induction blocks as [|c blocks IH]; intros [|i] b H; simpl in *;
    try discriminate.
  - congruence.
  - f_equal. now apply IH.
Qed.

Lemma tiles_app (l1 : list MemoryBlock) : forall a l2 z,
  tiles a (l1 ++ l2) z <-> exists m, tiles a l1 m /\ tiles m l2 z.
Proof.
  induction l1 as [|b l1 IH]; intros a l2 z; simpl.
  - split; [intros H; now exists a | intros (m & -> & H); exact H].
  - rewrite IH. split.
    + intros (H1 & H2 & H3 & m & H4 & H5). exists m. tauto.
    + intros (m & (H1 & H2 & H3 & H4) & H5).
      repeat split; auto. now exists m.
Qed.

Lemma tiles_bounds (l : list MemoryBlock) : forall a z,
  tiles a l z ->
  a <= z /\ Forall (fun b => a <= startAddress b /\ endAddress b <= z) l.
Proof.
  induction l as [|b l IH]; intros a z; simpl.
  - intros ->. split; [lia | constructor].
  - intros (H1 & H2 & H3 & H4). destruct (IH _ _ H4) as [Hle Hall].
    split; [lia|]. constructor; [lia|].
    eapply Forall_impl; [|exact Hall]. simpl. intros c; lia.
Qed.

Lemma tiles_strictly_sorted (l : list MemoryBlock) : forall a z,
  tiles a l z -> StronglySorted (lt_key startAddress) l.
Proof.
  induction l as [|b l IH]; intros a z; simpl; [constructor|].
  intros (H1 & H2 & H3 & H4). constructor; [now apply (IH _ _ H4)|].
  destruct (tiles_bounds _ _ _ H4) as [_ Hall].
  eapply Forall_impl; [|exact Hall]. unfold lt_key. simpl. intros c; lia.
Qed.

(** On a tiling, the re-sorted array is the old one with the selected
    block replaced, where it stood, by the new block and the remainder. *)
Lemma allocate_in_place (processSize rid a z : Z) blocks i b (newBlock : MemoryBlock) :
  tiles a blocks z -> 0 < processSize ->
  nth_error blocks i = Some b -> candidate processSize b ->
  startAddress newBlock = startAddress b ->
  size newBlock = processSize ->
  endAddress newBlock = startAddress b + processSize ->
  let replaced :=
    firstn i blocks ++ newBlock :: remainder processSize rid b
      ++ skipn (S i) blocks in
  sort_by startAddress
    (splice1 i blocks ++ newBlock :: remainder processSize rid b) = replaced
  /\ tiles a replaced z.
Proof.
  intros Ht Hpos Hn [Hfree Hfit] Hstart Hsize Hend replaced.
  assert (Htiles : tiles a replaced z).
  { rewrite (nth_error_splits _ _ _ Hn) in Ht.
    apply tiles_app in Ht. destruct Ht as (m & Hpre & Hb & Hsz & He & Hpost).
    apply tiles_app. exists m. split; [exact Hpre|].
    simpl. repeat split; try lia.
    unfold remainder. destruct (processSize <? size b) eqn:Hlt; simpl.
    - apply Z.ltb_lt in Hlt. repeat split; try lia. exact Hpost.
    - apply Z.ltb_ge in Hlt.
      replace (endAddress newBlock) with (endAddress b) by lia.
      exact Hpost. }
  split; [|exact Htiles].
  apply sort_by_unique; [now apply (tiles_strictly_sorted _ _ _ Htiles)|].
  unfold splice1, replaced. rewrite <- app_assoc.
  apply Permutation_app_head.
  change (newBlock :: remainder processSize rid b ++ skipn (S i) blocks)
    with ((newBlock :: remainder processSize rid b) ++ skipn (S i) blocks).
  apply Permutation_app_comm.
Qed.

(** *** The three calls keep a full layout full *)

Lemma placed_not_OS processSize blocks b :
  is_OS (placed processSize blocks b) = false.
Proof. reflexivity. Qed.

Lemma remainder_not_OS processSize rid b :
  Forall (fun c => is_OS c = false) (remainder processSize rid b).
Proof.
  unfold remainder. destruct (processSize <? size b); repeat constructor.
Qed.

Lemma allocateMemory_full processSize algorithm blocks :
  0 < processSize -> full_layout blocks ->
  full_layout (snd (allocateMemory processSize algorithm blocks)).
Proof.
  intros Hpos [Ht Hos].
  destruct (selectBlock algorithm processSize blocks) as [[i b]|] eqn:Hsel.
  2:{ unfold allocateMemory. rewrite Hsel. now split. }
  rewrite (allocateMemory_success _ _ _ _ _ Hsel). simpl.
  destruct (selectBlock_sound _ _ _ _ _ Hsel) as [Hn Hc].
  destruct (allocate_in_place processSize
              (Z.of_nat (List.length
                 (splice1 i blocks ++ [placed processSize blocks b])) + 1)
              0 1024 blocks i b (placed processSize blocks b)
              Ht Hpos Hn Hc eq_refl eq_refl eq_refl) as [-> Ht'].
  split; [exact Ht'|].
  destruct blocks as [|os rest]; [contradiction|].
  destruct Hos as (Hname & Hstat & Hsz & Hrest).
  destruct i as [|i].
  { simpl in Hn. injection Hn as <-. destruct Hc as [Hf _]. congruence. }
  simpl in Hn. simpl. repeat split; auto.
  rewrite (nth_error_splits _ _ _ Hn) in Hrest.
  apply Forall_app in Hrest. destruct Hrest as [Hpre Hpost].
  apply Forall_cons_iff in Hpost. destruct Hpost as [_ Hpost].
  apply Forall_app; split; [exact Hpre|].
  constructor; [apply placed_not_OS|].
  apply Forall_app; split; [apply remainder_not_OS | exact Hpost].
Qed.

Lemma filter_none (A : Type) (f : A -> bool) (l : list A) :
  Forall (fun x => f x = false) l -> filter f l = [].
Proof.
  induction 1 as [|x l Hx _ IH]; simpl; [reflexivity|]. now rewrite Hx.
Qed.

Lemma deallocateMemory_full blocks :
  full_layout blocks -> full_layout (deallocateMemory blocks).
Proof.
  intros [Ht Hos]. destruct blocks as [|os rest]; [contradiction|].
  destruct Hos as (Hname & Hstat & Hsz & Hrest).
  simpl in Ht. destruct Ht as (Hstart & _ & Hend & _).
  unfold deallocateMemory. simpl. rewrite Hname, (filter_none _ _ _ Hrest).
  simpl. repeat split; simpl; auto; try lia.
Qed.

Lemma fold_left_totalSize (l : list MemoryBlock) : forall acc,
  fold_left (fun sum block => sum + size block) l acc = acc + totalSize l.
Proof.
  induction l as [|b l IH]; intros acc; simpl; [lia|]. rewrite IH. lia.
Qed.

Lemma tiles_totalSize (l : list MemoryBlock) : forall a z,
  tiles a l z -> totalSize l = z - a.
Proof.
  induction l as [|b l IH]; intros a z; simpl; [lia|].
  intros (H1 & H2 & H3 & H4). rewrite (IH _ _ H4). lia.
Qed.

Lemma tiles_positive (l : list MemoryBlock) : forall a z,
  tiles a l z -> Forall (fun b => 0 < size b) l.
Proof.
  induction l as [|b l IH]; intros a z; simpl; [constructor|].
  intros (H1 & H2 & H3 & H4). constructor; [exact H2 | now apply (IH _ _ H4)].
Qed.

Lemma totalSize_filter (f : MemoryBlock -> bool) (l : list MemoryBlock) :
  Forall (fun b => 0 <= size b) l ->
  0 <= totalSize (filter f l) <= totalSize l.
Proof.
  induction 1 as [|b l Hb _ IH]; simpl; [lia|].
  destruct (f b); simpl; lia.
Qed.

Lemma StronglySorted_filter (A : Type) (R : A -> A -> Prop)
    (f : A -> bool) (l : list A) :
  StronglySorted R l -> StronglySorted R (filter f l).
Proof.
  induction 1 as [|x l Hs IH Hx]; simpl; [constructor|].
  destruct (f x); [|exact IH]. constructor; [exact IH|].
  rewrite Forall_forall in *. intros y Hy. apply filter_In in Hy.
  now apply Hx.
Qed.

Lemma StronglySorted_lt_le (A : Type) (key : A -> Z) (l : list A) :
  StronglySorted (lt_key key) l -> StronglySorted (le_key key) l.
Proof.
  induction 1 as [|x l Hs IH Hx]; constructor; [exact IH|].
  eapply Forall_impl; [|exact Hx]. unfold lt_key, le_key. intros; lia.
Qed.

(** What the rebuilding loop of the compaction produces. *)
Lemma relocate_spec (blocks : list MemoryBlock) : forall index a,
  let '(moved, a') := relocate index a blocks in
  a' = a + totalSize blocks
  /\ Forall2 (fun m b => processName m = processName b
                         /\ size m = size b /\ status m = status b)
             moved blocks
  /\ (Forall (fun b => 0 < size b) blocks -> tiles a moved a').
Proof.
  induction blocks as [|b blocks IH]; intros index a; simpl.
  - repeat split; [lia | constructor].
  - specialize (IH (S index) (a + size b)).
    destruct (relocate (S index) (a + size b) blocks) as [moved a'].
    destruct IH as (Ha & Hall & Ht).
    split; [lia|]. split; [now constructor|].
    intros Hpos. inversion Hpos; subst. simpl. repeat split; auto.
Qed.

Lemma is_OS_processName (m b : MemoryBlock) :
  processName m = processName b -> is_OS m = is_OS b.
Proof. unfold is_OS. now intros ->. Qed.

Lemma Forall2_not_OS (moved blocks : list MemoryBlock) :
  Forall2 (fun m b => processName m = processName b
                      /\ size m = size b /\ status m = status b)
          moved blocks ->
  Forall (fun b => is_OS b = false) blocks ->
  Forall (fun b => is_OS b = false) moved.
Proof.
  induction 1 as [|m b moved blocks (Hn & _ & _) _ IH];
    intros Hall; [constructor|].
  inversion Hall; subst. constructor; [|now apply IH].
  now rewrite (is_OS_processName _ _ Hn).
Qed.

Lemma full_layout_allocated_sorted blocks :
  full_layout blocks ->
  sort_by startAddress (filter is_allocated blocks)
  = filter is_allocated blocks.
Proof.
  intros [Ht _]. apply sort_by_id, StronglySorted_Sorted.
  apply StronglySorted_lt_le, StronglySorted_filter.
  exact (tiles_strictly_sorted _ _ _ Ht).
Qed.

Lemma compactMemory_full blocks :
  full_layout blocks -> full_layout (compactMemory blocks).
Proof.
  intros Hfull. unfold compactMemory.
  rewrite (full_layout_allocated_sorted _ Hfull), fold_left_totalSize.
  destruct Hfull as [Ht Hos].
  pose proof (tiles_positive _ _ _ Ht) as Hpos.
  assert (Hpos' : Forall (fun b => 0 < size b) (filter is_allocated blocks)).
  { rewrite Forall_forall in *. intros b Hb. apply filter_In in Hb.
    now apply Hpos. }
  assert (Hbound : 0 <= totalSize (filter is_allocated blocks) <= 1024).
  { rewrite <- (Z.sub_0_r 1024), <- (tiles_totalSize _ _ _ Ht).
    apply totalSize_filter. eapply Forall_impl; [|exact Hpos].
    simpl; intros; lia. }
  pose proof (relocate_spec (filter is_allocated blocks) 0 0) as Hrel.
  destruct (relocate 0 0 (filter is_allocated blocks)) as [moved a'].
  destruct Hrel as (Ha & Hall & Htiles). specialize (Htiles Hpos').
  assert (Hos' : os_first moved).
  { destruct blocks as [|os rest]; [contradiction|].
    destruct Hos as (Hname & Hstat & Hsz & Hrest).
    simpl in Hall. apply is_allocated_true in Hstat. rewrite Hstat in Hall.
    inversion Hall as [|m ? moved' ? (Hn & Hs & Hst) Hall']; subst.
    simpl. rewrite (is_OS_processName _ _ Hn), Hst, Hs.
    apply is_allocated_true in Hstat. repeat split; auto.
    apply (Forall2_not_OS _ _ Hall').
    rewrite Forall_forall in *. intros b Hb. apply filter_In in Hb.
    now apply Hrest. }
  destruct (0 <? 1024 - (0 + totalSize (filter is_allocated blocks))) eqn:Hfree.
  - apply Z.ltb_lt in Hfree. split.
    + apply tiles_app. exists a'. split; [exact Htiles|].
      unfold tiles. cbn [startAddress size endAddress].
      repeat split; lia.
    + destruct moved as [|m moved']; [contradiction|].
      destruct Hos' as (H1 & H2 & H3 & H4). simpl. repeat split; auto.
      apply Forall_app; split; [exact H4 | repeat constructor].
  - apply Z.ltb_ge in Hfree. split; [|exact Hos'].
    replace 1024 with a' by lia. exact Htiles.
Qed.

Lemma call_full (c : Call) (blocks : list MemoryBlock) :
  positive_request c -> full_layout blocks -> full_layout (call blocks c).
Proof.
  destruct c as [processSize algorithm| |]; simpl; intros Hpos Hfull.
  - now apply allocateMemory_full.
  - now apply deallocateMemory_full.
  - now apply compactMemory_full.
Qed.

(** Before the first deallocation or compaction the layout is the
    initial one, in which no allocation can succeed. *)
Lemma call_initial (c : Call) :
  call initialBlocks c = initialBlocks /\ is_reset c = false
  \/ full_layout (call initialBlocks c) /\ is_reset c = true.
Proof.
  destruct c as [processSize algorithm| |]; simpl.
  - left. split; [|reflexivity].
    unfold allocateMemory. rewrite selectBlock_none; [reflexivity|].
    intros c [<-|[]]; discriminate.
  - right. split; [|reflexivity].
    unfold full_layout; simpl. repeat split; auto; lia.
  - right. split; [|reflexivity].
    unfold full_layout; simpl. repeat split; auto; lia.
Qed.

Lemma run_full (calls : list Call) : forall blocks,
  Forall positive_request calls -> full_layout blocks ->
  full_layout (run calls blocks).
Proof.
  induction calls as [|c calls IH]; intros blocks Hpos Hfull; simpl; auto.
  inversion Hpos; subst. apply IH; auto. now apply call_full.
Qed.

Lemma run_initial (calls : list Call) :
  Forall positive_request calls ->
  run calls initialBlocks = initialBlocks /\ existsb is_reset calls = false
  \/ full_layout (run calls initialBlocks).
Proof.
  induction calls as [|c calls IH]; intros Hpos; simpl; [now left|].
  inversion Hpos; subst.
  destruct (call_initial c) as [[-> ->]|[Hfull _]].
  - now apply IH.
  - right. now apply run_full.
Qed.

Lemma tiles_well_sized (l : list MemoryBlock) : forall a z,
  tiles a l z -> well_sized l.
Proof.
  induction l as [|b l IH]; intros a z; simpl; [constructor|].
  intros (H1 & H2 & H3 & H4). constructor; [lia | now apply (IH _ _ H4)].
Qed.

Lemma tiles_no_overlap (l : list MemoryBlock) : forall a z,
  tiles a l z -> no_overlap l.
Proof.
  induction l as [|b l IH]; intros a z; simpl; [constructor|].
  intros (H1 & H2 & H3 & H4). constructor; [|now apply (IH _ _ H4)].
  destruct (tiles_bounds _ _ _ H4) as [_ Hall].
  eapply Forall_impl; [|exact Hall]. simpl. intros c; lia.
Qed.

Lemma tiles_sorted_by_address (l : list MemoryBlock) a z :
  tiles a l z -> sorted_by_address l.
Proof.
  intros H. apply StronglySorted_lt_le.
  exact (tiles_strictly_sorted _ _ _ H).
Qed.

(** What the layout keeps.  From the initial layout, after any
    sequence of deallocations, compactions and allocations of a
    positive size, the blocks are pairwise non-overlapping, each has
    [endAddress - startAddress = size], and the list is sorted by
    [startAddress]; once the sequence holds a deallocation or a
    compaction, the sizes add up to 1024. *)
Theorem layout_invariant (calls : list Call) :
  Forall positive_request calls ->
  let blocks := run calls initialBlocks in
  no_overlap blocks /\ well_sized blocks /\ sorted_by_address blocks
  /\ (existsb is_reset calls = true -> totalSize blocks = 1024).
Proof.
  intros Hpos blocks. subst blocks.
  destruct (run_initial calls Hpos) as [[-> Hnone]|[Ht _]].
  - repeat split.
    + repeat constructor.
    + repeat constructor.
    + repeat constructor.
    + rewrite Hnone. discriminate.
  - repeat split.
    + exact (tiles_no_overlap _ _ _ Ht).
    + exact (tiles_well_sized _ _ _ Ht).
    + exact (tiles_sorted_by_address _ _ _ Ht).
    + intros _. rewrite (tiles_totalSize _ _ _ Ht). reflexivity.
Qed.

(** A session that frees, allocates twice and compacts. *)
Lemma layout_invariant_session :
  let calls :=
    [deallocate; allocate 100 "best"; allocate 50 "worst"; compact] in
  Forall positive_request calls
  /\ (let blocks := run calls initialBlocks in
      no_overlap blocks /\ well_sized blocks /\ sorted_by_address blocks
      /\ (existsb is_reset calls = true -> totalSize blocks = 1024)).
Proof.
  intros calls.
  assert (H : Forall positive_request calls)
    by (repeat constructor; simpl; lia).
  split; [exact H | exact (layout_invariant calls H)].
Defined.

(** C2: the code on the page as loaded.  The initial [memoryBlocks]
    holds the kernel's block and nothing else: the sizes add up to 128,
    not to 1024, no block is free, and every allocation, of any size
    and under any algorithm, is refused and leaves the layout as it
    is; so the sizes still add up to 128 after two allocations of 100
    KB.  The free block of 896 KB is there only after
    [deallocateMemory], which is where the sizes add up to 1024. *)
Theorem initial_layout_lacks_free_block :
  totalSize (run [] initialBlocks) = 128
  /\ filter is_free initialBlocks = []
  /\ (forall processSize algorithm,
        allocateMemory processSize algorithm initialBlocks
        = (InsufficientMemory, initialBlocks))
  /\ totalSize (run [allocate 100 "first"; allocate 100 "best"]
                    initialBlocks) = 128
  /\ deallocateMemory initialBlocks
     = initialBlocks ++ [mkBlock 2 None 896 128 1024 free]
  /\ totalSize (run [deallocate] initialBlocks) = 1024.
Proof.
  split; [reflexivity|]. split; [reflexivity|]. split.
  - intros processSize algorithm. unfold allocateMemory.
    rewrite selectBlock_none; [reflexivity|].
    intros c [<-|[]]; discriminate.
  - split; [reflexivity|]. split; reflexivity.
Qed.

(** An allocation of a negative size, which [allocateMemory] does not
    refuse, makes the free remainder overlap the kernel's block. *)
Lemma negative_request_overlaps :
  ~ no_overlap (run [deallocate; allocate (-3) "first"] initialBlocks).
Proof.
  intros H. vm_compute in H.
  inversion H as [|? ? Hall _]; subst.
  inversion Hall as [|? ? [Hle|Hle] _]; now apply Hle.
Qed.

(** *** Compaction *)

Lemma relocate_sorted (blocks : list MemoryBlock) : forall index a,
  Forall (fun b => 0 <= size b) blocks ->
  StronglySorted (le_key startAddress) (fst (relocate index a blocks))
  /\ Forall (fun m => a <= startAddress m) (fst (relocate index a blocks)).
Proof.
  induction blocks as [|b blocks IH]; intros index a Hpos; simpl.
  - split; constructor.
  - inversion Hpos; subst.
    destruct (IH (S index) (a + size b)) as [Hs Hall]; auto.
    destruct (relocate (S index) (a + size b) blocks) as [moved a'].
    simpl in *. split.
    + constructor; [exact Hs|].
      eapply Forall_impl; [|exact Hall]. unfold le_key; simpl.
      intros; lia.
    + constructor; [simpl; lia|].
      eapply Forall_impl; [|exact Hall]. simpl. intros; lia.
Qed.

Lemma relocate_idempotent (blocks : list MemoryBlock) : forall index a,
  relocate index a (fst (relocate index a blocks)) = relocate index a blocks.
Proof.
  induction blocks as [|b blocks IH]; intros index a; simpl; [reflexivity|].
  specialize (IH (S index) (a + size b)).
  destruct (relocate (S index) (a + size b) blocks) as [moved a'].
  simpl in *. now rewrite IH.
Qed.

Lemma Forall2_totalSize (moved blocks : list MemoryBlock) :
  Forall2 (fun m b => processName m = processName b
                      /\ size m = size b /\ status m = status b)
          moved blocks ->
  totalSize moved = totalSize blocks
  /\ (Forall (fun b => is_allocated b = true) blocks ->
      Forall (fun b => is_allocated b = true) moved).
Proof.
  induction 1 as [|m b moved blocks (Hn & Hs & Hst) _ [IH1 IH2]]; simpl.
  - split; [reflexivity | constructor].
  - split; [lia|]. intros Hall. inversion Hall; subst.
    constructor; [|now apply IH2]. unfold is_allocated in *. now rewrite Hst.
Qed.

Lemma filter_all (A : Type) (f : A -> bool) (l : list A) :
  Forall (fun x => f x = true) l -> filter f l = l.
Proof.
  induction 1 as [|x l Hx _ IH]; simpl; [reflexivity|].
  now rewrite Hx, IH.
Qed.

Lemma compactMemory_relocate (blocks : list MemoryBlock) :
  compactMemory blocks =
    let A := sort_by startAddress (filter is_allocated blocks) in
    if 0 <? 1024 - totalSize A then
      fst (relocate 0 0 A) ++
        [mkBlock (Z.of_nat (List.length (fst (relocate 0 0 A))) + 1) None
                 (1024 - totalSize A) (snd (relocate 0 0 A)) 1024 free]
    else fst (relocate 0 0 A).
Proof.
  unfold compactMemory. rewrite fold_left_totalSize, Z.add_0_l.
  now destruct (relocate 0 0 _).
Qed.

(** C7, as the code has it.  On a block list whose allocated blocks
    have no negative size, a second compaction changes nothing: ids,
    owners, sizes, addresses and statuses are those left by the
    first. *)
Theorem compactMemory_idempotent (blocks : list MemoryBlock) :
  Forall (fun b => status b = allocated -> 0 <= size b) blocks ->
  compactMemory (compactMemory blocks) = compactMemory blocks.
Proof.
  intros Hsize.
  rewrite (compactMemory_relocate blocks).
  set (A := sort_by startAddress (filter is_allocated blocks)).
  cbv zeta.
  assert (HA : Forall (fun b => is_allocated b = true) A).
  { apply Forall_forall. intros b Hb. apply sort_by_In in Hb.
    now apply filter_In in Hb. }
  assert (HApos : Forall (fun b => 0 <= size b) A).
  { apply Forall_forall. intros b Hb. apply sort_by_In in Hb.
    apply filter_In in Hb. destruct Hb as [Hb Hal].
    rewrite Forall_forall in Hsize. apply (Hsize _ Hb).
    now apply is_allocated_true. }
  pose proof (relocate_spec A 0 0) as Hspec.
  pose proof (relocate_sorted A 0 0 HApos) as [Hsorted _].
  pose proof (relocate_idempotent A 0 0) as Hidem.
  destruct (relocate 0 0 A) as [moved a'] eqn:Hrel. cbn [fst snd] in *.
  destruct Hspec as (Ha & Hall & _).
  destruct (Forall2_totalSize _ _ Hall) as [Htot Halloc].
  specialize (Halloc HA).
  assert (Hgoal : forall tail,
    Forall (fun b => is_allocated b = false) tail ->
    compactMemory (moved ++ tail) =
      if 0 <? 1024 - totalSize A then
        moved ++ [mkBlock (Z.of_nat (List.length moved) + 1) None
                          (1024 - totalSize A) a' 1024 free]
      else moved).
  { intros tail Htail. rewrite compactMemory_relocate. cbv zeta.
    rewrite filter_app, (filter_all _ _ _ Halloc).
    rewrite (filter_none _ _ _ Htail), app_nil_r.
    rewrite (sort_by_id _ _ (StronglySorted_Sorted Hsorted)).
    rewrite Hidem, Htot. reflexivity. }
  destruct (0 <? 1024 - totalSize A) eqn:Hfree.
  - now rewrite Hgoal by (repeat constructor).
  - rewrite <- (app_nil_r moved) at 1. now rewrite Hgoal by constructor.
Qed.

(** Four calls through the allocator, the first of a negative size,
    reach a layout that a second compaction still changes. *)
Lemma compactMemory_twice_differs :
  let blocks :=
    run [deallocate; allocate (-3) "first"; allocate 10 "first";
         allocate 5 "first"] initialBlocks in
  map size (filter is_allocated blocks) = [128; 10; -3; 5]
  /\ compactMemory (compactMemory blocks) <> compactMemory blocks.
Proof.
  split; [reflexivity|]. vm_compute. discriminate.
Qed.

(** A layout with two free blocks between the allocated ones. *)
Lemma compactMemory_idempotent_example :
  let blocks :=
    [mkBlock 1 (Some "OS"%string) 128 0 128 allocated;
     mkBlock 2 None 100 128 228 free;
     mkBlock 3 (Some "P1"%string) 60 228 288 allocated;
     mkBlock 4 None 736 288 1024 free] in
  Forall (fun b => status b = allocated -> 0 <= size b) blocks
  /\ compactMemory (compactMemory blocks) = compactMemory blocks.
Proof.
  intros blocks.
  assert (H : Forall (fun b => status b = allocated -> 0 <= size b) blocks)
    by (repeat constructor; simpl; lia).
  split; [exact H | exact (compactMemory_idempotent blocks H)].
Defined.

(** *** Best fit *)

Lemma combine_seq_sorted (blocks : list MemoryBlock) : forall s,
  StronglySorted (fun p q : nat * MemoryBlock => (fst p < fst q)%nat)
                 (combine (seq s (List.length blocks)) blocks).
Proof.
  induction blocks as [|b blocks IH]; intros s; simpl; constructor.
  - apply IH.
  - apply Forall_forall. intros [j c] Hin.
    apply combine_seq_In in Hin. simpl. lia.
Qed.

Lemma candidates_sorted processSize blocks :
  StronglySorted (fun p q : nat * MemoryBlock => (fst p < fst q)%nat)
                 (candidates processSize blocks).
Proof.
  unfold candidates. do 2 apply StronglySorted_filter.
  apply combine_seq_sorted.
Qed.

Lemma StronglySorted_after (A : Type) (R : A -> A -> Prop)
    (before : list A) (x : A) (after : list A) :
  StronglySorted R (before ++ x :: after) -> Forall (R x) after.
Proof.
  induction before as [|y before IH]; simpl; intros H;
    inversion H; subst; auto.
Qed.

Lemma StronglySorted_nth (A : Type) (R : A -> A -> Prop) (l : list A) :
  StronglySorted R l ->
  forall i j a b, (i < j)%nat ->
    nth_error l i = Some a -> nth_error l j = Some b -> R a b.
Proof.
  induction 1 as [|x l Hs IH Hx]; intros i j a b Hij Hi Hj.
  - now destruct i.
  - destruct j as [|j]; [lia|]. simpl in Hj. destruct i as [|i].
    + simpl in Hi. injection Hi as <-. rewrite Forall_forall in Hx.
      apply Hx. now apply nth_error_In in Hj.
    + simpl in Hi. apply (IH i j); auto; lia.
Qed.

Lemma splice1_length blocks i (b x : MemoryBlock) :
  nth_error blocks i = Some b ->
  List.length (splice1 i blocks ++ [x]) = List.length blocks.
Proof.
  intros Hn. pose proof (f_equal (@List.length _) (nth_error_splits _ _ _ Hn)) as Hlen.
  unfold splice1. rewrite !length_app in *. simpl in *. lia.
Qed.

(** C5.  On a block list sorted by [startAddress], as every list that
    [allocateMemory] receives is, with sizes and addresses within the
    exact range, and for a request of positive size: whenever some
    free block is large enough, best fit selects a free block large
    enough and of least size; among those of that size it takes the
    one of lowest [startAddress], which is the earliest in the block
    list.  The allocation then succeeds with a new allocated block of
    exactly the requested size at the start of the selected block; the
    list becomes, sorted by [startAddress], the old blocks without the
    selected one, the new block and, if the selected block was
    strictly larger, a free block for the rest of it; on a tiling the
    two stand where the selected block stood.  With free blocks of 50,
    200 and 100 KB and a request of 80, the 100 KB block is selected
    and 20 KB stay free. *)
Theorem bestFit_allocation (processSize : Z) (blocks : list MemoryBlock) :
  0 < processSize -> sorted_by_address blocks ->
  Forall Range.small_block blocks ->
  (exists c, In c blocks /\ candidate processSize c) ->
  exists i selectedBlock blocks',
    let newBlock := placed processSize blocks selectedBlock in
    let spare :=
      remainder processSize (Z.of_nat (List.length blocks) + 1)
                selectedBlock in
    selectBlock "best" processSize blocks = Some (i, selectedBlock)
    /\ nth_error blocks i = Some selectedBlock
    /\ candidate processSize selectedBlock
    /\ (forall j c, nth_error blocks j = Some c -> candidate processSize c ->
          size selectedBlock <= size c
          /\ (size c = size selectedBlock -> (i <= j)%nat))
    /\ (forall c, In c blocks -> candidate processSize c ->
          size c = size selectedBlock ->
          startAddress selectedBlock <= startAddress c)
    /\ allocateMemory processSize "best" blocks = (Allocated newBlock, blocks')
    /\ status newBlock = allocated
    /\ size newBlock = processSize
    /\ startAddress newBlock = startAddress selectedBlock
    /\ endAddress newBlock = startAddress selectedBlock + processSize
    /\ Permutation blocks' (splice1 i blocks ++ newBlock :: spare)
    /\ sorted_by_address blocks'
    /\ (forall a z, tiles a blocks z ->
          blocks' = firstn i blocks ++ newBlock :: spare
                      ++ skipn (S i) blocks)
    /\ (processSize = 80 ->
        map size (filter is_free blocks) = [50; 200; 100] ->
        size selectedBlock = 100
        /\ map size spare = [20] /\ map status spare = [free]).
Proof.
  intros Hpos Hsorted _ (c0 & Hc0 & Hcand0).
  destruct (In_nth_error _ _ Hc0) as [j0 Hj0].
  assert (Hne : candidates processSize blocks <> []).
  { intros E. assert (Hin : In (j0, c0) (candidates processSize blocks))
      by (now apply candidates_In).
    now rewrite E in Hin. }
  destruct (sort_by_head_exists (fun ib => size (snd ib)) _ Hne)
    as [[i b] Hhd].
  assert (Hsel : selectBlock "best" processSize blocks = Some (i, b))
    by (now rewrite selectBlock_candidates).
  destruct (selectBlock_sound _ _ _ _ _ Hsel) as [Hn Hcand].
  destruct (sort_by_head _ _ _ Hhd) as (before & after & Hsplit & Hb & Ha).
  simpl in Hb, Ha.
  assert (Hleast : forall j c,
    nth_error blocks j = Some c -> candidate processSize c ->
    size b <= size c /\ (size c = size b -> (i <= j)%nat)).
  { intros j c Hj Hc.
    assert (Hin : In (j, c) (candidates processSize blocks))
      by (now apply candidates_In).
    rewrite Hsplit in Hin. apply in_app_or in Hin.
    destruct Hin as [Hin|[Hin|Hin]].
    - specialize (Hb _ Hin). simpl in Hb. split; lia.
    - injection Hin as <- <-. split; lia.
    - specialize (Ha _ Hin). simpl in Ha. split; [lia|]. intros _.
      pose proof (candidates_sorted processSize blocks) as Hs.
      rewrite Hsplit in Hs. apply StronglySorted_after in Hs.
      rewrite Forall_forall in Hs. specialize (Hs _ Hin). simpl in Hs. lia. }
  rewrite (allocateMemory_success _ _ _ _ _ Hsel) in *.
  rewrite (splice1_length _ _ _ _ Hn).
  eexists i, b, _. cbv zeta.
  split; [exact Hsel|]. split; [exact Hn|]. split; [exact Hcand|].
  split; [exact Hleast|].
  split.
  { intros c Hc Hcc Hsz. destruct (In_nth_error _ _ Hc) as [j Hj].
    destruct (Hleast j c Hj Hcc) as [_ Hij]. specialize (Hij Hsz).
    destruct (Nat.eq_dec i j) as [<-|Hneq].
    - assert (b = c) as -> by congruence. lia.
    - apply (StronglySorted_nth _ _ _ Hsorted i j); auto. lia. }
  split; [reflexivity|].
  do 4 (split; [reflexivity|]).
  split; [apply sort_by_perm|].
  split; [apply sort_by_strongly_sorted|].
  split.
  { intros a z Ht.
    now destruct (allocate_in_place processSize
                    (Z.of_nat (List.length blocks) + 1) a z blocks i b
                    (placed processSize blocks b)
                    Ht Hpos Hn Hcand eq_refl eq_refl eq_refl) as [-> _]. }
  intros -> Hsizes.
  assert (H100 : size b = 100).
  { destruct Hcand as [Hfree Hfit].
    assert (Hin : In (size b) (map size (filter is_free blocks))).
    { apply in_map, filter_In. split;
        [now apply nth_error_In in Hn | now apply is_free_true]. }
    assert (Hc : In 100 (map size (filter is_free blocks)))
      by (rewrite Hsizes; simpl; auto).
    apply in_map_iff in Hc. destruct Hc as (c & Hc100 & Hc).
    apply filter_In in Hc. destruct Hc as [Hc Hcf].
    destruct (In_nth_error _ _ Hc) as [j Hj].
    destruct (Hleast j c Hj) as [Hle _];
      [split; [now apply is_free_true | lia]|].
    rewrite Hsizes in Hin. simpl in Hin. lia. }
  unfold remainder. rewrite H100. simpl. auto.
Qed.

(** Scenario C: free blocks of 50, 200 and 100 KB, request of 80. *)
Lemma bestFit_allocation_scenario_C :
  let blocks :=
    [mkBlock 1 (Some "OS"%string) 128 0 128 allocated;
     mkBlock 2 None 50 128 178 free;
     mkBlock 3 (Some "P1"%string) 10 178 188 allocated;
     mkBlock 4 None 200 188 388 free;
     mkBlock 5 (Some "P2"%string) 10 388 398 allocated;
     mkBlock 6 None 100 398 498 free;
     mkBlock 7 (Some "P3"%string) 526 498 1024 allocated] in
  0 < 80 /\ sorted_by_address blocks /\ Forall Range.small_block blocks
  /\ (exists c, In c blocks /\ candidate 80 c)
  /\ exists i selectedBlock blocks',
       selectBlock "best" 80 blocks = Some (i, selectedBlock)
       /\ size selectedBlock = 100
       /\ allocateMemory 80 "best" blocks
          = (Allocated (placed 80 blocks selectedBlock), blocks')
       /\ blocks' =
            firstn i blocks
              ++ placed 80 blocks selectedBlock
              :: remainder 80 8 selectedBlock ++ skipn (S i) blocks
       /\ map size (remainder 80 8 selectedBlock) = [20].
Proof.
  intros blocks.
  assert (H : exists c, In c blocks /\ candidate 80 c).
  { exists (mkBlock 4 None 200 188 388 free). split.
    - simpl. auto.
    - split; [reflexivity | simpl; lia]. }
  assert (Hpos : 0 < 80) by lia.
  assert (Hsorted : sorted_by_address blocks)
    by (repeat constructor; unfold le_key; simpl; lia).
  assert (Hsmall : Forall Range.small_block blocks)
    by (repeat constructor; vm_compute; discriminate).
  split; [exact Hpos|]. split; [exact Hsorted|]. split; [exact Hsmall|].
  split; [exact H|].
  destruct (bestFit_allocation 80 blocks Hpos Hsorted Hsmall H)
    as (i & b & blocks' & Hsel & _ & _ & _ & _ & Halloc & _ & _ & _ & _
        & _ & _ & Hplace & Hscen).
  destruct (Hscen eq_refl eq_refl) as (H100 & Hspare & _).
  exists i, b, blocks'. repeat split; auto.
  apply (Hplace 0 1024).
  simpl. repeat split; lia.
Defined.

End MemFacts.

(** ** CPU scheduling *)

Section SchedFacts.
Import Sched SchedSpec.

(** C8.  FCFS on P1 (arrival 0, burst 5), P2 (1, 3), P3 (2, 8),
    whatever their ids and priorities, completes them at 5, 8 and 16
    with waiting times 0, 4 and 6. *)
Theorem scheduleFCFS_scenario_A (i1 i2 i3 pr1 pr2 pr3 : Z) :
  map report
      (scheduleFCFS [addProcess i1 "P1" 0 5 pr1; addProcess i2 "P2" 1 3 pr2;
                     addProcess i3 "P3" 2 8 pr3])
  = [("P1"%string, 5, 0); ("P2"%string, 8, 4); ("P3"%string, 16, 6)].
Proof. reflexivity. Qed.

(** *** Round Robin never idles *)

Lemma rr_pass_idle (quantum currentTime : Z) (queue : list Process) :
  Forall (fun p => 0 < remainingTime p -> currentTime < arrivalTime p) queue ->
  rr_pass quantum currentTime queue = (queue, [], currentTime).
Proof.
  induction 1 as [|p queue Hp _ IH]; simpl; [reflexivity|].
  rewrite IH.
  destruct (0 <? remainingTime p) eqn:Hrem; simpl; [|reflexivity].
  apply Z.ltb_lt in Hrem. specialize (Hp Hrem).
  destruct (arrivalTime p <=? currentTime) eqn:Harr; [|reflexivity].
  apply Z.leb_le in Harr. lia.
Qed.

(** When every unfinished process is still to arrive, a pass changes
    nothing, the clock included, and the loop runs for ever. *)
Lemma rr_while_idle (quantum currentTime : Z) (queue : list Process)
    (scheduled : list Slice) :
  Forall (fun p => 0 < remainingTime p -> currentTime < arrivalTime p) queue ->
  existsb (fun p => 0 <? remainingTime p) queue = true ->
  forall fuel, rr_while fuel quantum currentTime queue scheduled = None.
Proof.
  intros Hidle Hsome fuel. revert scheduled.
  induction fuel as [|fuel IH]; intros scheduled; simpl; rewrite Hsome;
    [reflexivity|].
  rewrite (rr_pass_idle _ _ _ Hidle). apply IH.
Qed.

(** C1: the code at a valid input.  One process that arrives at time 1
    with burst 1, quantum 4: however many passes the loop is given, it
    has not returned. *)
Theorem scheduleRoundRobin_hangs_on_late_arrival :
  forall fuel,
    scheduleRoundRobin fuel [addProcess 1 "P1" 1 1 1] 4 = None.
Proof.
  intros fuel. unfold scheduleRoundRobin. simpl.
  apply rr_while_idle; [|reflexivity].
  constructor; [simpl; lia | constructor].
Qed.

(** The same after a first process has run: P1 (0, 5) completes at 5,
    P2 arrives at 9, and the clock stays at 5. *)
Lemma scheduleRoundRobin_hangs_on_gap :
  forall fuel,
    scheduleRoundRobin fuel [addProcess 1 "P1" 0 5 1;
                             addProcess 2 "P2" 9 3 1] 4 = None.
Proof.
  intros [|[|[|fuel]]]; try reflexivity.
  unfold scheduleRoundRobin. cbn.
  apply rr_while_idle; [|reflexivity].
  constructor; [simpl; lia|]. constructor; [simpl; lia | constructor].
Qed.

(** C4: the code at a valid input.  Round Robin on one fresh process
    (arrival 0, burst 5) with quantum 4 returns two entries; each is a
    copy of the process made before its completion was recorded, and
    carries turnaroundTime 0, below the burst time 5, while the
    process object itself ends with turnaroundTime 5. *)
Theorem scheduleRoundRobin_entries_lack_metrics :
  exists queue scheduled,
    scheduleRoundRobin 2 [addProcess 1 "P1" 0 5 1] 4 = Some (queue, scheduled)
    /\ map (fun s => (sliceStart s, duration s,
                      turnaroundTime (snapshot s), burstTime (snapshot s)))
           scheduled
       = [(0, 4, 0, 5); (4, 1, 0, 5)]
    /\ Forall (fun s => ~ metrics_ok s) scheduled
    /\ map (fun p => (completionTime p, turnaroundTime p, waitingTime p)) queue
       = [(5, 5, 0)].
Proof.
  eexists _, _. split; [reflexivity|]. split; [reflexivity|].
  split; [|reflexivity].
  repeat constructor; unfold metrics_ok; simpl; lia.
Qed.

(** *** Traces of the run-to-completion schedulers *)

Lemma StronglySorted_app (A : Type) (R : A -> A -> Prop) (l1 l2 : list A) :
  StronglySorted R l1 -> StronglySorted R l2 ->
  (forall a b, In a l1 -> In b l2 -> R a b) ->
  StronglySorted R (l1 ++ l2).
Proof.
  induction 1 as [|x l1 Hs IH Hx]; intros H2 Hcross; simpl; [exact H2|].
  constructor.
  - apply IH; auto. intros a b Ha Hb. apply Hcross; [now right | exact Hb].
  - apply Forall_app. split; [exact Hx|].
    apply Forall_forall. intros b Hb. apply Hcross; [now left | exact Hb].
Qed.

Lemma Forall_sort_by (A : Type) (key : A -> Z) (P : A -> Prop) (l : list A) :
  Forall P l -> Forall P (sort_by key l).
Proof.
  rewrite !Forall_forall. intros H x Hx. apply H. now apply sort_by_In in Hx.
Qed.

(** A process that is dispatched no earlier than it arrived gets sound
    metrics. *)
Lemma dispatch_metrics (currentTime : Z) (p : Process) :
  arrivalTime p <= currentTime ->
  metrics_ok (mkSlice (dispatch currentTime p) currentTime
                      (burstTime (dispatch currentTime p))).
Proof. unfold metrics_ok; simpl. lia. Qed.

Lemma fcfs_forEach_spec (processList : list Process) : forall currentTime,
  Forall (fun p => 0 <= burstTime p) processList ->
  StronglySorted precedes (fcfs_forEach currentTime processList)
  /\ Forall (fun s => currentTime <= sliceStart s
                      /\ arrivalTime (snapshot s) <= sliceStart s)
            (fcfs_forEach currentTime processList).
Proof.
  induction processList as [|p rest IH]; intros t Hburst; simpl.
  - split; constructor.
  - inversion Hburst as [|? ? Hp Hrest]; subst.
    set (t' := if t <? arrivalTime p then arrivalTime p else t).
    assert (Ht' : t <= t' /\ arrivalTime p <= t').
    { unfold t'. destruct (t <? arrivalTime p) eqn:E;
        [apply Z.ltb_lt in E | apply Z.ltb_ge in E]; lia. }
    destruct (IH (t' + burstTime p) Hrest) as [Hsorted Hall].
    split; constructor; auto.
    + eapply Forall_impl; [|exact Hall]. unfold precedes; simpl.
      intros s; lia.
    + eapply Forall_impl; [|exact Hall]. simpl. intros s; lia.
Qed.

Lemma fcfs_forEach_metrics (processList : list Process) : forall currentTime,
  Forall metrics_ok (fcfs_forEach currentTime processList).
Proof.
  induction processList as [|p rest IH]; intros t; simpl; constructor.
  - apply dispatch_metrics.
    destruct (t <? arrivalTime p) eqn:E;
      [apply Z.ltb_lt in E | apply Z.ltb_ge in E]; lia.
  - apply IH.
Qed.

(** FCFS returns sound metrics on every input. *)
Lemma scheduleFCFS_metrics (processList : list Process) :
  Forall metrics_ok (scheduleFCFS processList).
Proof. apply fcfs_forEach_metrics. Qed.

Lemma scheduleFCFS_chronological (processList : list Process) :
  Forall (fun p => 0 <= burstTime p) processList ->
  chronological (scheduleFCFS processList).
Proof.
  intros H. unfold scheduleFCFS, chronological.
  destruct (fcfs_forEach_spec (sort_by arrivalTime processList) 0
              (Forall_sort_by _ _ _ _ H)) as [Hs Hall].
  split; [exact Hs|]. eapply Forall_impl; [|exact Hall]. simpl. tauto.
Qed.

(** *** The ready-queue loop of SJF and Priority *)

Section ReadyQueueFacts.
Variable key : Process -> Z.

Lemma enqueue_arrived_spec (pending : list Process) : forall t rq,
  exists moved,
    pending = moved ++ fst (enqueue_arrived t pending rq)
    /\ snd (enqueue_arrived t pending rq) = rq ++ moved
    /\ Forall (fun p => arrivalTime p <= t) moved
    /\ match fst (enqueue_arrived t pending rq) with
       | next :: _ => t < arrivalTime next
       | [] => True
       end.
Proof.
  induction pending as [|p pending IH]; intros t rq; simpl.
  - exists []. simpl. rewrite app_nil_r. repeat split; constructor.
  - destruct (arrivalTime p <=? t) eqn:E.
    + apply Z.leb_le in E.
      destruct (IH t (rq ++ [p])) as (moved & H1 & H2 & H3 & H4).
      exists (p :: moved). simpl. rewrite <- H1, H2, <- app_assoc.
      repeat split; auto.
    + apply Z.leb_gt in E. exists []. simpl. rewrite app_nil_r.
      repeat split; auto.
Qed.

Lemma ready_loop_step fuel t pending rq sched :
  pending ++ rq <> [] ->
  ready_loop key (S fuel) t pending rq sched =
    let '(pending, readyQueue) := enqueue_arrived t pending rq in
    match sort_by key readyQueue with
    | [] =>
        match pending with
        | next :: _ => ready_loop key fuel (arrivalTime next) pending [] sched
        | [] => None
        end
    | process :: readyQueue =>
        let process := dispatch t process in
        ready_loop key fuel (completionTime process) pending readyQueue
          (sched ++ [mkSlice process t (burstTime process)])
    end.
Proof.
  intros Hne. destruct pending, rq; try reflexivity. now elim Hne.
Qed.

Lemma sort_by_nil (A : Type) (k : A -> Z) (l : list A) :
  sort_by k l = [] -> l = [].
Proof.
  intros H. apply length_zero_iff_nil. now rewrite <- (sort_by_length k), H.
Qed.

(** The budget of two passes per process is enough: a pass that only
    moves the clock is followed by one that dispatches. *)
Lemma ready_loop_returns : forall fuel t pending rq sched,
  (2 * (List.length pending + List.length rq) <= fuel)%nat
  \/ ((rq <> []
       \/ exists next rest, pending = next :: rest /\ arrivalTime next <= t)
      /\ (2 * (List.length pending + List.length rq) <= fuel + 1)%nat) ->
  exists trace, ready_loop key fuel t pending rq sched = Some trace.
Proof.
  induction fuel as [|fuel IH]; intros t pending rq sched Hfuel.
  - destruct pending as [|p pending], rq as [|r rq]; simpl in *;
      try (now eexists); exfalso; lia.
  - destruct (pending ++ rq) as [|x l] eqn:Hall.
    { apply app_eq_nil in Hall. destruct Hall as [-> ->]. now eexists. }
    rewrite ready_loop_step by (rewrite Hall; discriminate).
    destruct (enqueue_arrived_spec pending t rq) as (moved & H1 & H2 & H3 & H4).
    destruct (enqueue_arrived t pending rq) as [pending' rq']. simpl in *.
    assert (Hlen : (List.length pending + List.length rq
                    = List.length pending' + List.length rq')%nat).
    { rewrite H1, H2, !length_app. lia. }
    assert (Hpos : (0 < List.length pending + List.length rq)%nat).
    { rewrite <- length_app, Hall. simpl. lia. }
    destruct (sort_by key rq') as [|process rest] eqn:Hsort.
    + apply sort_by_nil in Hsort. rewrite Hsort in H2. symmetry in H2.
      apply app_eq_nil in H2. destruct H2 as [-> ->]. simpl in H1. subst pending'.
      destruct pending as [|next pending]; [simpl in Hpos; lia|].
      apply IH. right. split.
      * right. exists next, pending. split; [reflexivity | lia].
      * destruct Hfuel as [Hfuel|[[Hrq|(n & r & Hn & Harr)] Hfuel]].
        -- simpl in *. lia.
        -- now elim Hrq.
        -- injection Hn as <- <-. lia.
    + apply IH. left.
      assert (Hrest : S (List.length rest) = List.length rq').
      { now rewrite <- (sort_by_length key rq'), Hsort. }
      destruct Hfuel as [Hfuel|[_ Hfuel]]; lia.
Qed.

(** What the loop returns is chronological and carries sound metrics,
    as long as no burst time is negative. *)
Lemma ready_loop_trace : forall fuel t pending rq sched trace,
  Forall (fun p => 0 <= burstTime p) pending ->
  Forall (fun p => 0 <= burstTime p /\ arrivalTime p <= t) rq ->
  StronglySorted precedes sched ->
  Forall (fun s => sliceStart s <= t /\ sliceStart s + duration s <= t
                   /\ arrivalTime (snapshot s) <= sliceStart s
                   /\ metrics_ok s) sched ->
  ready_loop key fuel t pending rq sched = Some trace ->
  chronological trace /\ Forall metrics_ok trace.
Proof.
  induction fuel as [|fuel IH];
    intros t pending rq sched trace Hpend Hrq Hsorted Hsched Hrun.
  - destruct pending, rq; simpl in Hrun; try discriminate.
    injection Hrun as <-. split; [split; [exact Hsorted|]|];
      (eapply Forall_impl; [|exact Hsched]); simpl; tauto.
  - destruct (pending ++ rq) as [|x l] eqn:Hall.
    { apply app_eq_nil in Hall. destruct Hall as [-> ->].
      simpl in Hrun. injection Hrun as <-.
      split; [split; [exact Hsorted|]|];
        (eapply Forall_impl; [|exact Hsched]); simpl; tauto. }
    rewrite ready_loop_step in Hrun by (rewrite Hall; discriminate).
    destruct (enqueue_arrived_spec pending t rq) as (moved & H1 & H2 & H3 & H4).
    destruct (enqueue_arrived t pending rq) as [pending' rq']. simpl in *.
    rewrite H1 in Hpend. apply Forall_app in Hpend.
    destruct Hpend as [Hmoved Hpend'].
    assert (Hrq' : Forall (fun p => 0 <= burstTime p /\ arrivalTime p <= t) rq').
    { rewrite H2. apply Forall_app. split; [exact Hrq|].
      rewrite Forall_forall in *. intros p Hp. split; auto. }
    destruct (sort_by key rq') as [|process rest] eqn:Hsort.
    + destruct pending' as [|next pending'']; [discriminate|].
      apply (IH _ _ _ _ _ Hpend' (Forall_nil _) Hsorted) in Hrun; auto.
      eapply Forall_impl; [|exact Hsched]. simpl.
      intros s (? & ? & ? & ?).
           split; [lia | split; [lia | split; [lia | assumption]]].
    + assert (Hperm : Forall (fun p => 0 <= burstTime p /\ arrivalTime p <= t)
                             (process :: rest)).
      { rewrite <- Hsort. now apply Forall_sort_by. }
      inversion Hperm as [|? ? [Hburst Harr] Hrest]; subst.
      apply (IH _ _ _ _ _ Hpend') in Hrun; auto.
      * eapply Forall_impl; [|exact Hrest]. simpl. intros p; lia.
      * apply StronglySorted_app; auto; [repeat constructor|].
        intros a b Ha [<-|[]]. rewrite Forall_forall in Hsched.
        destruct (Hsched _ Ha) as (? & ? & _). unfold precedes. simpl. lia.
      * apply Forall_app. split.
        -- eapply Forall_impl; [|exact Hsched]. simpl.
           intros s (? & ? & ? & ?).
           split; [lia | split; [lia | split; [lia | assumption]]].
        -- constructor; [|constructor]. simpl.
           split; [lia | split; [lia | split; [lia|]]].
           apply dispatch_metrics. lia.
Qed.

(** SJF and Priority return on every input. *)
Lemma ready_schedule_total (processList : list Process) :
  exists trace, ready_schedule key processList = Some trace.
Proof.
  unfold ready_schedule. apply ready_loop_returns. left.
  rewrite sort_by_length. simpl. lia.
Qed.

(** SJF and Priority return, and what they return is chronological and
    carries sound metrics, when no burst time is negative. *)
Lemma ready_schedule_spec (processList : list Process) :
  Forall (fun p => 0 <= burstTime p) processList ->
  exists trace,
    ready_schedule key processList = Some trace
    /\ chronological trace /\ Forall metrics_ok trace.
Proof.
  intros Hburst. unfold ready_schedule.
  destruct (ready_loop_returns (2 * List.length processList) 0
              (sort_by arrivalTime processList) [] [])
    as [trace Hrun].
  { left. rewrite sort_by_length. simpl. lia. }
  exists trace. split; [exact Hrun|].
  apply (ready_loop_trace _ _ _ _ _ _ (Forall_sort_by _ _ _ _ Hburst)
           (Forall_nil _) (SSorted_nil _) (Forall_nil _) Hrun).
Qed.
End ReadyQueueFacts.

(** On valid inputs within the exact range the three run-to-completion
    schedulers return entries with [waitingTime >= 0] and
    [turnaroundTime >= burstTime]; Round Robin is the one that does
    not (C4). *)
Lemma run_to_completion_metrics (processList : list Process) :
  Forall valid processList -> Range.small (Range.load processList) ->
  Forall metrics_ok (scheduleFCFS processList)
  /\ (exists trace, scheduleSJF processList = Some trace
                    /\ Forall metrics_ok trace)
  /\ (exists trace, schedulePriority processList = Some trace
                    /\ Forall metrics_ok trace).
Proof.
  intros Hvalid _.
  assert (Hburst : Forall (fun p => 0 <= burstTime p) processList).
  { eapply Forall_impl; [|exact Hvalid]. unfold valid. intros p; lia. }
  split; [apply scheduleFCFS_metrics|].
  split.
  - destruct (ready_schedule_spec burstTime _ Hburst) as (tr & H1 & _ & H2).
    now exists tr.
  - destruct (ready_schedule_spec priority _ Hburst) as (tr & H1 & _ & H2).
    now exists tr.
Qed.

(** *** Traces of Round Robin *)

Lemma rr_pass_trace (queue : list Process) : forall quantum t,
  0 <= quantum ->
  t <= snd (rr_pass quantum t queue)
  /\ StronglySorted precedes (snd (fst (rr_pass quantum t queue)))
  /\ Forall (fun s => t <= sliceStart s
                      /\ sliceStart s <= snd (rr_pass quantum t queue)
                      /\ sliceStart s + duration s
                         <= snd (rr_pass quantum t queue)
                      /\ arrivalTime (snapshot s) <= sliceStart s)
            (snd (fst (rr_pass quantum t queue))).
Proof.
  induction queue as [|p queue IH]; intros quantum t Hq; simpl.
  - repeat split; try lia; constructor.
  - destruct ((0 <? remainingTime p) && (arrivalTime p <=? t)) eqn:Hrun.
    + apply andb_prop in Hrun. destruct Hrun as [Hrem Harr].
      apply Z.ltb_lt in Hrem. apply Z.leb_le in Harr.
      specialize (IH quantum (t + Z.min quantum (remainingTime p)) Hq).
      destruct (rr_pass quantum (t + Z.min quantum (remainingTime p)) queue)
        as [[queue' slices] t'].
      simpl in *. destruct IH as (Ht & Hsorted & Hall).
      split; [lia|]. split.
      * constructor; [exact Hsorted|].
        eapply Forall_impl; [|exact Hall]. unfold precedes. simpl.
        intros s; lia.
      * constructor; [simpl; lia|].
        eapply Forall_impl; [|exact Hall]. simpl. intros s; lia.
    + specialize (IH quantum t Hq).
      destruct (rr_pass quantum t queue) as [[queue' slices] t'].
      exact IH.
Qed.

Lemma rr_while_done fuel quantum t queue scheduled :
  existsb (fun p => 0 <? remainingTime p) queue = false ->
  rr_while fuel quantum t queue scheduled = Some (queue, scheduled).
Proof. intros H. destruct fuel; simpl; now rewrite H. Qed.

Lemma rr_while_trace (quantum : Z) : 0 <= quantum ->
  forall fuel t queue scheduled queue' trace,
    StronglySorted precedes scheduled ->
    Forall (fun s => sliceStart s <= t /\ sliceStart s + duration s <= t
                     /\ arrivalTime (snapshot s) <= sliceStart s) scheduled ->
    rr_while fuel quantum t queue scheduled = Some (queue', trace) ->
    chronological trace.
Proof.
  intros Hq. induction fuel as [|fuel IH];
    intros t queue scheduled queue' trace Hsorted Hall Hrun; simpl in Hrun;
    destruct (existsb (fun p => 0 <? remainingTime p) queue);
    try discriminate;
    try (injection Hrun as <- <-; split; [exact Hsorted|];
         eapply Forall_impl; [|exact Hall]; simpl; tauto).
  pose proof (rr_pass_trace queue quantum t Hq) as (Ht & Hs & Hnew).
  destruct (rr_pass quantum t queue) as [[queue1 slices] t1]. simpl in *.
  apply IH in Hrun; auto.
  - apply StronglySorted_app; auto. intros a b Ha Hb.
    rewrite Forall_forall in Hall, Hnew.
    specialize (Hall _ Ha). specialize (Hnew _ Hb).
    unfold precedes. lia.
  - apply Forall_app. split.
    + eapply Forall_impl; [|exact Hall]. simpl. intros s; lia.
    + eapply Forall_impl; [|exact Hnew]. simpl. intros s; lia.
Qed.

(** With a negative quantum a process that runs only gains remaining
    time: the loop returns only if there was nothing to run. *)
Lemma rr_pass_unfinished (quantum : Z) (queue : list Process) : forall t,
  quantum < 0 ->
  existsb (fun p => 0 <? remainingTime p) queue = true ->
  existsb (fun p => 0 <? remainingTime p) (fst (fst (rr_pass quantum t queue)))
  = true.
Proof.
  induction queue as [|p queue IH]; intros t Hq Hsome; simpl in *;
    [discriminate|].
  destruct (0 <? remainingTime p) eqn:Hrem; simpl in *.
  - apply Z.ltb_lt in Hrem. destruct (arrivalTime p <=? t).
    + destruct (rr_pass quantum (t + Z.min quantum (remainingTime p)) queue)
        as [[queue' slices] t'].
      simpl. rewrite Z.min_l by lia.
      replace (remainingTime p - quantum =? 0) with false
        by (symmetry; apply Z.eqb_neq; lia).
      simpl. replace (0 <? remainingTime p - quantum) with true
        by (symmetry; apply Z.ltb_lt; lia).
      reflexivity.
    + destruct (rr_pass quantum t queue) as [[queue' slices] t'].
      simpl. apply Z.ltb_lt in Hrem. now rewrite Hrem.
  - specialize (IH t Hq Hsome).
    destruct (rr_pass quantum t queue) as [[queue' slices] t'].
    simpl in *. now rewrite Hrem.
Qed.

Lemma rr_while_negative_quantum (quantum : Z) : quantum < 0 ->
  forall fuel t queue scheduled,
    existsb (fun p => 0 <? remainingTime p) queue = true ->
    rr_while fuel quantum t queue scheduled = None.
Proof.
  intros Hq. induction fuel as [|fuel IH]; intros t queue scheduled Hsome;
    simpl; rewrite Hsome; [reflexivity|].
  pose proof (rr_pass_unfinished quantum queue t Hq Hsome) as Hnext.
  destruct (rr_pass quantum t queue) as [[queue' slices] t'].
  now apply IH.
Qed.

Lemma scheduleRoundRobin_chronological fuel processList quantum queue trace :
  scheduleRoundRobin fuel processList quantum = Some (queue, trace) ->
  chronological trace.
Proof.
  unfold scheduleRoundRobin. intros Hrun.
  destruct (Z.lt_ge_cases quantum 0) as [Hneg|Hpos].
  - destruct (existsb (fun p => 0 <? remainingTime p)
                (map (fun p => set_remainingTime (burstTime p) p)
                     (sort_by arrivalTime processList))) eqn:Hsome.
    + now rewrite (rr_while_negative_quantum _ Hneg _ _ _ _ Hsome) in Hrun.
    + rewrite (rr_while_done _ _ _ _ _ Hsome) in Hrun.
      injection Hrun as <- <-. split; constructor.
  - exact (rr_while_trace quantum Hpos fuel 0 _ [] queue trace
             (SSorted_nil _) (Forall_nil _) Hrun).
Qed.

(** C10, as the code has it.  On a process list whose arrival and
    burst times are within the exact range: if no burst time is
    negative, FCFS, SJF and Priority return a trace in which every
    slice starts no earlier than the start, and than the end, of each
    slice before it, and no earlier than its process arrives; every
    trace that Round Robin returns, for any quantum, is such a trace
    too. *)
Theorem scheduler_traces_chronological
    (processList : list Process) (quantum : Z) :
  Range.small (Range.load processList) ->
  (Forall (fun p => 0 <= burstTime p) processList ->
   chronological (scheduleFCFS processList)
   /\ (exists trace, scheduleSJF processList = Some trace
                     /\ chronological trace)
   /\ (exists trace, schedulePriority processList = Some trace
                     /\ chronological trace))
  /\ (forall fuel queue trace,
        scheduleRoundRobin fuel processList quantum = Some (queue, trace) ->
        chronological trace).
Proof.
  intros _. split.
  - intros Hburst. split; [now apply scheduleFCFS_chronological|].
    split.
    + destruct (ready_schedule_spec burstTime _ Hburst) as (tr & H1 & H2 & _).
      now exists tr.
    + destruct (ready_schedule_spec priority _ Hburst) as (tr & H1 & H2 & _).
      now exists tr.
  - intros fuel queue trace. apply scheduleRoundRobin_chronological.
Qed.

(** The three processes of scenario A under the four schedulers,
    Round Robin with quantum 4 and five passes. *)
Lemma scheduler_traces_chronological_scenario_A :
  let processList :=
    [addProcess 1 "P1" 0 5 1; addProcess 2 "P2" 1 3 1;
     addProcess 3 "P3" 2 8 1] in
  Range.small (Range.load processList)
  /\ Forall (fun p => 0 <= burstTime p) processList
  /\ chronological (scheduleFCFS processList)
  /\ (exists trace, scheduleSJF processList = Some trace
                    /\ chronological trace)
  /\ (exists trace, schedulePriority processList = Some trace
                    /\ chronological trace)
  /\ (exists queue trace,
        scheduleRoundRobin 5 processList 4 = Some (queue, trace)
        /\ chronological trace).
Proof.
  intros processList.
  assert (Hsmall : Range.small (Range.load processList))
    by (vm_compute; discriminate).
  assert (H : Forall (fun p => 0 <= burstTime p) processList)
    by (repeat constructor; simpl; lia).
  destruct (scheduler_traces_chronological processList 4 Hsmall)
    as [Hrun Hrr].
  destruct (Hrun H) as (Hfcfs & Hsjf & Hprio).
  split; [exact Hsmall|]. split; [exact H|]. split; [exact Hfcfs|].
  split; [exact Hsjf|]. split; [exact Hprio|].
  destruct (scheduleRoundRobin 5 processList 4) as [[queue trace]|] eqn:Hres;
    [|vm_compute in Hres; discriminate Hres].
  exists queue, trace. split; [reflexivity | exact (Hrr 5%nat queue trace Hres)].
Defined.

(** C10 as stated fails on a negative burst time (which [addProcess]
    lets through): FCFS runs A from 0 for 10, B from 10 for -5, and
    then C from 5, before B's slice started. *)
Lemma scheduleFCFS_negative_burst_not_chronological :
  let trace :=
    scheduleFCFS [addProcess 1 "A" 0 10 1; addProcess 2 "B" 1 (-5) 1;
                  addProcess 3 "C" 2 1 1] in
  map (fun s => (sliceStart s, duration s)) trace = [(0, 10); (10, -5); (5, 1)]
  /\ ~ chronological trace.
Proof.
  split; [reflexivity|]. intros [Hsorted _].
  inversion Hsorted as [|? ? Hrest _]; subst.
  inversion Hrest as [|? ? _ Hall]; subst.
  inversion Hall as [|? ? [Hle _] _]; subst. simpl in Hle. lia.
Qed.

(** *** What Round Robin leaves in the process objects *)

Lemma recorded_later (trace trace' : list Slice) (t t' : Z) (p : Process) :
  recorded trace t p -> t <= t' ->
  (forall s, In s trace -> In s trace') ->
  recorded trace' t' p.
Proof.
  unfold recorded. intros (H1 & H2 & H3) Ht Hin.
  split; [exact H1|]. split.
  - intros H. specialize (H2 H). lia.
  - intros H. destruct (H3 H) as (Ha & Hb & Hc & s & Hs & Hd).
    split; [exact Ha|]. split; [exact Hb|]. split; [lia|].
    exists s. split; [now apply Hin | exact Hd].
Qed.

Lemma rr_pass_recorded (quantum : Z) : 1 <= quantum ->
  forall queue scheduled t,
    Forall (recorded scheduled t) queue ->
    let '(queue', slices, t') := rr_pass quantum t queue in
    t <= t' /\ Forall (recorded (scheduled ++ slices) t') queue'.
Proof.
  intros Hq. induction queue as [|p queue IH]; intros scheduled t Hall; simpl.
  - rewrite app_nil_r. split; [lia | constructor].
  - inversion Hall as [|? ? Hp Hrest]; subst.
    destruct ((0 <? remainingTime p) && (arrivalTime p <=? t)) eqn:Hrun.
    + apply andb_prop in Hrun. destruct Hrun as [Hrem Harr].
      apply Z.ltb_lt in Hrem. apply Z.leb_le in Harr.
      set (e := Z.min quantum (remainingTime p)).
      assert (He : 1 <= e <= remainingTime p) by (unfold e; lia).
      set (s0 := mkSlice p t e).
      assert (Hrest' : Forall (recorded (scheduled ++ [s0]) (t + e)) queue).
      { eapply Forall_impl; [|exact Hrest]. intros r Hr.
        apply (recorded_later scheduled _ t); auto; [lia|].
        intros s Hs. apply in_or_app. now left. }
      specialize (IH _ _ Hrest').
      destruct (rr_pass quantum (t + e) queue) as [[queue' slices] t'].
      destruct IH as [Ht IH]. rewrite <- app_assoc in IH. simpl in IH.
      split; [lia|]. constructor; [|exact IH].
      destruct Hp as (Hb & Hstarted & _). simpl.
      destruct (remainingTime p - e =? 0) eqn:Hdone.
      * apply Z.eqb_eq in Hdone. unfold recorded. simpl.
        split; [lia|]. split; [intros _; lia|]. intros _.
        split; [reflexivity|]. split; [reflexivity|].
        split; [split; [|lia]|].
        -- destruct (Z.eq_dec (remainingTime p) (burstTime p)); [lia|].
           assert (remainingTime p < burstTime p) by lia.
           specialize (Hstarted ltac:(assumption)). lia.
        -- exists s0. split; [apply in_or_app; right; now left|].
           simpl. repeat split; lia.
      * apply Z.eqb_neq in Hdone. unfold recorded. simpl.
        split; [lia|]. split; [|intros; lia]. intros _.
        destruct (Z.eq_dec (remainingTime p) (burstTime p)); [lia|].
        assert (remainingTime p < burstTime p) by lia.
        specialize (Hstarted ltac:(assumption)). lia.
    + specialize (IH _ _ Hrest).
      destruct (rr_pass quantum t queue) as [[queue' slices] t'].
      destruct IH as [Ht IH]. split; [exact Ht|]. constructor; [|exact IH].
      apply (recorded_later scheduled _ t); auto.
      intros s Hs. apply in_or_app. now left.
Qed.

Lemma unfinished_none (queue : list Process) :
  existsb (fun p => 0 <? remainingTime p) queue = false ->
  Forall (fun p => remainingTime p <= 0) queue.
Proof.
  induction queue as [|p queue IH]; simpl; intros H; constructor.
  - apply orb_false_elim in H. destruct H as [H _]. now apply Z.ltb_ge in H.
  - apply IH. apply orb_false_elim in H. tauto.
Qed.

Lemma rr_while_recorded (quantum : Z) : 1 <= quantum ->
  forall fuel t queue scheduled queue' trace,
    Forall (recorded scheduled t) queue ->
    rr_while fuel quantum t queue scheduled = Some (queue', trace) ->
    exists t', Forall (fun p => recorded trace t' p /\ remainingTime p = 0)
                      queue'.
Proof.
  intros Hq. induction fuel as [|fuel IH];
    intros t queue scheduled queue' trace Hall Hrun; simpl in Hrun;
    destruct (existsb (fun p => 0 <? remainingTime p) queue) eqn:Hsome;
    try discriminate;
    try (injection Hrun as <- <-; exists t;
         apply unfinished_none in Hsome;
         rewrite Forall_forall in *; intros p Hp;
         specialize (Hall _ Hp); specialize (Hsome _ Hp);
         split; [exact Hall | destruct Hall as [? _]; lia]).
  pose proof (rr_pass_recorded quantum Hq queue scheduled t Hall) as Hpass.
  destruct (rr_pass quantum t queue) as [[queue1 slices] t1].
  destruct Hpass as [_ Hpass]. exact (IH _ _ _ _ _ Hpass Hrun).
Qed.

(** When Round Robin returns on a valid input within the exact range,
    every process object has remainingTime 0 and carries the metrics
    taken at the end of the slice that finished it; they satisfy
    [waitingTime >= 0] and [turnaroundTime >= burstTime]. *)
Lemma scheduleRoundRobin_final_state fuel processList quantum queue trace :
  Forall valid processList -> Range.small (Range.load processList) ->
  1 <= quantum ->
  scheduleRoundRobin fuel processList quantum = Some (queue, trace) ->
  Forall (fun p =>
            remainingTime p = 0
            /\ turnaroundTime p = completionTime p - arrivalTime p
            /\ waitingTime p = turnaroundTime p - burstTime p
            /\ 0 <= waitingTime p /\ burstTime p <= turnaroundTime p
            /\ exists s, In s trace
                         /\ id (snapshot s) = id p /\ name (snapshot s) = name p
                         /\ remainingTime (snapshot s) = duration s
                         /\ completionTime p = sliceStart s + duration s)
         queue.
Proof.
  intros Hvalid _ Hq Hrun. unfold scheduleRoundRobin in Hrun.
  assert (Hinit : Forall (recorded [] 0)
                    (map (fun p => set_remainingTime (burstTime p) p)
                         (sort_by arrivalTime processList))).
  { apply Forall_forall. intros p Hp. apply in_map_iff in Hp.
    destruct Hp as (p0 & <- & Hp0). apply sort_by_In in Hp0.
    rewrite Forall_forall in Hvalid. destruct (Hvalid _ Hp0) as [_ Hb].
    unfold recorded. simpl. repeat split; intros; lia. }
  destruct (rr_while_recorded quantum Hq _ _ _ _ _ _ Hinit Hrun)
    as [t' Hfinal].
  eapply Forall_impl; [|exact Hfinal]. simpl.
  intros p ((_ & _ & Hdone) & H0). destruct (Hdone H0) as (Ha & Hb & Hc & Hs).
  repeat split; auto; lia.
Qed.

(** *** When Round Robin returns *)

Lemma unfinished_total (queue : list Process) :
  Forall (fun p => 0 <= remainingTime p) queue ->
  existsb (fun p => 0 <? remainingTime p) queue = true ->
  0 < remaining_total queue.
Proof.
  induction 1 as [|p queue Hp Hall IH]; simpl; [discriminate|].
  intros H. apply orb_prop in H. destruct H as [H|H].
  - apply Z.ltb_lt in H.
    assert (0 <= remaining_total queue); [|lia].
    clear IH. induction Hall; simpl; lia.
  - specialize (IH H). lia.
Qed.

Lemma rr_pass_progress (quantum : Z) : 1 <= quantum ->
  forall queue t,
    Forall (fun p => arrivalTime p <= t /\ 0 <= remainingTime p) queue ->
    let '(queue', slices, t') := rr_pass quantum t queue in
    t <= t'
    /\ Forall (fun p => arrivalTime p <= t' /\ 0 <= remainingTime p) queue'
    /\ remaining_total queue' <= remaining_total queue
    /\ (existsb (fun p => 0 <? remainingTime p) queue = true ->
        remaining_total queue' < remaining_total queue).
Proof.
  intros Hq. induction queue as [|p queue IH]; intros t Hall; simpl.
  - split; [lia|]. split; [constructor|]. split; [lia | discriminate].
  - inversion Hall as [|? ? [Harr Hrem] Hrest]; subst.
    destruct (0 <? remainingTime p) eqn:Hrun; simpl.
    + apply Z.ltb_lt in Hrun.
      replace (arrivalTime p <=? t) with true
        by (symmetry; apply Z.leb_le; lia).
      set (e := Z.min quantum (remainingTime p)).
      assert (He : 1 <= e <= remainingTime p) by (unfold e; lia).
      assert (Hrest' : Forall (fun r => arrivalTime r <= t + e
                                        /\ 0 <= remainingTime r) queue).
      { eapply Forall_impl; [|exact Hrest]. simpl. intros r; lia. }
      specialize (IH _ Hrest').
      destruct (rr_pass quantum (t + e) queue) as [[queue' slices] t'].
      destruct IH as (Ht & Hall' & Hle & _).
      assert (Hrem' : remainingTime
                (if remainingTime p - e =? 0
                 then complete (t + e) (set_remainingTime (remainingTime p - e) p)
                 else set_remainingTime (remainingTime p - e) p)
              = remainingTime p - e)
        by (now destruct (remainingTime p - e =? 0)).
      assert (Harr' : arrivalTime
                (if remainingTime p - e =? 0
                 then complete (t + e) (set_remainingTime (remainingTime p - e) p)
                 else set_remainingTime (remainingTime p - e) p)
              = arrivalTime p)
        by (now destruct (remainingTime p - e =? 0)).
      simpl. rewrite Hrem'.
      split; [lia|]. split; [constructor; [rewrite Hrem', Harr'; lia | exact Hall']|].
      split; [lia | intros _; lia].
    + apply Z.ltb_ge in Hrun. specialize (IH _ Hrest).
      destruct (rr_pass quantum t queue) as [[queue' slices] t'].
      destruct IH as (Ht & Hall' & Hle & Hlt). simpl.
      split; [exact Ht|]. split; [constructor; [lia | exact Hall']|].
      split; [lia|]. intros H. specialize (Hlt H). lia.
Qed.

Lemma rr_while_returns (quantum : Z) : 1 <= quantum ->
  forall fuel t queue scheduled,
    Forall (fun p => arrivalTime p <= t /\ 0 <= remainingTime p) queue ->
    remaining_total queue <= Z.of_nat fuel ->
    exists result, rr_while fuel quantum t queue scheduled = Some result.
Proof.
  intros Hq. induction fuel as [|fuel IH];
    intros t queue scheduled Hall Hfuel; simpl;
    destruct (existsb (fun p => 0 <? remainingTime p) queue) eqn:Hsome;
    try (now eexists).
  - exfalso. apply unfinished_total in Hsome; [lia|].
    eapply Forall_impl; [|exact Hall]. simpl. tauto.
  - pose proof (rr_pass_progress quantum Hq queue t Hall) as Hpass.
    destruct (rr_pass quantum t queue) as [[queue1 slices] t1].
    destruct Hpass as (_ & Hall1 & _ & Hlt). specialize (Hlt Hsome).
    apply IH; [exact Hall1 | lia].
Qed.

(** When no process arrives after time 0 and the times are within the
    exact range, Round Robin returns within as many passes as the
    processes need units of CPU time. *)
Lemma scheduleRoundRobin_returns_when_all_arrived fuel processList quantum :
  Forall (fun p => arrivalTime p <= 0 /\ 0 <= burstTime p) processList ->
  Range.small (Range.load processList) ->
  1 <= quantum ->
  remaining_total (map (fun p => set_remainingTime (burstTime p) p)
                       (sort_by arrivalTime processList))
    <= Z.of_nat fuel ->
  exists queue trace,
    scheduleRoundRobin fuel processList quantum = Some (queue, trace).
Proof.
  intros Hall _ Hq Hfuel. unfold scheduleRoundRobin.
  assert (Hinit : Forall (fun p => arrivalTime p <= 0 /\ 0 <= remainingTime p)
                    (map (fun p => set_remainingTime (burstTime p) p)
                         (sort_by arrivalTime processList))).
  { apply Forall_forall. intros p Hp. apply in_map_iff in Hp.
    destruct Hp as (p0 & <- & Hp0). apply sort_by_In in Hp0.
    rewrite Forall_forall in Hall. simpl. now apply Hall. }
  destruct (rr_while_returns quantum Hq fuel 0 _ [] Hinit Hfuel)
    as [[queue trace] Hrun].
  now exists queue, trace.
Qed.
End SchedFacts.

(** * Further properties of the schedulers *)

Section StableSortMore.
Context {A : Type} (key : A -> Z).

Lemma insert_by_filter (k : Z) (x : A) (l : list A) :
  filter (fun y => key y =? k) (insert_by key x l)
  = filter (fun y => key y =? k) (x :: l).
Proof.
  induction l as [|y l IH]; simpl; [reflexivity|].
  destruct (key x <=? key y) eqn:Hxy; [reflexivity|].
  apply Z.leb_gt in Hxy. simpl. rewrite IH. simpl.
  destruct (key x =? k) eqn:Hx, (key y =? k) eqn:Hy; try reflexivity.
  apply Z.eqb_eq in Hx, Hy. lia.
Qed.

(** Elements of equal key keep their order. *)
Lemma sort_by_stable (k : Z) (l : list A) :
  filter (fun y => key y =? k) (sort_by key l)
  = filter (fun y => key y =? k) l.
Proof.
  induction l as [|x l IH]; simpl; [reflexivity|].
  rewrite insert_by_filter. simpl. now rewrite IH.
Qed.
End StableSortMore.

Section FCFSFacts.
Import Sched SchedSpec TraceSpec.

Lemma fcfs_forEach_order (processList : list Process) : forall t,
  served_order (fcfs_forEach t processList) = map submitted processList
  /\ Forall ran_to_completion (fcfs_forEach t processList).
Proof.
  induction processList as [|p rest IH]; intros t; simpl.
  - split; [reflexivity | constructor].
  - destruct (IH ((if t <? arrivalTime p then arrivalTime p else t)
                  + burstTime p)) as [Horder Hall].
    unfold served_order in *. simpl. rewrite Horder.
    split; [reflexivity|]. constructor; [|exact Hall].
    unfold ran_to_completion. simpl. repeat split; lia.
Qed.

Lemma filter_map_arrival (a : Z) (l : list Process) :
  filter (fun b => arrival_of b =? a) (map submitted l)
  = map submitted (filter (fun p => arrivalTime p =? a) l).
Proof.
  induction l as [|p l IH]; simpl; [reflexivity|].
  rewrite IH. now destruct (arrivalTime p =? a).
Qed.

Lemma StronglySorted_map (A B : Type) (f : A -> B)
    (R : B -> B -> Prop) (l : list A) :
  StronglySorted (fun x y => R (f x) (f y)) l -> StronglySorted R (map f l).
Proof.
  induction 1 as [|x l Hs IH Hx]; simpl; constructor; auto.
  apply Forall_map. exact Hx.
Qed.

(** FCFS, on arrival and burst times within the exact range, runs every
    submitted process exactly once, in the order of the arrival times,
    processes of equal arrival time in the order of submission; each
    entry lasts the whole burst and carries completion = start + burst,
    turnaround = completion - arrival and waiting = start - arrival. *)
Theorem scheduleFCFS_order (processList : list Process) :
  Range.small (Range.load processList) ->
  let order := served_order (scheduleFCFS processList) in
  Permutation order (map submitted processList)
  /\ StronglySorted (le_key arrival_of) order
  /\ (forall a, filter (fun b => arrival_of b =? a) order
                = filter (fun b => arrival_of b =? a)
                         (map submitted processList))
  /\ Forall ran_to_completion (scheduleFCFS processList).
Proof.
  intros _. unfold scheduleFCFS.
  destruct (fcfs_forEach_order (sort_by arrivalTime processList) 0)
    as [Horder Hall].
  cbv zeta. rewrite Horder. split; [|split; [|split; [|exact Hall]]].
  - apply Permutation_map, sort_by_perm.
  - apply StronglySorted_map.
    exact (sort_by_strongly_sorted arrivalTime processList).
  - intros a. rewrite !filter_map_arrival. f_equal.
    apply (sort_by_stable arrivalTime).
Qed.

Lemma scheduleFCFS_order_scenario_A :
  let processList :=
    [addProcess 1 "P1" 2 5 1; addProcess 2 "P2" 0 3 1;
     addProcess 3 "P3" 2 8 1] in
  Range.small (Range.load processList)
  /\ map (fun b => snd (fst (fst (fst b))))
         (served_order (scheduleFCFS processList))
     = ["P2"%string; "P1"%string; "P3"%string]
  /\ Forall ran_to_completion (scheduleFCFS processList).
Proof.
  intros processList.
  assert (H : Range.small (Range.load processList))
    by (vm_compute; discriminate).
  split; [exact H|]. split; [reflexivity|].
  pose proof (scheduleFCFS_order processList H) as Hthm.
  cbv zeta in Hthm. now destruct Hthm as (_ & _ & _ & Hall).
Defined.
End FCFSFacts.

Section ReadyQueueMore.
Import Sched SchedSpec TraceSpec.
Variable key : Process -> Z.
Hypothesis key_dispatch : forall t p, key (dispatch t p) = key p.

Lemma ready_loop_served : forall fuel t pending rq sched trace,
  Forall ran_to_completion sched ->
  ready_loop key fuel t pending rq sched = Some trace ->
  Permutation (served_order trace)
              (served_order sched ++ map submitted pending ++ map submitted rq)
  /\ Forall ran_to_completion trace.
Proof.
  induction fuel as [|fuel IH]; intros t pending rq sched trace Hsched Hrun.
  - destruct pending, rq; simpl in Hrun; try discriminate.
    injection Hrun as <-. simpl. rewrite app_nil_r. now split.
  - destruct (pending ++ rq) as [|x l] eqn:Hall.
    { apply app_eq_nil in Hall. destruct Hall as [-> ->].
      simpl in Hrun. injection Hrun as <-. simpl. rewrite app_nil_r.
      now split. }
    rewrite ready_loop_step in Hrun by (rewrite Hall; discriminate).
    destruct (enqueue_arrived_spec pending t rq) as (moved & H1 & H2 & _ & _).
    destruct (enqueue_arrived t pending rq) as [pending' rq']. simpl in *.
    destruct (sort_by key rq') as [|process rest] eqn:Hsort.
    + apply sort_by_nil in Hsort. rewrite Hsort in H2. symmetry in H2.
      apply app_eq_nil in H2. destruct H2 as [-> ->]. simpl in H1. subst pending'.
      destruct pending as [|next pending]; [discriminate|].
      exact (IH _ _ _ _ _ Hsched Hrun).
    + assert (Hperm : Permutation (process :: rest) (rq ++ moved)).
      { rewrite <- Hsort, <- H2. apply sort_by_perm. }
      apply IH in Hrun.
      * destruct Hrun as [Hrun Hall']. split; [|exact Hall'].
        rewrite Hrun. unfold served_order. rewrite map_app, <- app_assoc.
        apply Permutation_app_head. simpl.
        rewrite H1, map_app.
        apply (Permutation_map submitted) in Hperm. simpl in Hperm.
        rewrite map_app in Hperm.
        etransitivity; [apply Permutation_middle|].
        etransitivity; [apply Permutation_app_head; exact Hperm|].
        etransitivity; [apply Permutation_app_comm|].
        rewrite <- app_assoc. etransitivity; [apply Permutation_app_comm|].
        now rewrite <- app_assoc.
      * apply Forall_app. split; [exact Hsched|]. repeat constructor; simpl; lia.
Qed.

Lemma ready_schedule_served (processList : list Process) :
  exists trace,
    ready_schedule key processList = Some trace
    /\ Permutation (served_order trace) (map submitted processList)
    /\ Forall ran_to_completion trace.
Proof.
  destruct (ready_schedule_total key processList) as [trace Hrun].
  exists trace. split; [exact Hrun|].
  destruct (ready_loop_served _ _ _ _ _ _ (Forall_nil _) Hrun) as [Hp Hall].
  split; [|exact Hall]. rewrite Hp. simpl. rewrite app_nil_r.
  apply Permutation_map, sort_by_perm.
Qed.


Lemma ForallOrdPairs_app (A : Type) (R : A -> A -> Prop) (l1 l2 : list A) :
  ForallOrdPairs R l1 -> ForallOrdPairs R l2 ->
  (forall a b, In a l1 -> In b l2 -> R a b) ->
  ForallOrdPairs R (l1 ++ l2).
Proof.
  induction 1 as [|x l1 Hx H1 IH]; intros H2 Hcross; simpl; [exact H2|].
  constructor.
  - apply Forall_app. split; [exact Hx|].
    apply Forall_forall. intros b Hb. apply Hcross; [now left | exact Hb].
  - apply IH; auto. intros a b Ha Hb. apply Hcross; [now right | exact Hb].
Qed.

Lemma ForallOrdPairs_sorted (A : Type) (R : A -> A -> Prop) (l : list A) :
  StronglySorted R l -> ForallOrdPairs R l.
Proof. induction 1; constructor; auto. Qed.

Lemma StronglySorted_app_inv (A : Type) (R : A -> A -> Prop) (l1 l2 : list A) :
  StronglySorted R (l1 ++ l2) ->
  StronglySorted R l1 /\ StronglySorted R l2
  /\ (forall a b, In a l1 -> In b l2 -> R a b).
Proof.
  induction l1 as [|x l1 IH]; simpl; intros H.
  - repeat split; [constructor | exact H | intros a b []].
  - inversion H as [|? ? Hs Hx]; subst. destruct (IH Hs) as (H1 & H2 & Hc).
    apply Forall_app in Hx. destruct Hx as [Hx1 Hx2].
    repeat split; [now constructor | exact H2|].
    intros a b [<-|Ha] Hb; [|now apply Hc].
    rewrite Forall_forall in Hx2. now apply Hx2.
Qed.

Lemma StronglySorted_impl_tie (l : list Process) :
  StronglySorted (le_key arrivalTime) l -> StronglySorted (tie key) l.
Proof.
  induction 1 as [|x l Hs IH Hx]; constructor; [exact IH|].
  eapply Forall_impl; [|exact Hx]. unfold tie, le_key. intros; lia.
Qed.

Lemma insert_by_ties (x : Process) (l : list Process) :
  Forall (tie key x) l -> ForallOrdPairs (tie key) l ->
  ForallOrdPairs (tie key) (insert_by key x l).
Proof.
  induction l as [|y l IH]; simpl; intros Hx Hl; [repeat constructor|].
  destruct (key x <=? key y) eqn:Hxy; [now constructor|].
  apply Z.leb_gt in Hxy. inversion Hx; subst. inversion Hl; subst.
  constructor; [|now apply IH].
  apply Forall_forall. intros z Hz.
  apply (Permutation_in _ (insert_by_perm key x l)) in Hz.
  destruct Hz as [<-|Hz].
  - unfold tie. lia.
  - rewrite Forall_forall in *. auto.
Qed.

(** The stable sort keeps ties in the order of arrival. *)
Lemma sort_by_ties (l : list Process) :
  ForallOrdPairs (tie key) l -> ForallOrdPairs (tie key) (sort_by key l).
Proof.
  induction 1 as [|x l Hx Hl IH]; simpl; [constructor|].
  apply insert_by_ties; [|exact IH].
  apply Forall_forall. intros y Hy. apply sort_by_In in Hy.
  rewrite Forall_forall in Hx. now apply Hx.
Qed.

Lemma sorted_head_least (process : Process) (rest l : list Process) :
  sort_by key l = process :: rest ->
  Forall (fun r => key process <= key r) rest.
Proof.
  intros H. pose proof (sort_by_strongly_sorted key l) as Hs.
  rewrite H in Hs. now inversion Hs.
Qed.

Lemma ready_loop_preferred : forall fuel t pending rq sched trace,
  StronglySorted (le_key arrivalTime) pending ->
  ForallOrdPairs (tie key) rq ->
  (forall r p, In r rq -> In p pending -> arrivalTime r <= arrivalTime p) ->
  ForallOrdPairs (preferred key) sched ->
  (forall s f, In s sched -> In f (pending ++ rq) ->
     arrivalTime f <= sliceStart s ->
     key (snapshot s) <= key f
     /\ (key (snapshot s) = key f -> arrivalTime (snapshot s) <= arrivalTime f)) ->
  ready_loop key fuel t pending rq sched = Some trace ->
  ForallOrdPairs (preferred key) trace.
Proof.
  induction fuel as [|fuel IH];
    intros t pending rq sched trace Hpend Hties Hcross Hsched Hfuture Hrun.
  - destruct pending, rq; simpl in Hrun; try discriminate. congruence.
  - destruct (pending ++ rq) as [|x l] eqn:Hall.
    { apply app_eq_nil in Hall. destruct Hall as [-> ->].
      simpl in Hrun. congruence. }
    rewrite ready_loop_step in Hrun by (rewrite Hall; discriminate).
    rewrite <- Hall in Hfuture. clear Hall x l.
    destruct (enqueue_arrived_spec pending t rq) as (moved & H1 & H2 & H3 & H4).
    destruct (enqueue_arrived t pending rq) as [pending' rq']. simpl in *.
    rewrite H1 in Hpend. apply StronglySorted_app_inv in Hpend.
    destruct Hpend as (Hmoved & Hpend' & Hmp).
    assert (Hlate : Forall (fun p => t < arrivalTime p) pending').
    { destruct pending' as [|next pending'']; [constructor|].
      inversion Hpend' as [|? ? _ Hnext]; subst.
      constructor; [exact H4|]. eapply Forall_impl; [|exact Hnext].
      unfold le_key. intros p; lia. }
    assert (Hties' : ForallOrdPairs (tie key) rq').
    { rewrite H2. apply ForallOrdPairs_app; [exact Hties| |].
      - apply ForallOrdPairs_sorted.
        eapply StronglySorted_impl_tie; exact Hmoved.
      - intros a b Ha Hb _. apply Hcross; [exact Ha|].
        rewrite H1. apply in_or_app. now left. }
    assert (Hcross' : forall r p, In r rq' -> In p pending' ->
                                  arrivalTime r <= arrivalTime p).
    { intros r p Hr Hp. rewrite H2 in Hr. apply in_app_or in Hr.
      destruct Hr as [Hr|Hr].
      - apply Hcross; [exact Hr|]. rewrite H1. apply in_or_app. now right.
      - now apply Hmp. }
    assert (Hfuture' : forall s f, In s sched -> In f (pending' ++ rq') ->
       arrivalTime f <= sliceStart s ->
       key (snapshot s) <= key f
       /\ (key (snapshot s) = key f ->
           arrivalTime (snapshot s) <= arrivalTime f)).
    { intros s f Hs Hf. apply Hfuture; [exact Hs|].
      rewrite H1. rewrite H2 in Hf.
      apply in_app_or in Hf. apply in_or_app.
      destruct Hf as [Hf|Hf]; [left; apply in_or_app; now right|].
      apply in_app_or in Hf. destruct Hf as [Hf|Hf]; [now right|].
      left. apply in_or_app. now left. }
    destruct (sort_by key rq') as [|process rest] eqn:Hsort.
    + destruct pending' as [|next pending'']; [discriminate|].
      apply (IH _ _ _ _ _ Hpend' (FOP_nil _)) in Hrun; auto.
      * intros r p [].
      * apply sort_by_nil in Hsort. rewrite Hsort in Hfuture'. exact Hfuture'.
    + pose proof (sorted_head_least _ _ _ Hsort) as Hleast.
      pose proof (sort_by_ties _ Hties') as Hsorted_ties.
      rewrite Hsort in Hsorted_ties.
      inversion Hsorted_ties as [|x0 l0 Hptie Hrest_ties [Hx0 Hl0]].
      assert (Hin : forall r, In r (process :: rest) -> In r rq').
      { intros r Hr. apply (sort_by_In key). now rewrite Hsort. }
      apply (IH _ _ _ _ _ Hpend' Hrest_ties) in Hrun; auto.
      * intros r p Hr Hp. apply Hcross'; [apply Hin; now right | exact Hp].
      * apply ForallOrdPairs_app; [exact Hsched | repeat constructor|].
        intros a b Ha [<-|[]]. unfold preferred. simpl.
        rewrite key_dispatch. apply Hfuture'; [exact Ha|].
        apply in_or_app. right. apply Hin. now left.
      * intros s f Hs Hf Harr. apply in_app_or in Hs.
        destruct Hs as [Hs|[<-|[]]].
        -- apply Hfuture'; auto. apply in_app_or in Hf. apply in_or_app.
           destruct Hf as [Hf|Hf]; [now left | right; apply Hin; now right].
        -- simpl in *. rewrite key_dispatch. apply in_app_or in Hf.
           destruct Hf as [Hf|Hf].
           ++ rewrite Forall_forall in Hlate. specialize (Hlate _ Hf). lia.
           ++ rewrite Forall_forall in Hleast, Hptie.
              split; [now apply Hleast | now apply Hptie].
Qed.
End ReadyQueueMore.

Section ReadyQueueSchedulers.
Import Sched SchedSpec TraceSpec.

(** SJF and Priority, on arrival and burst times within the exact
    range, return and run every submitted process exactly once: the
    processes of the returned entries are the submitted ones in some
    order, and each entry lasts the whole burst and carries completion
    = start + burst, turnaround = completion - arrival and waiting =
    start - arrival. *)
Theorem ready_queue_schedulers_serve_all (processList : list Process) :
  Range.small (Range.load processList) ->
  (exists trace,
     scheduleSJF processList = Some trace
     /\ Permutation (served_order trace) (map submitted processList)
     /\ Forall ran_to_completion trace)
  /\ (exists trace,
        schedulePriority processList = Some trace
        /\ Permutation (served_order trace) (map submitted processList)
        /\ Forall ran_to_completion trace).
Proof.
  intros _.
  split; [apply (ready_schedule_served burstTime)
         | apply (ready_schedule_served priority)].
Qed.

Lemma ready_queue_schedulers_serve_all_scenario_A :
  let processList :=
    [addProcess 1 "P1" 0 5 2; addProcess 2 "P2" 1 3 3;
     addProcess 3 "P3" 2 8 1] in
  Range.small (Range.load processList)
  /\ (exists trace,
        scheduleSJF processList = Some trace
        /\ Permutation (served_order trace) (map submitted processList)
        /\ Forall ran_to_completion trace)
  /\ (exists trace,
        schedulePriority processList = Some trace
        /\ Permutation (served_order trace) (map submitted processList)
        /\ Forall ran_to_completion trace).
Proof.
  intros processList.
  assert (H : Range.small (Range.load processList))
    by (vm_compute; discriminate).
  split; [exact H | exact (ready_queue_schedulers_serve_all processList H)].
Defined.

Lemma ready_schedule_preferred (key : Process -> Z) (processList : list Process) :
  (forall t p, key (dispatch t p) = key p) ->
  exists trace,
    ready_schedule key processList = Some trace
    /\ ForallOrdPairs (preferred key) trace.
Proof.
  intros Hkey. destruct (ready_schedule_total key processList) as [trace Hrun].
  exists trace. split; [exact Hrun|].
  unfold ready_schedule in Hrun.
  apply (ready_loop_preferred key Hkey _ _ _ _ _ _
           (sort_by_strongly_sorted arrivalTime processList)
           (FOP_nil _)) in Hrun; auto.
  - intros r p [].
  - constructor.
  - intros s f [].
Qed.

(** The selection rule of SJF and Priority.  Of two entries of the
    returned trace, if the process of the later one had already arrived
    when the earlier one started, then the earlier one has the smaller
    or equal burst time (for Priority: priority value), and on equal
    values it did not arrive later. *)
Theorem ready_queue_schedulers_pick_least (processList : list Process) :
  (exists trace,
     scheduleSJF processList = Some trace
     /\ ForallOrdPairs (preferred burstTime) trace)
  /\ (exists trace,
        schedulePriority processList = Some trace
        /\ ForallOrdPairs (preferred priority) trace).
Proof.
  split; [apply (ready_schedule_preferred burstTime)
         | apply (ready_schedule_preferred priority)]; reflexivity.
Qed.
End ReadyQueueSchedulers.

Section RoundRobinMore.
Import Sched SchedSpec TraceSpec.

Lemma busy_app (l1 l2 : list Slice) : busy (l1 ++ l2) = busy l1 + busy l2.
Proof. induction l1 as [|s l1 IH]; simpl; [reflexivity|]. unfold busy in *. simpl. lia. Qed.

Lemma gapless_app (l1 l2 : list Slice) : forall t,
  gapless t l1 -> gapless (t + busy l1) l2 -> gapless t (l1 ++ l2).
Proof.
  induction l1 as [|s l1 IH]; simpl; intros t H1 H2.
  - now rewrite Z.add_0_r in H2.
  - destruct H1 as [Hs H1]. split; [exact Hs|]. apply IH; [exact H1|].
    unfold busy in *. simpl in H2. now rewrite Z.add_assoc in H2.
Qed.

Lemma rr_pass_gapless (quantum : Z) (queue : list Process) : forall t,
  let '(queue', slices, t') := rr_pass quantum t queue in
  gapless t slices /\ t' = t + busy slices
  /\ (1 <= quantum ->
      Forall (fun s => 1 <= duration s <= quantum
                       /\ duration s <= remainingTime (snapshot s)) slices).
Proof.
  induction queue as [|p queue IH]; intros t; simpl.
  - unfold busy. simpl. repeat split; [lia | constructor].
  - destruct ((0 <? remainingTime p) && (arrivalTime p <=? t)) eqn:Hrun.
    + apply andb_prop in Hrun. destruct Hrun as [Hrem _].
      apply Z.ltb_lt in Hrem.
      specialize (IH (t + Z.min quantum (remainingTime p))).
      destruct (rr_pass quantum (t + Z.min quantum (remainingTime p)) queue)
        as [[queue' slices] t'].
      destruct IH as (Hg & Ht & Hd). unfold busy in *. simpl.
      repeat split; auto; [lia|].
      intros Hq. constructor; [simpl; lia | now apply Hd].
    + specialize (IH t). now destruct (rr_pass quantum t queue) as [[? ?] ?].
Qed.

Lemma rr_while_gapless (quantum : Z) : forall fuel t queue scheduled queue' trace,
  gapless 0 scheduled -> t = busy scheduled ->
  (1 <= quantum ->
   Forall (fun s => 1 <= duration s <= quantum
                    /\ duration s <= remainingTime (snapshot s)) scheduled) ->
  rr_while fuel quantum t queue scheduled = Some (queue', trace) ->
  gapless 0 trace
  /\ (1 <= quantum ->
      Forall (fun s => 1 <= duration s <= quantum
                       /\ duration s <= remainingTime (snapshot s)) trace).
Proof.
  induction fuel as [|fuel IH];
    intros t queue scheduled queue' trace Hg Ht Hd Hrun; simpl in Hrun;
    destruct (existsb (fun p => 0 <? remainingTime p) queue);
    try discriminate; try (injection Hrun as <- <-; now split).
  pose proof (rr_pass_gapless quantum queue t) as Hpass.
  destruct (rr_pass quantum t queue) as [[queue1 slices] t1].
  destruct Hpass as (Hg1 & Ht1 & Hd1).
  apply IH in Hrun; auto.
  - apply gapless_app; [exact Hg|]. simpl. now rewrite <- Ht.
  - rewrite busy_app. lia.
  - intros Hq. apply Forall_app. split; auto.
Qed.

(** Round Robin never lets the CPU idle.  On times within the exact
    range, the first slice of a returned trace starts at time 0 and
    every other slice starts exactly when the one before it ends; with
    a quantum of at least 1, every slice lasts at least 1, at most the
    quantum and at most what its process still needed. *)
Theorem scheduleRoundRobin_gapless fuel processList quantum queue trace :
  Range.small (Range.load processList) ->
  scheduleRoundRobin fuel processList quantum = Some (queue, trace) ->
  gapless 0 trace
  /\ (1 <= quantum ->
      Forall (fun s => 1 <= duration s <= quantum
                       /\ duration s <= remainingTime (snapshot s)) trace).
Proof.
  unfold scheduleRoundRobin. intros _ Hrun.
  exact (rr_while_gapless quantum fuel 0 _ [] queue trace I eq_refl
           (fun _ => Forall_nil _) Hrun).
Qed.

Lemma scheduleRoundRobin_gapless_scenario_A :
  let processList :=
    [addProcess 1 "P1" 0 5 1; addProcess 2 "P2" 1 3 1;
     addProcess 3 "P3" 2 8 1] in
  Range.small (Range.load processList)
  /\ exists queue trace,
       scheduleRoundRobin 5 processList 4 = Some (queue, trace)
       /\ gapless 0 trace
       /\ (1 <= 4 ->
           Forall (fun s => 1 <= duration s <= 4
                            /\ duration s <= remainingTime (snapshot s))
                  trace).
Proof.
  intros processList.
  assert (Hsmall : Range.small (Range.load processList))
    by (vm_compute; discriminate).
  split; [exact Hsmall|].
  destruct (scheduleRoundRobin 5 processList 4) as [[queue trace]|] eqn:Hres;
    [|vm_compute in Hres; discriminate Hres].
  exists queue, trace. split; [reflexivity|].
  exact (scheduleRoundRobin_gapless 5%nat processList 4 queue trace
           Hsmall Hres).
Defined.

(** Whenever some process has work to do and none of those has arrived
    at time 0, Round Robin never returns: its clock only moves when a
    process runs. *)
Theorem scheduleRoundRobin_hangs_when_none_arrived
    (processList : list Process) (quantum : Z) :
  Exists (fun p => 0 < burstTime p) processList ->
  Forall (fun p => 0 < burstTime p -> 0 < arrivalTime p) processList ->
  forall fuel, scheduleRoundRobin fuel processList quantum = None.
Proof.
  intros Hsome Hlate fuel. unfold scheduleRoundRobin.
  apply rr_while_idle.
  - apply Forall_forall. intros p Hp. apply in_map_iff in Hp.
    destruct Hp as (p0 & <- & Hp0). apply sort_by_In in Hp0.
    rewrite Forall_forall in Hlate. simpl. now apply Hlate.
  - apply existsb_exists. apply Exists_exists in Hsome.
    destruct Hsome as (p & Hp & Hb).
    exists (set_remainingTime (burstTime p) p). split.
    + apply (in_map (fun p => set_remainingTime (burstTime p) p)).
      now apply sort_by_In.
    + simpl. now apply Z.ltb_lt.
Qed.

Lemma scheduleRoundRobin_hangs_when_none_arrived_example :
  let processList := [addProcess 1 "P1" 3 5 1; addProcess 2 "P2" 2 4 1] in
  Exists (fun p => 0 < burstTime p) processList
  /\ Forall (fun p => 0 < burstTime p -> 0 < arrivalTime p) processList
  /\ forall fuel, scheduleRoundRobin fuel processList 4 = None.
Proof.
  intros processList.
  assert (H1 : Exists (fun p => 0 < burstTime p) processList)
    by (constructor; simpl; lia).
  assert (H2 : Forall (fun p => 0 < burstTime p -> 0 < arrivalTime p) processList)
    by (repeat constructor; simpl; lia).
  split; [exact H1|]. split; [exact H2|].
  exact (scheduleRoundRobin_hangs_when_none_arrived processList 4 H1 H2).
Defined.

(** *** The CPU time each process receives *)

Lemma served_app (i : Z) (l1 l2 : list Slice) :
  served i (l1 ++ l2) = served i l1 + served i l2.
Proof. unfold served. now rewrite filter_app, busy_app. Qed.

Lemma served_absent (i : Z) (ids : list Z) (l : list Slice) :
  Forall (fun s => In (id (snapshot s)) ids) l -> ~ In i ids ->
  served i l = 0.
Proof.
  intros Hall Hi. unfold served.
  rewrite (filter_none _ _ l); [reflexivity|].
  eapply Forall_impl; [|exact Hall]. simpl. intros s Hs.
  apply Z.eqb_neq. intros Heq. apply Hi. now rewrite <- Heq.
Qed.

Lemma Forall2_impl_In (A B : Type) (R R' : A -> B -> Prop) (l : list A) (l' : list B) :
  Forall2 R l l' -> (forall a b, In a l -> R a b -> R' a b) ->
  Forall2 R' l l'.
Proof.
  induction 1 as [|a b l l' Hab _ IH]; intros Himp; constructor.
  - apply Himp; [now left | exact Hab].
  - apply IH. intros x y Hx. apply Himp. now right.
Qed.

Lemma rr_pass_served (quantum : Z) (queue : list Process) : forall t,
  NoDup (map id queue) ->
  let '(queue', slices, t') := rr_pass quantum t queue in
  Forall2 (fun p p' => id p' = id p /\ burstTime p' = burstTime p
                       /\ remainingTime p'
                          = remainingTime p - served (id p) slices)
          queue queue'
  /\ Forall (fun s => In (id (snapshot s)) (map id queue)) slices.
Proof.
  induction queue as [|p queue IH]; intros t Hnodup; simpl.
  - split; constructor.
  - inversion Hnodup as [|? ? Hfresh Hrest]; subst.
    destruct ((0 <? remainingTime p) && (arrivalTime p <=? t)).
    + specialize (IH (t + Z.min quantum (remainingTime p)) Hrest).
      destruct (rr_pass quantum (t + Z.min quantum (remainingTime p)) queue)
        as [[queue' slices] t'].
      destruct IH as [Hall Hids]. split.
      * constructor.
        -- assert (H0 : served (id p) slices = 0)
             by (now apply (served_absent _ (map id queue))).
           unfold served in *. simpl. rewrite Z.eqb_refl. unfold busy in *.
           simpl. rewrite H0.
           destruct (remainingTime p - Z.min quantum (remainingTime p) =? 0);
             simpl; repeat split; lia.
        -- apply (Forall2_impl_In _ _ _ _ _ _ Hall).
           intros a b Ha (H1 & H2 & H3). repeat split; auto.
           rewrite H3. unfold served. simpl.
           replace (id p =? id a) with false; [reflexivity|].
           symmetry. apply Z.eqb_neq. intros Heq. apply Hfresh.
           rewrite Heq. now apply in_map.
      * constructor; [now left|].
        eapply Forall_impl; [|exact Hids]. simpl. auto.
    + specialize (IH t Hrest).
      destruct (rr_pass quantum t queue) as [[queue' slices] t'].
      destruct IH as [Hall Hids]. split.
      * constructor; [|exact Hall].
        rewrite (served_absent _ (map id queue)); auto.
        repeat split; lia.
      * eapply Forall_impl; [|exact Hids]. simpl. auto.
Qed.

Lemma rr_while_served (quantum : Z) : forall fuel t queue scheduled queue' trace,
  NoDup (map id queue) ->
  Forall (fun p => remainingTime p = burstTime p - served (id p) scheduled)
         queue ->
  rr_while fuel quantum t queue scheduled = Some (queue', trace) ->
  map (fun p => (id p, burstTime p)) queue'
  = map (fun p => (id p, burstTime p)) queue
  /\ Forall (fun p => remainingTime p = burstTime p - served (id p) trace)
            queue'.
Proof.
  induction fuel as [|fuel IH];
    intros t queue scheduled queue' trace Hnodup Hinv Hrun; simpl in Hrun;
    destruct (existsb (fun p => 0 <? remainingTime p) queue);
    try discriminate; try (injection Hrun as <- <-; now split).
  pose proof (rr_pass_served quantum queue t Hnodup) as Hpass.
  destruct (rr_pass quantum t queue) as [[queue1 slices] t1].
  destruct Hpass as [Hall _].
  assert (Hsame : map (fun p => (id p, burstTime p)) queue1
                  = map (fun p => (id p, burstTime p)) queue).
  { clear -Hall. induction Hall as [|p p' l l' (H1 & H2 & _) _ IH]; simpl;
      [reflexivity|]. now rewrite IH, H1, H2. }
  assert (Hinv1 : Forall (fun p => remainingTime p
                                   = burstTime p
                                     - served (id p) (scheduled ++ slices))
                         queue1).
  { clear -Hall Hinv. induction Hall as [|p p' l l' (H1 & H2 & H3) _ IH];
      [constructor|].
    inversion Hinv; subst. constructor; [|now apply IH].
    rewrite served_app, H1, H2, H3. lia. }
  assert (Hnodup1 : NoDup (map id queue1)).
  { replace (map id queue1) with (map id queue); [exact Hnodup|].
    apply (f_equal (map fst)) in Hsame. rewrite !map_map in Hsame.
    simpl in Hsame. now symmetry. }
  destruct (IH _ _ _ _ _ Hnodup1 Hinv1 Hrun) as [Hmap Hfinal].
  split; [now rewrite Hmap | exact Hfinal].
Qed.

(** When Round Robin returns on a valid input within the exact range
    whose processes have distinct ids, the durations of the slices of
    each process add up to its burst time. *)
Theorem scheduleRoundRobin_serves_burst fuel processList quantum queue trace :
  Forall valid processList -> Range.small (Range.load processList) ->
  1 <= quantum ->
  NoDup (map id processList) ->
  scheduleRoundRobin fuel processList quantum = Some (queue, trace) ->
  Forall (fun p => served (id p) trace = burstTime p) processList.
Proof.
  intros Hvalid _ Hq Hnodup Hrun. unfold scheduleRoundRobin in Hrun.
  set (queue0 := map (fun p => set_remainingTime (burstTime p) p)
                     (sort_by arrivalTime processList)) in *.
  assert (Hids : map (fun p => (id p, burstTime p)) queue0
                 = map (fun p => (id p, burstTime p))
                       (sort_by arrivalTime processList)).
  { unfold queue0. rewrite map_map. reflexivity. }
  assert (Hnodup0 : NoDup (map id queue0)).
  { replace (map id queue0) with (map id (sort_by arrivalTime processList))
      by (unfold queue0; now rewrite map_map).
    apply (Permutation_NoDup (l := map id processList)); [|exact Hnodup].
    apply Permutation_map. symmetry. apply sort_by_perm. }
  assert (Hinv0 : Forall (fun p => remainingTime p
                                   = burstTime p - served (id p) []) queue0).
  { apply Forall_forall. intros p Hp. apply in_map_iff in Hp.
    destruct Hp as (p0 & <- & _). unfold served, busy. simpl. lia. }
  assert (Hrec0 : Forall (recorded [] 0) queue0).
  { apply Forall_forall. intros p Hp. apply in_map_iff in Hp.
    destruct Hp as (p0 & <- & Hp0). apply sort_by_In in Hp0.
    rewrite Forall_forall in Hvalid. destruct (Hvalid _ Hp0) as [_ Hb].
    unfold recorded. simpl. repeat split; intros; lia. }
  destruct (rr_while_served quantum _ _ _ _ _ _ Hnodup0 Hinv0 Hrun)
    as [Hmap Hfinal].
  destruct (rr_while_recorded quantum Hq _ _ _ _ _ _ Hrec0 Hrun) as [t' Hdone].
  apply Forall_forall. intros p Hp.
  assert (Hin : In (id p, burstTime p)
                   (map (fun p => (id p, burstTime p)) queue)).
  { rewrite Hmap, Hids. apply (in_map (fun p => (id p, burstTime p))).
    now apply sort_by_In. }
  apply in_map_iff in Hin. destruct Hin as (p' & Heq & Hp').
  injection Heq as Hid Hburst.
  rewrite Forall_forall in Hfinal, Hdone.
  specialize (Hfinal _ Hp'). destruct (Hdone _ Hp') as [_ H0].
  rewrite <- Hid, <- Hburst. lia.
Qed.

Lemma scheduleRoundRobin_serves_burst_scenario_A :
  let processList :=
    [addProcess 1 "P1" 0 5 1; addProcess 2 "P2" 1 3 1;
     addProcess 3 "P3" 2 8 1] in
  Forall valid processList /\ Range.small (Range.load processList)
  /\ 1 <= 4 /\ NoDup (map id processList)
  /\ exists queue trace,
       scheduleRoundRobin 5 processList 4 = Some (queue, trace)
       /\ Forall (fun p => served (id p) trace = burstTime p) processList.
Proof.
  intros processList.
  assert (H1 : Forall valid processList)
    by (repeat constructor; simpl; lia).
  assert (Hsmall : Range.small (Range.load processList))
    by (vm_compute; discriminate).
  assert (H2 : 1 <= 4) by lia.
  assert (H3 : NoDup (map id processList)).
  { simpl. repeat constructor; simpl; intros H; repeat destruct H as [H|H];
      try discriminate H; exact H. }
  split; [exact H1|]. split; [exact Hsmall|].
  split; [exact H2|]. split; [exact H3|].
  destruct (scheduleRoundRobin 5 processList 4) as [[queue trace]|] eqn:Hres;
    [|vm_compute in Hres; discriminate Hres].
  exists queue, trace. split; [reflexivity|].
  exact (scheduleRoundRobin_serves_burst 5%nat processList 4 queue trace
           H1 Hsmall H2 H3 Hres).
Defined.
End RoundRobinMore.

Section SchedulerExamples.
Import Sched SchedSpec TraceSpec.

(** The three processes of scenario A are valid. *)
Lemma run_to_completion_metrics_scenario_A :
  let processList :=
    [addProcess 1 "P1" 0 5 1; addProcess 2 "P2" 1 3 1;
     addProcess 3 "P3" 2 8 1] in
  Forall valid processList /\ Range.small (Range.load processList)
  /\ Forall metrics_ok (scheduleFCFS processList)
  /\ (exists trace, scheduleSJF processList = Some trace
                    /\ Forall metrics_ok trace)
  /\ (exists trace, schedulePriority processList = Some trace
                    /\ Forall metrics_ok trace).
Proof.
  intros processList.
  assert (H : Forall valid processList)
    by (repeat constructor; simpl; lia).
  assert (Hsmall : Range.small (Range.load processList))
    by (vm_compute; discriminate).
  split; [exact H|]. split; [exact Hsmall|].
  exact (run_to_completion_metrics processList H Hsmall).
Defined.

Lemma scheduleRoundRobin_final_state_scenario_A :
  let processList :=
    [addProcess 1 "P1" 0 5 1; addProcess 2 "P2" 1 3 1;
     addProcess 3 "P3" 2 8 1] in
  Forall valid processList /\ Range.small (Range.load processList)
  /\ 1 <= 4
  /\ exists queue trace,
       scheduleRoundRobin 5 processList 4 = Some (queue, trace)
       /\ Forall (fun p => remainingTime p = 0
                           /\ 0 <= waitingTime p
                           /\ burstTime p <= turnaroundTime p) queue.
Proof.
  intros processList.
  assert (H1 : Forall valid processList)
    by (repeat constructor; simpl; lia).
  assert (Hsmall : Range.small (Range.load processList))
    by (vm_compute; discriminate).
  assert (H2 : 1 <= 4) by lia.
  split; [exact H1|]. split; [exact Hsmall|]. split; [exact H2|].
  destruct (scheduleRoundRobin 5 processList 4) as [[queue trace]|] eqn:Hres;
    [|vm_compute in Hres; discriminate Hres].
  exists queue, trace. split; [reflexivity|].
  pose proof (scheduleRoundRobin_final_state 5%nat processList 4 queue trace
                H1 Hsmall H2 Hres) as Hfinal.
  eapply Forall_impl; [|exact Hfinal]. simpl. tauto.
Defined.

Lemma scheduleRoundRobin_returns_when_all_arrived_example :
  let processList :=
    [addProcess 1 "P1" 0 5 1; addProcess 2 "P2" 0 3 1] in
  Forall (fun p => arrivalTime p <= 0 /\ 0 <= burstTime p) processList
  /\ Range.small (Range.load processList)
  /\ 1 <= 4
  /\ exists queue trace,
       scheduleRoundRobin 8 processList 4 = Some (queue, trace).
Proof.
  intros processList.
  assert (H1 : Forall (fun p => arrivalTime p <= 0 /\ 0 <= burstTime p)
                      processList)
    by (repeat constructor; simpl; lia).
  assert (Hsmall : Range.small (Range.load processList))
    by (vm_compute; discriminate).
  assert (H2 : 1 <= 4) by lia.
  split; [exact H1|]. split; [exact Hsmall|]. split; [exact H2|].
  apply (scheduleRoundRobin_returns_when_all_arrived 8%nat processList 4
           H1 Hsmall H2).
  vm_compute. discriminate.
Defined.
End SchedulerExamples.

(** * Further properties of the memory manager *)

Section FitFacts.
Import Mem MemSpec.

(** What a successful selection leads to, whatever the algorithm. *)
Lemma allocation_outcome algorithm processSize blocks i b :
  selectBlock algorithm processSize blocks = Some (i, b) ->
  let newBlock := placed processSize blocks b in
  let spare := remainder processSize (Z.of_nat (List.length blocks) + 1) b in
  exists blocks',
    allocateMemory processSize algorithm blocks = (Allocated newBlock, blocks')
    /\ Permutation blocks' (splice1 i blocks ++ newBlock :: spare)
    /\ sorted_by_address blocks'
    /\ (forall a z, tiles a blocks z -> 0 < processSize ->
          blocks' = firstn i blocks ++ newBlock :: spare ++ skipn (S i) blocks).
Proof.
  intros Hsel. destruct (selectBlock_sound _ _ _ _ _ Hsel) as [Hn Hcand].
  cbv zeta. rewrite (allocateMemory_success _ _ _ _ _ Hsel).
  rewrite (splice1_length _ _ _ _ Hn).
  eexists. split; [reflexivity|].
  split; [apply sort_by_perm|]. split; [apply sort_by_strongly_sorted|].
  intros a z Ht Hpos.
  now destruct (allocate_in_place processSize
                  (Z.of_nat (List.length blocks) + 1) a z blocks i b
                  (placed processSize blocks b)
                  Ht Hpos Hn Hcand eq_refl eq_refl eq_refl) as [-> _].
Qed.

Lemma candidates_exist processSize blocks c :
  In c blocks -> candidate processSize c ->
  candidates processSize blocks <> [].
Proof.
  intros Hc Hcand E. destruct (In_nth_error _ _ Hc) as [j Hj].
  assert (Hin : In (j, c) (candidates processSize blocks))
    by (now apply candidates_In).
  now rewrite E in Hin.
Qed.

Lemma sorted_by_address_nth blocks i j b c :
  sorted_by_address blocks -> (i <= j)%nat ->
  nth_error blocks i = Some b -> nth_error blocks j = Some c ->
  startAddress b <= startAddress c.
Proof.
  intros Hs Hij Hi Hj. destruct (Nat.eq_dec i j) as [<-|Hne].
  - assert (b = c) as -> by congruence. lia.
  - apply (StronglySorted_nth _ _ _ Hs i j); auto. lia.
Qed.

(** First fit, on sizes and addresses within the exact range.
    Whenever some free block is large enough, first fit selects the
    free block large enough that comes first in the block list, the
    one of lowest [startAddress] when the list is sorted by
    [startAddress]; the allocation succeeds, and the list becomes,
    sorted by [startAddress], the old blocks without the selected one,
    the new block and the free remainder if any. *)
Theorem firstFit_allocation (processSize : Z) (blocks : list MemoryBlock) :
  Forall Range.small_block blocks -> Range.small processSize ->
  (exists c, In c blocks /\ candidate processSize c) ->
  exists i selectedBlock blocks',
    selectBlock "first" processSize blocks = Some (i, selectedBlock)
    /\ nth_error blocks i = Some selectedBlock
    /\ candidate processSize selectedBlock
    /\ (forall j c, nth_error blocks j = Some c -> candidate processSize c ->
          (i <= j)%nat)
    /\ (sorted_by_address blocks ->
        forall c, In c blocks -> candidate processSize c ->
          startAddress selectedBlock <= startAddress c)
    /\ allocateMemory processSize "first" blocks
       = (Allocated (placed processSize blocks selectedBlock), blocks')
    /\ Permutation blocks'
         (splice1 i blocks ++ placed processSize blocks selectedBlock
            :: remainder processSize (Z.of_nat (List.length blocks) + 1)
                 selectedBlock)
    /\ sorted_by_address blocks'.
Proof.
  intros _ _ (c0 & Hc0 & Hcand0).
  pose proof (candidates_exist _ _ _ Hc0 Hcand0) as Hne.
  destruct (candidates processSize blocks) as [|[i b] rest] eqn:Hcs;
    [now elim Hne|].
  assert (Hsel : selectBlock "first" processSize blocks = Some (i, b))
    by (rewrite selectBlock_candidates, Hcs; reflexivity).
  destruct (selectBlock_sound _ _ _ _ _ Hsel) as [Hn Hcand].
  assert (Hfirst : forall j c, nth_error blocks j = Some c ->
                               candidate processSize c -> (i <= j)%nat).
  { intros j c Hj Hc.
    assert (Hin : In (j, c) (candidates processSize blocks))
      by (now apply candidates_In).
    pose proof (candidates_sorted processSize blocks) as Hs.
    rewrite Hcs in Hin, Hs. destruct Hin as [Hin|Hin].
    - injection Hin as <- _. lia.
    - inversion Hs as [|? ? _ Hall]; subst. rewrite Forall_forall in Hall.
      specialize (Hall _ Hin). simpl in Hall. lia. }
  destruct (allocation_outcome _ _ _ _ _ Hsel) as (blocks' & Ha & Hp & Hs & _).
  exists i, b, blocks'.
  split; [exact Hsel|]. split; [exact Hn|]. split; [exact Hcand|].
  split; [exact Hfirst|]. split; [|split; [exact Ha|split; [exact Hp|exact Hs]]].
  intros Hsorted c Hc Hcc. destruct (In_nth_error _ _ Hc) as [j Hj].
  exact (sorted_by_address_nth _ _ _ _ _ Hsorted (Hfirst j c Hj Hcc) Hn Hj).
Qed.

(** Worst fit, on sizes and addresses within the exact range.
    Whenever some free block is large enough, worst fit selects a free
    block of the largest size, among those of that size the one that
    comes first in the block list; the allocation succeeds as for the
    other algorithms. *)
Theorem worstFit_allocation (processSize : Z) (blocks : list MemoryBlock) :
  Forall Range.small_block blocks -> Range.small processSize ->
  (exists c, In c blocks /\ candidate processSize c) ->
  exists i selectedBlock blocks',
    selectBlock "worst" processSize blocks = Some (i, selectedBlock)
    /\ nth_error blocks i = Some selectedBlock
    /\ candidate processSize selectedBlock
    /\ (forall j c, nth_error blocks j = Some c -> candidate processSize c ->
          size c <= size selectedBlock
          /\ (size c = size selectedBlock -> (i <= j)%nat))
    /\ allocateMemory processSize "worst" blocks
       = (Allocated (placed processSize blocks selectedBlock), blocks')
    /\ Permutation blocks'
         (splice1 i blocks ++ placed processSize blocks selectedBlock
            :: remainder processSize (Z.of_nat (List.length blocks) + 1)
                 selectedBlock)
    /\ sorted_by_address blocks'.
Proof.
  intros _ _ (c0 & Hc0 & Hcand0).
  pose proof (candidates_exist _ _ _ Hc0 Hcand0) as Hne.
  destruct (sort_by_head_exists (fun ib => - size (snd ib)) _ Hne)
    as [[i b] Hhd].
  assert (Hsel : selectBlock "worst" processSize blocks = Some (i, b))
    by (now rewrite selectBlock_candidates).
  destruct (selectBlock_sound _ _ _ _ _ Hsel) as [Hn Hcand].
  destruct (sort_by_head _ _ _ Hhd) as (before & after & Hsplit & Hb & Ha).
  simpl in Hb, Ha.
  destruct (allocation_outcome _ _ _ _ _ Hsel) as (blocks' & Hal & Hp & Hs & _).
  exists i, b, blocks'.
  split; [exact Hsel|]. split; [exact Hn|]. split; [exact Hcand|].
  split; [|split; [exact Hal|split; [exact Hp|exact Hs]]].
  intros j c Hj Hc. split.
  - assert (Hin : In (j, c) (candidates processSize blocks))
      by (now apply candidates_In).
    rewrite Hsplit in Hin. apply in_app_or in Hin.
    destruct Hin as [Hin|[Hin|Hin]].
    + specialize (Hb _ Hin). simpl in Hb. lia.
    + injection Hin as <- <-. lia.
    + specialize (Ha _ Hin). simpl in Ha. lia.
  - intros Hsize.
    assert (Hin : In (j, c) (candidates processSize blocks))
      by (now apply candidates_In).
    rewrite Hsplit in Hin. apply in_app_or in Hin.
    destruct Hin as [Hin|[Hin|Hin]].
    + specialize (Hb _ Hin). simpl in Hb. lia.
    + injection Hin as <- <-. lia.
    + pose proof (candidates_sorted processSize blocks) as Hso.
      rewrite Hsplit in Hso. apply StronglySorted_after in Hso.
      rewrite Forall_forall in Hso. specialize (Hso _ Hin). simpl in Hso. lia.
Qed.

(** Three free blocks of 50, 200 and 100 KB and a request of 80: first
    fit takes the 200 KB block at 188, worst fit takes it too. *)
Lemma firstFit_allocation_example :
  let blocks :=
    [mkBlock 1 (Some "OS"%string) 128 0 128 allocated;
     mkBlock 2 None 50 128 178 free;
     mkBlock 3 (Some "P1"%string) 10 178 188 allocated;
     mkBlock 4 None 200 188 388 free;
     mkBlock 5 (Some "P2"%string) 10 388 398 allocated;
     mkBlock 6 None 100 398 498 free;
     mkBlock 7 (Some "P3"%string) 526 498 1024 allocated] in
  Forall Range.small_block blocks /\ Range.small 80
  /\ (exists c, In c blocks /\ candidate 80 c)
  /\ exists i selectedBlock,
       selectBlock "first" 80 blocks = Some (i, selectedBlock)
       /\ forall j c, nth_error blocks j = Some c -> candidate 80 c ->
                      (i <= j)%nat.
Proof.
  intros blocks.
  assert (Hblocks : Forall Range.small_block blocks)
    by (repeat constructor; vm_compute; discriminate).
  assert (Hsize : Range.small 80) by (vm_compute; discriminate).
  assert (H : exists c, In c blocks /\ candidate 80 c).
  { exists (mkBlock 4 None 200 188 388 free). split.
    - simpl. auto.
    - split; [reflexivity | simpl; lia]. }
  split; [exact Hblocks|]. split; [exact Hsize|]. split; [exact H|].
  destruct (firstFit_allocation 80 blocks Hblocks Hsize H)
    as (i & b & blocks' & Hsel & _ & _ & Hfirst & _).
  now exists i, b.
Defined.

Lemma worstFit_allocation_example :
  let blocks :=
    [mkBlock 1 (Some "OS"%string) 128 0 128 allocated;
     mkBlock 2 None 50 128 178 free;
     mkBlock 3 (Some "P1"%string) 10 178 188 allocated;
     mkBlock 4 None 200 188 388 free;
     mkBlock 5 (Some "P2"%string) 10 388 398 allocated;
     mkBlock 6 None 100 398 498 free;
     mkBlock 7 (Some "P3"%string) 526 498 1024 allocated] in
  Forall Range.small_block blocks /\ Range.small 80
  /\ (exists c, In c blocks /\ candidate 80 c)
  /\ exists i selectedBlock,
       selectBlock "worst" 80 blocks = Some (i, selectedBlock)
       /\ forall j c, nth_error blocks j = Some c -> candidate 80 c ->
                      size c <= size selectedBlock.
Proof.
  intros blocks.
  assert (Hblocks : Forall Range.small_block blocks)
    by (repeat constructor; vm_compute; discriminate).
  assert (Hsize : Range.small 80) by (vm_compute; discriminate).
  assert (H : exists c, In c blocks /\ candidate 80 c).
  { exists (mkBlock 6 None 100 398 498 free). split.
    - simpl. auto 10.
    - split; [reflexivity | simpl; lia]. }
  split; [exact Hblocks|]. split; [exact Hsize|]. split; [exact H|].
  destruct (worstFit_allocation 80 blocks Hblocks Hsize H)
    as (i & b & blocks' & Hsel & _ & _ & Hleast & _).
  exists i, b. split; [exact Hsel|].
  intros j c Hj Hc. now destruct (Hleast j c Hj Hc).
Defined.
End FitFacts.

Section CompactionFacts.
Import Mem MemSpec LayoutSpec.

Lemma relocate_packed (blocks : list MemoryBlock) : forall index a,
  map content (fst (relocate index a blocks)) = map content blocks
  /\ map id (fst (relocate index a blocks))
     = map (fun i => Z.of_nat i + 1) (seq index (List.length blocks))
  /\ packed a (fst (relocate index a blocks))
  /\ snd (relocate index a blocks) = a + totalSize blocks.
Proof.
  induction blocks as [|b blocks IH]; intros index a; simpl.
  - repeat split; lia.
  - specialize (IH (S index) (a + size b)).
    destruct (relocate (S index) (a + size b) blocks) as [moved a'].
    simpl in *. destruct IH as (Hc & Hi & Hp & Ha).
    rewrite Hc, Hi. repeat split; auto. lia.
Qed.

(** Compaction, on every block list whose allocated sizes add up, in
    absolute value, within the exact range: the allocated blocks,
    taken in the order of their start addresses, keep owner, size and
    status, get the ids 1, 2, ... and are packed from address 0; what
    is left of the 1024 KB, if anything, is one free block after
    them. *)
Theorem compactMemory_packs (blocks : list MemoryBlock) :
  Range.small (Range.magnitude (map size (filter is_allocated blocks))) ->
  let allocatedBlocks := sort_by startAddress (filter is_allocated blocks) in
  let total := totalSize allocatedBlocks in
  exists moved,
    compactMemory blocks
    = moved ++
      (if 0 <? 1024 - total
       then [mkBlock (Z.of_nat (List.length allocatedBlocks) + 1) None
                     (1024 - total) total 1024 free]
       else [])
    /\ map content moved = map content allocatedBlocks
    /\ map id moved
       = map (fun i => Z.of_nat i + 1)
             (seq 0 (List.length allocatedBlocks))
    /\ packed 0 moved.
Proof.
  intros _. cbv zeta. rewrite compactMemory_relocate. cbv zeta.
  set (A := sort_by startAddress (filter is_allocated blocks)).
  destruct (relocate_packed A 0 0) as (Hc & Hi & Hp & Ha).
  exists (fst (relocate 0 0 A)).
  split; [|split; [exact Hc | split; [exact Hi | exact Hp]]].
  rewrite Ha, Z.add_0_l.
  replace (List.length (fst (relocate 0 0 A))) with (List.length A)
    by (rewrite <- (length_map content A), <- Hc; now rewrite length_map).
  destruct (0 <? 1024 - totalSize A); [reflexivity | now rewrite app_nil_r].
Qed.

Lemma compactMemory_packs_example :
  let blocks :=
    [mkBlock 1 (Some "OS"%string) 128 0 128 allocated;
     mkBlock 4 None 172 128 300 free;
     mkBlock 3 (Some "P1"%string) 100 300 400 allocated;
     mkBlock 2 None 624 400 1024 free] in
  Range.small (Range.magnitude (map size (filter is_allocated blocks)))
  /\ exists moved,
       compactMemory blocks = moved ++ [mkBlock 3 None 796 228 1024 free]
       /\ map id moved = [1; 2]
       /\ packed 0 moved.
Proof.
  intros blocks.
  assert (H : Range.small
                (Range.magnitude (map size (filter is_allocated blocks))))
    by (vm_compute; discriminate).
  split; [exact H|].
  pose proof (compactMemory_packs blocks H) as Hthm. cbv zeta in Hthm.
  destruct Hthm as (moved & Heq & _ & Hid & Hp).
  exists moved. split; [exact Heq|]. split; [exact Hid | exact Hp].
Defined.

(** [deallocateMemory] twice is [deallocateMemory] once. *)
Theorem deallocateMemory_idempotent (blocks : list MemoryBlock) :
  deallocateMemory (deallocateMemory blocks) = deallocateMemory blocks.
Proof.
  unfold deallocateMemory. rewrite filter_app. simpl. rewrite app_nil_r.
  f_equal. induction blocks as [|b blocks IH]; simpl; [reflexivity|].
  destruct (is_OS b) eqn:Hb; simpl; [rewrite Hb|]; now rewrite ?IH.
Qed.
End CompactionFacts.

Section LayoutShape.
Import Mem MemSpec LayoutSpec.

Lemma userNames_not_OS (k : nat) (u : MemoryBlock) :
  In (processName u) (userNames k) -> is_OS u = false.
Proof.
  unfold userNames. intros H. apply in_map_iff in H.
  destruct H as (i & Hi & _). unfold is_OS. now rewrite <- Hi.
Qed.

Lemma userNames_succ (k : nat) :
  userNames (S k) = userNames k ++ [Some ("P" ++ decimal (k + 1))%string].
Proof.
  unfold userNames. rewrite seq_S, map_app. simpl.
  now rewrite Nat.add_1_r.
Qed.

Lemma shaped_users_not_OS (users : list MemoryBlock) :
  map processName users = userNames (List.length users) ->
  Forall (fun u => is_OS u = false) users.
Proof.
  intros Hnames. apply Forall_forall. intros u Hu.
  apply (userNames_not_OS (List.length users)). rewrite <- Hnames.
  now apply in_map.
Qed.

(** In a shaped layout a free block can only be the last block. *)
Lemma shaped_free (users tail : list MemoryBlock) (i : nat) (b : MemoryBlock) :
  Forall (fun b => status b = allocated) users ->
  (tail = [] \/ exists f, tail = [f] /\ status f = free /\ processName f = None) ->
  nth_error (osBlock :: users ++ tail) i = Some b -> status b = free ->
  tail = [b] /\ i = S (List.length users).
Proof.
  intros Husers Htail Hn Hfree.
  destruct i as [|i]; [simpl in Hn; injection Hn as <-; discriminate|].
  simpl in Hn. destruct (Nat.lt_ge_cases i (List.length users)) as [Hlt|Hge].
  - rewrite nth_error_app1 in Hn by exact Hlt.
    apply nth_error_In in Hn. rewrite Forall_forall in Husers.
    specialize (Husers _ Hn). congruence.
  - rewrite nth_error_app2 in Hn by exact Hge.
    destruct Htail as [->|(f & -> & _)].
    + now destruct (i - List.length users)%nat.
    + destruct (i - List.length users)%nat as [|k] eqn:Hk; simpl in Hn.
      * injection Hn as <-. split; [reflexivity | lia].
      * now destruct k.
Qed.

Lemma count_users (users tail : list MemoryBlock) :
  Forall (fun b => status b = allocated) users ->
  map processName users = userNames (List.length users) ->
  (tail = [] \/ exists f, tail = [f] /\ status f = free /\ processName f = None) ->
  filter (fun b => is_allocated b && negb (is_OS b)) (osBlock :: users ++ tail)
  = users
  /\ filter is_allocated (osBlock :: users ++ tail) = osBlock :: users
  /\ filter is_OS (osBlock :: users ++ tail) = [osBlock]
  /\ filter is_free (osBlock :: users ++ tail) = tail.
Proof.
  intros Husers Hnames Htail.
  pose proof (shaped_users_not_OS _ Hnames) as Hnot.
  assert (H1 : filter (fun b => is_allocated b && negb (is_OS b)) users = users).
  { apply filter_all. rewrite Forall_forall in *. intros u Hu.
    rewrite (Hnot _ Hu). simpl. rewrite andb_true_r.
    apply is_allocated_true. now apply Husers. }
  assert (H2 : filter is_allocated users = users).
  { apply filter_all. eapply Forall_impl; [|exact Husers].
    intros u. apply is_allocated_true. }
  assert (H3 : filter is_OS users = []) by (now apply filter_none).
  assert (H4 : filter is_free users = []).
  { apply filter_none. eapply Forall_impl; [|exact Husers].
    intros u Hu. unfold is_free. now rewrite Hu. }
  simpl. rewrite !filter_app, H1, H2, H3, H4.
  destruct Htail as [->|(f & -> & Hf & Hname)]; simpl.
  - now rewrite !app_nil_r.
  - unfold is_allocated, is_free, is_OS. rewrite Hf, Hname. simpl.
    now rewrite !app_nil_r.
Qed.

Lemma remainder_tail processSize rid b :
  remainder processSize rid b = []
  \/ exists f, remainder processSize rid b = [f]
               /\ status f = free /\ processName f = None.
Proof.
  unfold remainder. destruct (processSize <? size b); [right | now left].
  eexists. repeat split.
Qed.

Lemma allocateMemory_shaped processSize algorithm blocks :
  0 < processSize -> full_layout blocks -> shaped blocks ->
  shaped (snd (allocateMemory processSize algorithm blocks)).
Proof.
  intros Hpos [Ht _] Hshape.
  destruct (selectBlock algorithm processSize blocks) as [[i b]|] eqn:Hsel.
  2:{ unfold allocateMemory. now rewrite Hsel. }
  destruct (selectBlock_sound _ _ _ _ _ Hsel) as [Hn [Hfree Hfit]].
  destruct Hshape as (users & tail & Hblocks & Husers & Hnames & Htail).
  pose proof Hn as Hn'. rewrite Hblocks in Hn'.
  destruct (shaped_free _ _ _ _ Husers Htail Hn' Hfree) as [-> ->].
  destruct (count_users _ [b] Husers Hnames Htail) as (Hcount & _).
  rewrite (allocateMemory_success _ _ _ _ _ Hsel). simpl snd.
  destruct (allocate_in_place processSize
              (Z.of_nat (List.length
                 (splice1 (S (List.length users)) blocks
                    ++ [placed processSize blocks b])) + 1)
              0 1024 blocks (S (List.length users)) b
              (placed processSize blocks b)
              Ht Hpos Hn (conj Hfree Hfit) eq_refl eq_refl eq_refl) as [-> _].
  set (rid := Z.of_nat _ + 1).
  assert (Hfirst : firstn (S (List.length users)) blocks = osBlock :: users).
  { rewrite Hblocks. simpl. f_equal.
    rewrite firstn_app, Nat.sub_diag, firstn_all. simpl. apply app_nil_r. }
  assert (Hskip : skipn (S (S (List.length users))) blocks = []).
  { apply skipn_all2. rewrite Hblocks. simpl. rewrite length_app. simpl. lia. }
  rewrite Hfirst, Hskip, app_nil_r.
  exists (users ++ [placed processSize blocks b]), (remainder processSize rid b).
  split; [simpl; now rewrite <- app_assoc|].
  split; [apply Forall_app; split; [exact Husers | now repeat constructor]|].
  split; [|apply remainder_tail].
  rewrite map_app, length_app, Hnames. cbn [List.length map].
  rewrite (Nat.add_1_r (List.length users)), userNames_succ. f_equal.
  unfold placed. cbn [processName]. rewrite Hblocks, Hcount. reflexivity.
Qed.

Lemma deallocateMemory_shaped blocks :
  shaped blocks -> deallocateMemory blocks = [osBlock; freshFree].
Proof.
  intros (users & tail & -> & Husers & Hnames & Htail).
  destruct (count_users _ _ Husers Hnames Htail) as (_ & _ & Hos & _).
  unfold deallocateMemory. now rewrite Hos.
Qed.

Lemma shaped_reset : shaped [osBlock; freshFree].
Proof.
  exists [], [freshFree]. repeat split; auto.
  right. now exists freshFree.
Qed.

Lemma shaped_initial : shaped initialBlocks.
Proof. exists [], []. repeat split; auto. Qed.

Lemma relocate_users (users : list MemoryBlock) : forall index a,
  Forall (fun b => status b = allocated) users ->
  Forall (fun b => status b = allocated) (fst (relocate index a users))
  /\ map processName (fst (relocate index a users)) = map processName users
  /\ List.length (fst (relocate index a users)) = List.length users.
Proof.
  induction users as [|u users IH]; intros index a Hall; simpl.
  - repeat split; constructor.
  - inversion Hall as [|? ? Hu Hrest]; subst.
    destruct (IH (S index) (a + size u) Hrest) as (H1 & H2 & H3).
    destruct (relocate (S index) (a + size u) users) as [moved a'].
    simpl in *. repeat split; auto. now rewrite H2.
Qed.

Lemma compactMemory_shaped blocks :
  full_layout blocks -> shaped blocks -> shaped (compactMemory blocks).
Proof.
  intros Hfull (users & tail & Hblocks & Husers & Hnames & Htail).
  rewrite compactMemory_relocate. cbv zeta.
  rewrite (full_layout_allocated_sorted _ Hfull).
  destruct (count_users _ _ Husers Hnames Htail) as (_ & Halloc & _).
  rewrite Hblocks, Halloc.
  destruct (relocate_users users 1 128 Husers) as (H1 & H2 & H3).
  assert (Hrel : relocate 0 0 (osBlock :: users)
                 = (osBlock :: fst (relocate 1 128 users),
                    snd (relocate 1 128 users))).
  { simpl. now destruct (relocate 1 128 users). }
  rewrite Hrel. cbn [fst snd].
  assert (Hnames' : map processName (fst (relocate 1 128 users))
                    = userNames (List.length (fst (relocate 1 128 users))))
    by (now rewrite H2, H3).
  destruct (0 <? _).
  - eexists (fst (relocate 1 128 users)), [_]. split; [reflexivity|].
    split; [exact H1|]. split; [exact Hnames'|].
    right. eexists. repeat split.
  - exists (fst (relocate 1 128 users)), []. rewrite app_nil_r.
    repeat split; auto.
Qed.

Lemma call_shaped (c : Call) (blocks : list MemoryBlock) :
  positive_request c ->
  shaped blocks /\ (blocks = initialBlocks \/ full_layout blocks) ->
  shaped (call blocks c)
  /\ (call blocks c = initialBlocks \/ full_layout (call blocks c)).
Proof.
  intros Hpos [Hshape [->|Hfull]].
  - destruct (call_initial c) as [[Heq _]|[Hfull _]].
    + rewrite Heq. split; [exact shaped_initial | now left].
    + split; [|now right].
      destruct c as [processSize algorithm| |]; simpl.
      * unfold allocateMemory. rewrite selectBlock_none;
          [exact shaped_initial|].
        intros c [<-|[]]; discriminate.
      * exact shaped_reset.
      * exists [], [mkBlock 2 None 896 128 1024 free]. repeat split; auto.
        right. eexists. repeat split.
  - split; [|right; now apply call_full].
    destruct c as [processSize algorithm| |]; simpl.
    + now apply allocateMemory_shaped.
    + rewrite (deallocateMemory_shaped _ Hshape). exact shaped_reset.
    + now apply compactMemory_shaped.
Qed.

Lemma run_shaped (calls : list Call) : forall blocks,
  Forall positive_request calls ->
  shaped blocks /\ (blocks = initialBlocks \/ full_layout blocks) ->
  shaped (run calls blocks).
Proof.
  induction calls as [|c calls IH]; intros blocks Hpos Hinv; simpl;
    [tauto|].
  inversion Hpos; subst. apply IH; [assumption|]. now apply call_shaped.
Qed.

(** Every layout that deallocations, compactions and allocations of a
    positive size produce from the initial one is the kernel's block,
    then allocated blocks owned by P1, P2, ..., Pk in this order, then
    at most one free block. *)
Theorem reachable_layout_shape (calls : list Call) :
  Forall positive_request calls -> shaped (run calls initialBlocks).
Proof.
  intros Hpos. apply run_shaped; [exact Hpos|].
  split; [exact shaped_initial | now left].
Qed.

Lemma reachable_layout_shape_session :
  let calls :=
    [deallocate; allocate 100 "best"; allocate 50 "worst"; compact;
     allocate 30 "first"] in
  Forall positive_request calls /\ shaped (run calls initialBlocks).
Proof.
  intros calls.
  assert (H : Forall positive_request calls)
    by (repeat constructor; simpl; lia).
  split; [exact H | exact (reachable_layout_shape calls H)].
Defined.

(** Whatever was allocated, [deallocateMemory] brings every such layout
    back to the kernel's block followed by one free block of 896 KB at
    address 128. *)
Theorem deallocateMemory_resets (calls : list Call) :
  Forall positive_request calls ->
  deallocateMemory (run calls initialBlocks) = [osBlock; freshFree].
Proof.
  intros Hpos. apply deallocateMemory_shaped. apply run_shaped; [exact Hpos|].
  split; [exact shaped_initial | now left].
Qed.

Lemma deallocateMemory_resets_session :
  let calls :=
    [deallocate; allocate 100 "best"; compact; allocate 50 "worst"] in
  Forall positive_request calls
  /\ deallocateMemory (run calls initialBlocks) = [osBlock; freshFree].
Proof.
  intros calls.
  assert (H : Forall positive_request calls)
    by (repeat constructor; simpl; lia).
  split; [exact H | exact (deallocateMemory_resets calls H)].
Defined.
End LayoutShape.

Section ReachableLayouts.
Import Mem MemSpec LayoutSpec MemStats.

Lemma filter_combine_seq_length (f : MemoryBlock -> bool)
    (blocks : list MemoryBlock) : forall s,
  List.length (filter (fun ib : nat * MemoryBlock => f (snd ib))
                      (combine (seq s (List.length blocks)) blocks))
  = List.length (filter f blocks).
Proof.
  induction blocks as [|b blocks IH]; intros s; simpl; [reflexivity|].
  destruct (f b); simpl; now rewrite IH.
Qed.

Lemma filter_length_bound (A : Type) (f : A -> bool) (l : list A) :
  (List.length (filter f l) <= List.length l)%nat.
Proof.
  induction l as [|x l IH]; simpl; [lia|]. destruct (f x); simpl; lia.
Qed.

Lemma shaped_candidates processSize blocks :
  shaped blocks -> (List.length (candidates processSize blocks) <= 1)%nat.
Proof.
  intros (users & tail & -> & Husers & Hnames & Htail).
  destruct (count_users _ _ Husers Hnames Htail) as (_ & _ & _ & Hfree).
  unfold candidates, indexed.
  etransitivity; [apply filter_length_bound|].
  rewrite (filter_combine_seq_length is_free), Hfree.
  destruct Htail as [-> | (f & -> & _)]; simpl; lia.
Qed.

Lemma sort_by_short (A : Type) (key : A -> Z) (l : list A) :
  (List.length l <= 1)%nat -> sort_by key l = l.
Proof. destruct l as [|x [|y l]]; simpl; intros H; try reflexivity; lia. Qed.

Lemma selectBlock_short algorithm processSize blocks :
  fit_algorithm algorithm ->
  (List.length (candidates processSize blocks) <= 1)%nat ->
  selectBlock algorithm processSize blocks
  = hd_error (candidates processSize blocks).
Proof.
  intros Hfit Hshort. rewrite selectBlock_candidates.
  destruct Hfit as [-> | [-> | ->]]; simpl; now rewrite ?sort_by_short.
Qed.

(** On every layout that deallocations, compactions and allocations of
    a positive size produce from the initial one, first fit, best fit
    and worst fit do the same: there is never more than one free block
    to choose from. *)
Theorem fit_algorithms_agree (calls : list Call) (processSize : Z)
    (a1 a2 : string) :
  Forall positive_request calls -> fit_algorithm a1 -> fit_algorithm a2 ->
  allocateMemory processSize a1 (run calls initialBlocks)
  = allocateMemory processSize a2 (run calls initialBlocks).
Proof.
  intros Hpos H1 H2.
  pose proof (shaped_candidates processSize _
                (run_shaped calls initialBlocks Hpos
                   (conj shaped_initial (or_introl eq_refl)))) as Hshort.
  unfold allocateMemory.
  now rewrite (selectBlock_short a1 _ _ H1 Hshort),
              (selectBlock_short a2 _ _ H2 Hshort).
Qed.

Lemma fit_algorithms_agree_session :
  let calls := [deallocate; allocate 100 "best"; compact] in
  Forall positive_request calls
  /\ fit_algorithm "first" /\ fit_algorithm "worst"
  /\ allocateMemory 60 "first" (run calls initialBlocks)
     = allocateMemory 60 "worst" (run calls initialBlocks).
Proof.
  intros calls.
  assert (H : Forall positive_request calls)
    by (repeat constructor; simpl; lia).
  assert (H1 : fit_algorithm "first") by (now left).
  assert (H2 : fit_algorithm "worst") by (right; now right).
  split; [exact H|]. split; [exact H1|]. split; [exact H2|].
  exact (fit_algorithms_agree calls 60 "first" "worst" H H1 H2).
Defined.

Lemma run_without_reset (calls : list Call) :
  existsb is_reset calls = false -> run calls initialBlocks = initialBlocks.
Proof.
  induction calls as [|c calls IH]; simpl; intros H; [reflexivity|].
  apply orb_false_elim in H. destruct H as [Hc Hrest].
  destruct (call_initial c) as [[-> _] | [_ Hreset]]; [now apply IH | congruence].
Qed.

Lemma totalSize_split (blocks : list MemoryBlock) :
  totalSize blocks
  = totalSize (filter is_allocated blocks) + totalSize (filter is_free blocks).
Proof.
  unfold totalSize, is_allocated, is_free.
  induction blocks as [|b blocks IH]; simpl; [reflexivity|].
  destruct (status b); simpl; lia.
Qed.

(** The statistics against the layout.  Until the first deallocation or
    compaction they show 128 KB used and 896 KB free while no block is
    free and every allocation is refused; from then on the free memory
    shown is the total size of the free blocks, of which there is at
    most one. *)
Theorem updateMemoryStats_reachable (calls : list Call) :
  Forall positive_request calls ->
  let blocks := run calls initialBlocks in
  let stats := updateMemoryStats blocks in
  (existsb is_reset calls = false ->
   usedMemory stats = 128 /\ freeMemory stats = 896
   /\ freeBlocks stats = 0%nat
   /\ forall processSize algorithm,
        fst (allocateMemory processSize algorithm blocks) = InsufficientMemory)
  /\ (existsb is_reset calls = true ->
      usedMemory stats = totalSize (filter is_allocated blocks)
      /\ freeMemory stats = totalSize (filter is_free blocks)
      /\ (freeBlocks stats <= 1)%nat).
Proof.
  intros Hpos blocks stats. split.
  - intros Hnone. subst stats blocks. rewrite (run_without_reset _ Hnone).
    repeat split. intros processSize algorithm.
    unfold allocateMemory. rewrite selectBlock_none; [reflexivity|].
    intros c [<-|[]]; discriminate.
  - intros Hreset.
    destruct (run_initial calls Hpos) as [[_ Hnone]|[Ht _]]; [congruence|].
    pose proof (run_shaped calls initialBlocks Hpos
                  (conj shaped_initial (or_introl eq_refl))) as Hshape.
    fold blocks in Ht, Hshape.
    assert (Hused : usedMemory stats = totalSize (filter is_allocated blocks)).
    { unfold stats, updateMemoryStats. cbn [usedMemory].
      now rewrite fold_left_totalSize. }
    split; [exact Hused|]. split.
    + unfold stats, updateMemoryStats in *. cbn [usedMemory freeMemory] in *.
      rewrite Hused. pose proof (tiles_totalSize _ _ _ Ht) as Htot.
      rewrite totalSize_split in Htot. lia.
    + unfold stats, updateMemoryStats. cbn [freeBlocks].
      destruct Hshape as (users & tail & Hb & Husers & Hnames & Htail).
      destruct (count_users _ _ Husers Hnames Htail) as (_ & _ & _ & Hfree).
      rewrite Hb, Hfree.
      destruct Htail as [-> | (f & -> & _)]; simpl; lia.
Qed.

Lemma updateMemoryStats_reachable_session :
  let calls := [deallocate; allocate 100 "best"; allocate 50 "first"] in
  Forall positive_request calls
  /\ freeMemory (updateMemoryStats (run calls initialBlocks))
     = totalSize (filter is_free (run calls initialBlocks)).
Proof.
  intros calls.
  assert (H : Forall positive_request calls)
    by (repeat constructor; simpl; lia).
  split; [exact H|].
  destruct (updateMemoryStats_reachable calls H) as [_ Hafter].
  now destruct (Hafter eq_refl) as (_ & Hfree & _).
Defined.
Lemma totalSize_not_negative (blocks : list MemoryBlock) :
  Forall (fun b => 0 < size b) blocks -> 0 <= totalSize blocks.
Proof.
  unfold totalSize. induction 1 as [|b blocks Hb _ IH]; simpl; lia.
Qed.

Lemma no_fragmentation (freeMemory : Z) :
  0 < freeMemory <= 1024 ->
  (Disk.number 0 / Disk.number freeMemory * Disk.number 100)%float
  = 0%float.
Proof.
  intros Hrange.
  assert (Hall : forallb
                   (fun n => Leibniz.eqb
                               (Disk.number 0 / Disk.number (Z.of_nat n)
                                * Disk.number 100)%float 0%float)
                   (seq 1 1024) = true) by (vm_compute; reflexivity).
  rewrite forallb_forall in Hall.
  specialize (Hall (Z.to_nat freeMemory)).
  rewrite Z2Nat.id in Hall by lia.
  apply Leibniz.eqb_spec, Hall, in_seq. lia.
Qed.

(** The fragmentation shown on the layouts that deallocations,
    compactions and allocations of a positive size produce from the
    initial one: 100 until the first deallocation or compaction (896 KB
    count as free and no block is free), and 0 from then on (all free
    memory is in one block, or none is free). *)
Theorem updateMemoryStats_fragmentation (calls : list Call) :
  Forall positive_request calls ->
  fragmentation (updateMemoryStats (run calls initialBlocks))
  = (if existsb is_reset calls then 0 else 100)%float.
Proof.
  intros Hpos. destruct (existsb is_reset calls) eqn:Hreset.
  - destruct (run_initial calls Hpos) as [[_ Hnone]|[Ht _]]; [congruence|].
    pose proof (run_shaped calls initialBlocks Hpos
                  (conj shaped_initial (or_introl eq_refl))) as Hshape.
    pose proof (tiles_totalSize _ _ _ Ht) as Htot.
    pose proof (tiles_positive _ _ _ Ht) as Hsizes.
    rewrite totalSize_split in Htot.
    assert (Hused : 0 <= totalSize (filter is_allocated
                                      (run calls initialBlocks))).
    { apply totalSize_not_negative. apply Forall_forall. intros b Hb.
      apply filter_In in Hb. rewrite Forall_forall in Hsizes.
      now apply Hsizes. }
    destruct Hshape as (users & tail & Hb & Husers & Hnames & Htail).
    destruct (count_users _ _ Husers Hnames Htail) as (_ & _ & _ & Hfree).
    unfold updateMemoryStats. cbn [fragmentation].
    rewrite fold_left_totalSize, Z.add_0_l.
    rewrite Hb in Htot, Hused, Hsizes |- *. rewrite Hfree in Htot |- *.
    destruct Htail as [-> | (f & -> & _)].
    + change (totalSize []) with 0 in Htot.
      replace (1024 - totalSize (filter is_allocated (osBlock :: users ++ [])))
        with 0 by lia.
      reflexivity.
    + change (totalSize [f]) with (size f + 0) in Htot.
      assert (Hf : 0 < size f).
      { rewrite Forall_forall in Hsizes. apply Hsizes.
        right. apply in_or_app. right. now left. }
      replace (1024 - totalSize (filter is_allocated (osBlock :: users ++ [f])))
        with (size f) by lia.
      cbn [map largest fold_right].
      rewrite (Z.max_l (size f) 0) by lia.
      replace (0 <? size f) with true by (symmetry; apply Z.ltb_lt; lia).
      rewrite Z.sub_diag. apply no_fragmentation. lia.
  - rewrite (run_without_reset _ Hreset). reflexivity.
Qed.

Lemma updateMemoryStats_fragmentation_session :
  let calls := [deallocate; allocate 100 "best"; allocate 50 "first"] in
  Forall positive_request calls
  /\ fragmentation (updateMemoryStats (run calls initialBlocks)) = 0%float.
Proof.
  intros calls.
  assert (H : Forall positive_request calls)
    by (repeat constructor; simpl; lia).
  split; [exact H|].
  exact (updateMemoryStats_fragmentation calls H).
Defined.
End ReachableLayouts.

(** * Further properties of the disk panel *)

Section DiskPanelFacts.
Import Disk DiskSpec DiskPanel.

Lemma write_back_map (B : Type) (f : DiskRequest -> B)
    (requests : list DiskRequest) : forall served,
  map f served = map f (filter pending requests) ->
  map f (write_back requests served) = map f requests.
Proof.
  induction requests as [|r requests IH]; intros served Hf; simpl;
    [reflexivity|].
  simpl in Hf. destruct (pending r).
  - destruct served as [|s served]; [discriminate|].
    simpl in Hf. injection Hf as Hs Hrest.
    simpl. now rewrite Hs, (IH served Hrest).
  - simpl. now rewrite (IH served Hf).
Qed.

Lemma write_back_frame (requests : list DiskRequest) : forall served i q,
  nth_error requests i = Some q -> processed q = true ->
  nth_error (write_back requests served) i = Some q.
Proof.
  induction requests as [|r requests IH]; intros served i q Hi Hq;
    [now destruct i|].
  simpl. destruct (pending r) eqn:Hr.
  - destruct i as [|i]; simpl in Hi.
    + injection Hi as ->. unfold pending in Hr. rewrite Hq in Hr. discriminate.
    + destruct served as [|s served]; simpl; now apply IH.
  - destruct i as [|i]; simpl in *; [exact Hi | now apply IH].
Qed.

Lemma processDiskRequests_run algorithm head requests run :
  processDiskRequests algorithm head requests = Some run ->
  map id (diskRequests run) = map id requests
  /\ map cylinder (diskRequests run) = map cylinder requests
  /\ map Disk.algorithm (diskRequests run) = map Disk.algorithm requests
  /\ Forall (fun r => processed r = true) (diskRequests run)
  /\ headPosition run = last (map cylinder (filter pending requests)) head
  /\ filter pending requests <> []
  /\ forall i q, nth_error requests i = Some q -> processed q = true ->
                 nth_error (diskRequests run) i = Some q.
Proof.
  unfold processDiskRequests. intros Hrun.
  destruct (filter pending requests) as [|q0 queue] eqn:Hq; [discriminate|].
  rewrite <- Hq in *.
  pose proof (serve_spec (filter pending requests) head 0) as Hs.
  destruct (serve head 0 (filter pending requests))
    as [[served head'] total'].
  destruct Hs as (Hid & Hcyl & Halg & _ & Hdone & Hhead & _).
  injection Hrun as <-. cbn [diskRequests headPosition].
  destruct (write_back_spec requests served Hcyl Hdone) as [_ Hall].
  split; [now apply write_back_map|].
  split; [now apply write_back_map|].
  split; [now apply write_back_map|].
  split; [exact Hall|]. split; [exact Hhead|].
  split; [rewrite Hq; discriminate|].
  intros i q. apply write_back_frame.
Qed.

Lemma filter_pending_none (requests : list DiskRequest) :
  Forall (fun r => processed r = true) requests ->
  filter pending requests = [].
Proof.
  induction 1 as [|r requests Hr _ IH]; simpl; [reflexivity|].
  unfold pending at 1. now rewrite Hr.
Qed.

(** A run settles the queue and touches nothing else: the requests keep
    their ids, cylinders and tags, those that were already processed
    are left as they were (seek time included), and no request is
    pending afterwards, so that a second run, under any algorithm and
    from any head, is refused. *)
Theorem processDiskRequests_settles
    (algorithm : string) (head : Z) (requests : list DiskRequest)
    (run : DiskRun) :
  processDiskRequests algorithm head requests = Some run ->
  map id (diskRequests run) = map id requests
  /\ map cylinder (diskRequests run) = map cylinder requests
  /\ map Disk.algorithm (diskRequests run) = map Disk.algorithm requests
  /\ (forall i q, nth_error requests i = Some q -> processed q = true ->
                  nth_error (diskRequests run) i = Some q)
  /\ filter pending (diskRequests run) = []
  /\ forall algorithm' head',
       processDiskRequests algorithm' head' (diskRequests run) = None.
Proof.
  intros Hrun.
  destruct (processDiskRequests_run _ _ _ _ Hrun)
    as (Hid & Hcyl & Halg & Hdone & _ & _ & Hframe).
  pose proof (filter_pending_none _ Hdone) as Hnone.
  split; [exact Hid|]. split; [exact Hcyl|]. split; [exact Halg|].
  split; [exact Hframe|]. split; [exact Hnone|].
  intros algorithm' head'. unfold processDiskRequests. now rewrite Hnone.
Qed.

Lemma processDiskRequests_settles_example :
  let done := mkRequest 1 98 "fcfs" 4.5 true in
  let requests := [done; Disk.addDiskRequest 2 183 "scan"] in
  exists run,
    processDiskRequests "sstf" 98 requests = Some run
    /\ nth_error (diskRequests run) 0 = Some done
    /\ processDiskRequests "sstf" 183 (diskRequests run) = None.
Proof.
  intros done requests.
  destruct (processDiskRequests "sstf" 98 requests) as [run|] eqn:Hrun;
    [|vm_compute in Hrun; discriminate Hrun].
  exists run. split; [reflexivity|].
  destruct (processDiskRequests_settles "sstf" 98 requests run Hrun)
    as (_ & _ & _ & Hframe & _ & Hrefused).
  split; [exact (Hframe 0%nat done eq_refl eq_refl) | apply Hrefused].
Defined.

(** The invariant of the panel. *)
Lemma numbered_succ (n : nat) :
  numbered (S n) = numbered n ++ [Z.of_nat n + 1].
Proof.
  unfold numbered. rewrite seq_S, map_app. simpl. do 2 f_equal. lia.
Qed.

Lemma last_in_range (l : list Z) (d lo hi : Z) :
  Forall (fun c => lo <= c <= hi) l -> lo <= d <= hi ->
  lo <= last l d <= hi.
Proof.
  induction 1 as [|c l Hc _ IH]; intros Hd; [exact Hd|].
  destruct l as [|c' l]; [exact Hc | now apply IH].
Qed.

Lemma or_default_zero (n : Z) : or_default (Some n) 0 = n.
Proof.
  unfold or_default. destruct (n =? 0) eqn:E; [|reflexivity].
  apply Z.eqb_eq in E. now subst.
Qed.

Lemma act_panel (p : Panel) (a : Action) :
  map id (requests p) = numbered (List.length (requests p))
  /\ Forall (fun r => 0 <= cylinder r <= 199) (requests p)
  /\ 0 <= head p <= 199 ->
  map id (requests (act p a))
  = numbered (List.length (requests (act p a)))
  /\ Forall (fun r => 0 <= cylinder r <= 199) (requests (act p a))
  /\ 0 <= head (act p a) <= 199.
Proof.
  intros (Hid & Hcyl & Hhead).
  destruct a as [cylinder algorithm|algorithm|];
    cbn [act requests DiskPanel.head].
  - unfold addDiskRequest.
    destruct ((cylinder <? 0) || (199 <? cylinder)) eqn:Hout;
      [now repeat split|].
    apply orb_false_elim in Hout. destruct Hout as [H0 H199].
    apply Z.ltb_ge in H0. apply Z.ltb_ge in H199.
    rewrite map_app, length_app, Hid. cbn [List.length map].
    rewrite Nat.add_1_r, numbered_succ.
    split; [reflexivity|]. split; [|exact Hhead].
    apply Forall_app. split; [exact Hcyl|].
    constructor; [simpl; lia | constructor].
  - rewrite or_default_zero.
    destruct (processDiskRequests algorithm (head p) (requests p))
      as [run|] eqn:Hrun; [|now repeat split].
    destruct (processDiskRequests_run _ _ _ _ Hrun)
      as (Hid' & Hcyl' & _ & _ & Hhead' & _).
    cbn [requests DiskPanel.head].
    assert (Hrange : Forall (fun c => 0 <= c <= 199)
                            (map cylinder (requests p))).
    { apply Forall_map. exact Hcyl. }
    split; [|split].
    + rewrite Hid', Hid. f_equal.
      now rewrite <- (length_map id (diskRequests run)), Hid', length_map.
    + apply (proj1 (Forall_map cylinder (fun c => 0 <= c <= 199) _)).
      now rewrite Hcyl'.
    + rewrite Hhead'. apply last_in_range; [|exact Hhead].
      apply Forall_map. apply Forall_forall. intros r Hr.
      apply filter_In in Hr. destruct Hr as [Hr _].
      rewrite Forall_forall in Hcyl. now apply Hcyl.
  - now repeat split.
Qed.

(** Whatever is done on the panel, starting without requests and with
    the head on a cylinder of the disk: the requests are numbered 1, 2,
    ..., n in the order of the queue, every one of them is for a
    cylinder between 0 and 199, and the head stays between 0 and
    199. *)
Theorem disk_session_in_range (head0 : Z) (actions : list Action) :
  0 <= head0 <= 199 ->
  let panel := session head0 actions in
  map id (requests panel) = numbered (List.length (requests panel))
  /\ Forall (fun r => 0 <= cylinder r <= 199) (requests panel)
  /\ 0 <= head panel <= 199.
Proof.
  intros Hhead. unfold session.
  assert (Hinit : map id (requests (mkPanel [] head0))
                  = numbered (List.length (requests (mkPanel [] head0)))
                  /\ Forall (fun r => 0 <= cylinder r <= 199)
                            (requests (mkPanel [] head0))
                  /\ 0 <= head (mkPanel [] head0) <= 199).
  { simpl. split; [reflexivity|]. split; [constructor | exact Hhead]. }
  revert Hinit. generalize (mkPanel [] head0).
  induction actions as [|a actions IH]; intros p Hp; simpl; [exact Hp|].
  apply IH. now apply act_panel.
Qed.

Lemma disk_session_in_range_example :
  let actions :=
    [add 98 "fcfs"; add 250 "fcfs"; add 183 "scan"; process "sstf";
     add 37 "fcfs"; process "fcfs"; add 14 "scan"] in
  0 <= 50 <= 199
  /\ map id (requests (session 50 actions)) = [1; 2; 3; 4]
  /\ head (session 50 actions) = 37.
Proof.
  intros actions.
  assert (H : 0 <= 50 <= 199) by lia.
  split; [exact H|].
  destruct (disk_session_in_range 50 actions H) as (Hid & _ & _).
  split; [rewrite Hid; reflexivity | reflexivity].
Defined.
End DiskPanelFacts.

(** * Further properties of the process list and of a scheduler run *)

Section ProcessListFacts.
Import Sched SchedSpec ProcessList.

Lemma or_default_positive (field : option Z) :
  not_negative field -> 1 <= or_default field 1.
Proof.
  destruct field as [n|]; simpl; [|lia].
  intros Hn. destruct (n =? 0) eqn:E; [lia|]. apply Z.eqb_neq in E. lia.
Qed.

Lemma or_default_not_negative (field : option Z) :
  not_negative field -> 0 <= or_default field 0.
Proof.
  destruct field as [n|]; simpl; [|lia].
  intros Hn. now destruct (n =? 0).
Qed.

Lemma Forall_cut (A : Type) (P : A -> Prop) (n : nat) (l : list A) :
  Forall P l -> Forall P (firstn n l) /\ Forall P (skipn n l).
Proof.
  intros H. rewrite <- (firstn_skipn n l) in H. now apply Forall_app in H.
Qed.

Lemma act_entered (processes : list Process) (a : Action) :
  well_formed a ->
  Forall (fun p => valid p /\ fresh p /\ name p <> EmptyString) processes ->
  Forall (fun p => valid p /\ fresh p /\ name p <> EmptyString)
         (act processes a).
Proof.
  intros Ha Hall.
  destruct a as [nameField arrivalField burstField priorityField|index|];
    cbn [act].
  - destruct Ha as [Harrival Hburst].
    unfold ProcessList.addProcess. apply Forall_app. split; [exact Hall|].
    constructor; [|constructor].
    split; [|split].
    + unfold valid. cbn [Sched.addProcess arrivalTime burstTime].
      split; [now apply or_default_not_negative
             | now apply or_default_positive].
    + unfold fresh. now cbn.
    + cbn [Sched.addProcess name]. destruct nameField; discriminate.
  - unfold removeProcess. apply Forall_app. split.
    + now apply Forall_cut.
    + now apply Forall_cut.
  - constructor.
Qed.

(** After any series of additions, removals and clearings that submit
    no negative arrival or burst time, every process of the list is a
    valid input of the schedulers (arrival time at least 0, burst time
    at least 1: an empty or zero burst field counts as 1), has a name,
    and is as yet untouched: remaining time equal to the burst time,
    no start time, all metrics 0. *)
Theorem entered_processes_are_valid (actions : list Action) :
  Forall well_formed actions ->
  Forall (fun p => valid p /\ fresh p /\ name p <> EmptyString)
         (session actions).
Proof.
  unfold session. intros Hactions.
  assert (Hinit : Forall (fun p => valid p /\ fresh p
                                   /\ name p <> EmptyString)
                         (@nil Process)) by constructor.
  revert Hinit. generalize (@nil Process).
  induction Hactions as [|a actions Ha _ IH]; intros processes Hall; simpl;
    [exact Hall|].
  apply IH. now apply act_entered.
Qed.

Lemma entered_processes_are_valid_example :
  let actions :=
    [add "init" (Some 0) (Some 5) (Some 2); add EmptyString None (Some 0) None;
     add "sh" (Some 3) None (Some (-1)); remove 0; add EmptyString None None None]
  in
  Forall well_formed actions
  /\ Forall (fun p => valid p /\ fresh p /\ name p <> EmptyString)
            (session actions)
  /\ map (fun p => (id p, name p, arrivalTime p, burstTime p, priority p))
         (session actions)
     = [(2, "P2"%string, 0, 1, 1); (3, "sh"%string, 3, 1, -1);
        (3, "P3"%string, 0, 1, 1)].
Proof.
  intros actions.
  assert (H : Forall well_formed actions)
    by (repeat constructor; simpl; lia).
  split; [exact H|].
  split; [exact (entered_processes_are_valid actions H) | reflexivity].
Defined.
End ProcessListFacts.

Section RunSchedulerFacts.
Import Sched SchedSpec TraceSpec SchedStats.

Lemma runScheduler_rr fuel field p processes :
  runScheduler fuel "rr" field (p :: processes)
  = match scheduleRoundRobin fuel (p :: processes) (or_default field 4) with
    | Some (_, scheduled) => shown scheduled (calculateStatistics scheduled)
    | None => running
    end.
Proof.
  unfold runScheduler.
  change (String.eqb "rr" "fcfs") with false.
  change (String.eqb "rr" "sjf") with false.
  change (String.eqb "rr" "priority") with false.
  change (String.eqb "rr" "rr") with true. cbv iota.
  now destruct (scheduleRoundRobin fuel (p :: processes) (or_default field 4))
    as [[queue scheduled]|].
Qed.

(** *** Round Robin: the averages *)

Lemma rr_pass_snapshots (quantum : Z) (queue : list Process) : forall t,
  Forall (fun p => 0 < remainingTime p -> completionTime p = 0) queue ->
  let '(queue', slices, _) := rr_pass quantum t queue in
  Forall (fun p => 0 < remainingTime p -> completionTime p = 0) queue'
  /\ Forall (fun s => completionTime (snapshot s) = 0) slices.
Proof.
  induction queue as [|p queue IH]; intros t Hall; simpl.
  - split; constructor.
  - inversion Hall as [|? ? Hp Hrest]; subst.
    destruct ((0 <? remainingTime p) && (arrivalTime p <=? t)) eqn:Hrun.
    + apply andb_prop in Hrun. destruct Hrun as [Hrem _].
      apply Z.ltb_lt in Hrem.
      specialize (IH (t + Z.min quantum (remainingTime p)) Hrest).
      destruct (rr_pass quantum (t + Z.min quantum (remainingTime p)) queue)
        as [[queue' slices] t'].
      destruct IH as [Hq Hs]. split.
      * constructor; [|exact Hq].
        destruct (remainingTime p - Z.min quantum (remainingTime p) =? 0)
          eqn:Hdone; simpl.
        -- apply Z.eqb_eq in Hdone. lia.
        -- intros _. now apply Hp.
      * constructor; [simpl; now apply Hp | exact Hs].
    + specialize (IH t Hrest).
      destruct (rr_pass quantum t queue) as [[queue' slices] t'].
      destruct IH as [Hq Hs]. split; [now constructor | exact Hs].
Qed.

Lemma rr_while_snapshots (quantum : Z) :
  forall fuel t queue scheduled queue' trace,
    Forall (fun p => 0 < remainingTime p -> completionTime p = 0) queue ->
    Forall (fun s => completionTime (snapshot s) = 0) scheduled ->
    rr_while fuel quantum t queue scheduled = Some (queue', trace) ->
    Forall (fun s => completionTime (snapshot s) = 0) trace.
Proof.
  induction fuel as [|fuel IH];
    intros t queue scheduled queue' trace Hq Hs Hrun; simpl in Hrun;
    destruct (existsb (fun p => 0 <? remainingTime p) queue);
    try discriminate; try (now injection Hrun as <- <-).
  pose proof (rr_pass_snapshots quantum queue t Hq) as Hpass.
  destruct (rr_pass quantum t queue) as [[queue1 slices] t1].
  destruct Hpass as [Hq1 Hs1].
  apply (IH _ _ _ _ _ Hq1) in Hrun; [exact Hrun|].
  apply Forall_app. now split.
Qed.

Lemma scheduleRoundRobin_snapshots fuel processList quantum queue trace :
  Forall (fun p => completionTime p = 0) processList ->
  scheduleRoundRobin fuel processList quantum = Some (queue, trace) ->
  Forall (fun s => completionTime (snapshot s) = 0) trace.
Proof.
  intros Hfresh Hrun. unfold scheduleRoundRobin in Hrun.
  refine (rr_while_snapshots quantum fuel 0 _ [] queue trace _
            (Forall_nil _) Hrun).
  apply Forall_forall. intros p Hp. apply in_map_iff in Hp.
  destruct Hp as (p0 & <- & Hp0). apply sort_by_In in Hp0.
  rewrite Forall_forall in Hfresh. intros _. simpl. now apply Hfresh.
Qed.

Lemma completed_none (trace : list Slice) : forall object,
  Forall (fun s => completionTime (snapshot s) = 0) trace ->
  fold_left collect trace object = object.
Proof.
  induction trace as [|s trace IH]; intros object Hall; simpl;
    [reflexivity|].
  pose proof (Forall_inv Hall) as Hs. pose proof (Forall_inv_tail Hall) as Hrest.
  simpl in Hs.
  replace (collect object s) with object
    by (unfold collect; now rewrite Hs).
  now apply IH.
Qed.

(** Round Robin on processes that no scheduler has completed before
    (completion time 0, as [addProcess] builds them): whenever the run
    returns, both averages shown are NaN.  The entries of the trace
    are copies made before the completion time was set, so that none
    of them counts as completed and the sums are divided by 0. *)
Theorem runScheduler_roundRobin_averages
    (fuel : nat) (timeQuantumField : option Z) (processes : list Process)
    (trace : list Slice) (statistics : Statistics) :
  Forall (fun p => completionTime p = 0) processes ->
  runScheduler fuel "rr" timeQuantumField processes = shown trace statistics ->
  is_nan (avgWaitingTime statistics) = true
  /\ is_nan (avgTurnaroundTime statistics) = true.
Proof.
  intros Hfresh Hrun.
  destruct processes as [|p processes]; [discriminate|].
  rewrite runScheduler_rr in Hrun.
  destruct (scheduleRoundRobin fuel (p :: processes)
                               (or_default timeQuantumField 4))
    as [[queue scheduled]|] eqn:Hrr; [|discriminate].
  injection Hrun as -> <-.
  pose proof (scheduleRoundRobin_snapshots _ _ _ _ _ Hfresh Hrr) as Hsnap.
  unfold calculateStatistics. rewrite (completed_none _ _ Hsnap).
  cbn [avgWaitingTime avgTurnaroundTime]. split; reflexivity.
Qed.

Lemma runScheduler_roundRobin_averages_scenario_A :
  let processes :=
    [addProcess 1 "P1" 0 5 1; addProcess 2 "P2" 1 3 1;
     addProcess 3 "P3" 2 8 1] in
  Forall (fun p => completionTime p = 0) processes
  /\ exists trace statistics,
       runScheduler 5 "rr" (Some 4) processes = shown trace statistics
       /\ is_nan (avgWaitingTime statistics) = true
       /\ is_nan (avgTurnaroundTime statistics) = true.
Proof.
  intros processes.
  assert (H : Forall (fun p => completionTime p = 0) processes)
    by (repeat constructor).
  split; [exact H|].
  destruct (runScheduler 5 "rr" (Some 4) processes)
    as [| |trace statistics] eqn:Hrun;
    [vm_compute in Hrun; discriminate Hrun
    |vm_compute in Hrun; discriminate Hrun|].
  exists trace, statistics. split; [reflexivity|].
  exact (runScheduler_roundRobin_averages 5%nat (Some 4) processes
           trace statistics H Hrun).
Defined.

(** *** Round Robin: the utilisation *)

Lemma duration_sum (trace : list Slice) : forall acc,
  fold_left (fun sum p => sum + duration p) trace acc = acc + busy trace.
Proof.
  unfold busy.
  induction trace as [|s trace IH]; intros acc; simpl; [lia|].
  rewrite IH. lia.
Qed.

Lemma latest_end_gapless (trace : list Slice) : forall t,
  gapless t trace -> Forall (fun s => 0 <= duration s) trace ->
  fold_left Z.max (map (fun p => sliceStart p + duration p) trace) t
  = t + busy trace.
Proof.
  unfold busy.
  induction trace as [|s trace IH]; intros t Hg Hd; simpl; [lia|].
  destruct Hg as [Hs Hg].
  pose proof (Forall_inv Hd) as Hds. pose proof (Forall_inv_tail Hd) as Hrest.
  simpl in Hds. rewrite Hs, Z.max_r by lia. rewrite (IH _ Hg Hrest). lia.
Qed.

(** Round Robin with a quantum of at least 1, on times within the
    exact range: whenever the run returns and has run anything, the
    total time is exactly the CPU time used, so that the utilisation
    shown is that time divided by itself, times 100, whatever the
    arrival times are. *)
Theorem runScheduler_roundRobin_utilisation
    (fuel : nat) (timeQuantumField : option Z) (processes : list Process)
    (trace : list Slice) (statistics : Statistics) :
  Range.small (Range.load processes) ->
  1 <= or_default timeQuantumField 4 -> trace <> [] ->
  runScheduler fuel "rr" timeQuantumField processes = shown trace statistics ->
  1 <= busy trace
  /\ cpuUtilization statistics
     = (Disk.number (busy trace) / Disk.number (busy trace)
        * Disk.number 100)%float.
Proof.
  intros _ Hq Hne Hrun.
  destruct processes as [|p processes]; [discriminate|].
  rewrite runScheduler_rr in Hrun.
  destruct (scheduleRoundRobin fuel (p :: processes)
                               (or_default timeQuantumField 4))
    as [[queue scheduled]|] eqn:Hrr; [|discriminate].
  injection Hrun as -> <-.
  unfold scheduleRoundRobin in Hrr.
  destruct (rr_while_gapless _ fuel 0 _ [] queue trace I eq_refl
              (fun _ => Forall_nil _) Hrr) as [Hg Hd].
  specialize (Hd Hq).
  assert (Hpos : Forall (fun s => 0 <= duration s) trace).
  { eapply Forall_impl; [|exact Hd]. simpl. intros s; lia. }
  destruct trace as [|s trace]; [now elim Hne|].
  assert (Hbusy : 1 <= busy (s :: trace)).
  { pose proof (Forall_inv Hd) as Hs. pose proof (Forall_inv_tail Hpos) as Hrest.
    assert (0 <= busy trace).
    { clear -Hrest. unfold busy.
      induction Hrest as [|x l Hx _ IH]; simpl; lia. }
    unfold busy in *. simpl. lia. }
  split; [exact Hbusy|].
  unfold calculateStatistics. cbn [cpuUtilization].
  rewrite duration_sum, Z.add_0_l.
  cbn [map max_of]. destruct Hg as [Hs Hg].
  pose proof (Forall_inv Hpos) as Hds.
  pose proof (Forall_inv_tail Hpos) as Hrest.
  rewrite (latest_end_gapless trace (sliceStart s + duration s)).
  - rewrite Hs. reflexivity.
  - now rewrite Hs.
  - exact Hrest.
Qed.

Lemma runScheduler_roundRobin_utilisation_scenario_A :
  let processes :=
    [addProcess 1 "P1" 0 5 1; addProcess 2 "P2" 1 3 1;
     addProcess 3 "P3" 2 8 1] in
  Range.small (Range.load processes)
  /\ 1 <= or_default None 4
  /\ exists trace statistics,
       runScheduler 5 "rr" None processes = shown trace statistics
       /\ trace <> []
       /\ busy trace = 16
       /\ cpuUtilization statistics = 100%float.
Proof.
  intros processes.
  assert (Hsmall : Range.small (Range.load processes))
    by (vm_compute; discriminate).
  assert (Hq : 1 <= or_default None 4) by (simpl; lia).
  split; [exact Hsmall|]. split; [exact Hq|].
  destruct (runScheduler 5 "rr" None processes)
    as [| |trace statistics] eqn:Hrun;
    [vm_compute in Hrun; discriminate Hrun
    |vm_compute in Hrun; discriminate Hrun|].
  exists trace, statistics. split; [reflexivity|].
  assert (Hne : trace <> []).
  { intros ->. vm_compute in Hrun. discriminate Hrun. }
  split; [exact Hne|].
  destruct (runScheduler_roundRobin_utilisation 5%nat None processes
              trace statistics Hsmall Hq Hne Hrun) as [_ Hcpu].
  assert (Hbusy : busy trace = 16).
  { vm_compute in Hrun. injection Hrun as <- _. reflexivity. }
  split; [exact Hbusy|]. rewrite Hcpu, Hbusy. reflexivity.
Defined.
End RunSchedulerFacts.

Section RunToCompletionStatistics.
Import Sched SchedSpec TraceSpec SchedStats.

Lemma put_fresh (key : string) (value : Slice) (object : Completed) :
  ~ In key (map fst object) -> put key value object = object ++ [(key, value)].
Proof.
  induction object as [|[k v] object IH]; simpl; intros Hfresh;
    [reflexivity|].
  destruct (String.eqb k key) eqn:E.
  - apply String.eqb_eq in E. tauto.
  - rewrite IH; tauto.
Qed.

Lemma collect_all (trace : list Slice) : forall object,
  Forall (fun s => completionTime (snapshot s) <> 0
                   /\ name (snapshot s) <> "__proto__"%string) trace ->
  NoDup (map fst object ++ map (fun s => name (snapshot s)) trace) ->
  fold_left collect trace object
  = object ++ map (fun s => (name (snapshot s), s)) trace.
Proof.
  induction trace as [|s trace IH]; intros object Hall Hnodup; simpl;
    [now rewrite app_nil_r|].
  pose proof (Forall_inv Hall) as [Hdone Hname].
  pose proof (Forall_inv_tail Hall) as Hrest.
  simpl in Hnodup.
  assert (Hstep : collect object s = object ++ [(name (snapshot s), s)]).
  { unfold collect, assign.
    apply Z.eqb_neq in Hdone. rewrite Hdone.
    apply String.eqb_neq in Hname. rewrite Hname.
    apply put_fresh. apply NoDup_remove_2 in Hnodup.
    intros Hin. apply Hnodup. apply in_or_app. now left. }
  rewrite Hstep, IH; [now rewrite <- app_assoc | exact Hrest|].
  rewrite map_app, <- app_assoc. exact Hnodup.
Qed.

Lemma filter_partition (A : Type) (f : A -> bool) (l : list A) :
  Permutation (filter f l ++ filter (fun x => negb (f x)) l) l.
Proof.
  induction l as [|x l IH]; simpl; [constructor|].
  destruct (f x); simpl.
  - now constructor.
  - symmetry. apply Permutation_cons_app. now symmetry.
Qed.

Lemma values_perm (object : Completed) :
  Permutation (values object) (map snd object).
Proof.
  unfold values. apply Permutation_map.
  etransitivity; [|apply (filter_partition _ is_index)].
  apply Permutation_app_tail. apply sort_by_perm.
Qed.

Lemma metric_sum (metric : Process -> Z) (trace : list Slice) : forall acc,
  fold_left (fun sum p => sum + metric (snapshot p)) trace acc
  = acc + total metric trace.
Proof.
  unfold total.
  induction trace as [|s trace IH]; intros acc; simpl; [lia|].
  rewrite IH. lia.
Qed.

Lemma total_perm (metric : Process -> Z) (l l' : list Slice) :
  Permutation l l' -> total metric l = total metric l'.
Proof.
  unfold total. induction 1; simpl; lia.
Qed.

Lemma calculateStatistics_all (trace : list Slice) :
  Forall (fun s => completionTime (snapshot s) <> 0
                   /\ name (snapshot s) <> "__proto__"%string) trace ->
  NoDup (map (fun s => name (snapshot s)) trace) ->
  avgWaitingTime (calculateStatistics trace)
  = (Disk.number (total waitingTime trace)
     / Disk.number (Z.of_nat (List.length trace)))%float
  /\ avgTurnaroundTime (calculateStatistics trace)
     = (Disk.number (total turnaroundTime trace)
        / Disk.number (Z.of_nat (List.length trace)))%float.
Proof.
  intros Hall Hnodup.
  unfold calculateStatistics. cbn [avgWaitingTime avgTurnaroundTime].
  rewrite (collect_all trace [] Hall Hnodup). cbn [app].
  assert (Hperm : Permutation
                    (values (map (fun s => (name (snapshot s), s)) trace))
                    trace).
  { etransitivity; [apply values_perm|].
    rewrite map_map. cbn [snd]. now rewrite map_id. }
  rewrite !metric_sum, !Z.add_0_l.
  rewrite (total_perm waitingTime _ _ Hperm),
          (total_perm turnaroundTime _ _ Hperm),
          (Permutation_length Hperm).
  split; reflexivity.
Qed.

Lemma scheduled_entries (processes : list Process) (trace : list Slice) :
  Forall valid processes ->
  trace = scheduleFCFS processes
  \/ scheduleSJF processes = Some trace
  \/ schedulePriority processes = Some trace ->
  Permutation (served_order trace) (map submitted processes)
  /\ Forall ran_to_completion trace /\ Forall metrics_ok trace.
Proof.
  intros Hvalid Hrun.
  assert (Hburst : Forall (fun p => 0 <= burstTime p) processes).
  { eapply Forall_impl; [|exact Hvalid]. unfold valid. intros p; lia. }
  destruct Hrun as [-> | [Hrun | Hrun]].
  - unfold scheduleFCFS.
    destruct (fcfs_forEach_order (sort_by arrivalTime processes) 0)
      as [Horder Hall].
    split; [|split; [exact Hall | apply fcfs_forEach_metrics]].
    rewrite Horder. apply Permutation_map, sort_by_perm.
  - destruct (ready_schedule_served burstTime processes)
      as (tr & Htr & Hperm & Hall).
    destruct (ready_schedule_spec burstTime processes Hburst)
      as (tr' & Htr' & _ & Hmetrics).
    unfold scheduleSJF in Hrun.
    assert (tr = trace) by congruence. assert (tr' = trace) by congruence.
    subst tr tr'. now repeat split.
  - destruct (ready_schedule_served priority processes)
      as (tr & Htr & Hperm & Hall).
    destruct (ready_schedule_spec priority processes Hburst)
      as (tr' & Htr' & _ & Hmetrics).
    unfold schedulePriority in Hrun.
    assert (tr = trace) by congruence. assert (tr' = trace) by congruence.
    subst tr tr'. now repeat split.
Qed.

Lemma scheduled_returns (fuel : nat) (algorithm : string)
    (field : option Z) (processes : list Process) :
  algorithm = "fcfs"%string \/ algorithm = "sjf"%string
  \/ algorithm = "priority"%string ->
  processes <> [] ->
  exists trace,
    runScheduler fuel algorithm field processes
    = shown trace (calculateStatistics trace)
    /\ (trace = scheduleFCFS processes
        \/ scheduleSJF processes = Some trace
        \/ schedulePriority processes = Some trace).
Proof.
  intros Halg Hne. destruct processes as [|p processes]; [now elim Hne|].
  unfold runScheduler.
  destruct Halg as [-> | [-> | ->]].
  - exists (scheduleFCFS (p :: processes)). split; [reflexivity | now left].
  - destruct (ready_schedule_total burstTime (p :: processes)) as [tr Htr].
    exists tr. change (String.eqb "sjf" "fcfs") with false.
    change (String.eqb "sjf" "sjf") with true. cbv iota.
    unfold scheduleSJF. rewrite Htr. split; [reflexivity | right; now left].
  - destruct (ready_schedule_total priority (p :: processes)) as [tr Htr].
    exists tr. change (String.eqb "priority" "fcfs") with false.
    change (String.eqb "priority" "sjf") with false.
    change (String.eqb "priority" "priority") with true. cbv iota.
    unfold schedulePriority. rewrite Htr.
    split; [reflexivity | right; now right].
Qed.

(** FCFS, SJF and Priority on valid processes of pairwise distinct
    names, none of them [__proto__], whose times, added up and taken
    as many times as there are processes, stay within the exact range
    (which bounds the sums of the waiting and turnaround times): the
    run returns, serves every process once, and the averages shown are
    the sums of the waiting and of the turnaround times of the
    entries, divided by the number of processes. *)
Theorem runScheduler_averages
    (fuel : nat) (algorithm : string) (timeQuantumField : option Z)
    (processes : list Process) :
  algorithm = "fcfs"%string \/ algorithm = "sjf"%string
  \/ algorithm = "priority"%string ->
  processes <> [] -> Forall valid processes ->
  Range.small (Z.of_nat (List.length processes) * Range.load processes) ->
  NoDup (map name processes) ->
  ~ In "__proto__"%string (map name processes) ->
  exists trace statistics,
    runScheduler fuel algorithm timeQuantumField processes
    = shown trace statistics
    /\ Permutation (served_order trace) (map submitted processes)
    /\ avgWaitingTime statistics
       = (Disk.number (total waitingTime trace)
          / Disk.number (Z.of_nat (List.length processes)))%float
    /\ avgTurnaroundTime statistics
       = (Disk.number (total turnaroundTime trace)
          / Disk.number (Z.of_nat (List.length processes)))%float.
Proof.
  intros Halg Hne Hvalid _ Hnodup Hproto.
  destruct (scheduled_returns fuel algorithm timeQuantumField processes
              Halg Hne) as (trace & Hrun & Hwhich).
  destruct (scheduled_entries processes trace Hvalid Hwhich)
    as (Hperm & Hran & Hmetrics).
  exists trace, (calculateStatistics trace).
  split; [exact Hrun|]. split; [exact Hperm|].
  assert (Hnames : Permutation (map (fun s => name (snapshot s)) trace)
                               (map name processes)).
  { apply (Permutation_map
             (fun b : Z * string * Z * Z * Z => snd (fst (fst (fst b)))))
      in Hperm.
    unfold served_order in Hperm. rewrite !map_map in Hperm. exact Hperm. }
  assert (Hlen : List.length trace = List.length processes).
  { apply Permutation_length in Hperm. unfold served_order in Hperm.
    now rewrite !length_map in Hperm. }
  rewrite <- Hlen. apply calculateStatistics_all.
  - rewrite Forall_forall in Hran, Hmetrics, Hvalid.
    apply Forall_forall. intros s Hs. split.
    + assert (Hin : In (submitted (snapshot s)) (map submitted processes)).
      { apply (Permutation_in _ Hperm). unfold served_order.
        apply (in_map (fun s => submitted (snapshot s))). exact Hs. }
      apply in_map_iff in Hin. destruct Hin as (p & Heq & Hp).
      destruct (Hvalid _ Hp) as [Harr Hburst].
      unfold submitted in Heq. injection Heq as _ _ Ha Hb _.
      destruct (Hran _ Hs) as (_ & _ & Hc & _ & Hw).
      destruct (Hmetrics _ Hs) as [Hwait _]. lia.
    + intros Heq. apply Hproto. rewrite <- Heq.
      apply (Permutation_in _ Hnames).
      apply (in_map (fun s => name (snapshot s))). exact Hs.
  - apply (Permutation_NoDup (l := map name processes));
      [now symmetry | exact Hnodup].
Qed.

Lemma runScheduler_averages_scenario_A :
  let processes :=
    [addProcess 1 "P1" 0 5 1; addProcess 2 "P2" 1 3 1;
     addProcess 3 "P3" 2 8 1] in
  ("sjf"%string = "fcfs"%string \/ "sjf"%string = "sjf"%string
   \/ "sjf"%string = "priority"%string)
  /\ processes <> [] /\ Forall valid processes
  /\ Range.small (Z.of_nat (List.length processes) * Range.load processes)
  /\ NoDup (map name processes)
  /\ ~ In "__proto__"%string (map name processes)
  /\ exists trace statistics,
       runScheduler 0 "sjf" None processes = shown trace statistics
       /\ total waitingTime trace = 10
       /\ avgWaitingTime statistics = (Disk.number 10 / Disk.number 3)%float.
Proof.
  intros processes.
  assert (H1 : "sjf"%string = "fcfs"%string \/ "sjf"%string = "sjf"%string
               \/ "sjf"%string = "priority"%string) by (right; now left).
  assert (H2 : processes <> []) by discriminate.
  assert (H3 : Forall valid processes)
    by (repeat constructor; simpl; lia).
  assert (Hsmall : Range.small (Z.of_nat (List.length processes)
                                * Range.load processes))
    by (vm_compute; discriminate).
  assert (H4 : NoDup (map name processes)).
  { repeat constructor; simpl; intuition discriminate. }
  assert (H5 : ~ In "__proto__"%string (map name processes)).
  { simpl. intuition discriminate. }
  split; [exact H1|]. split; [exact H2|]. split; [exact H3|].
  split; [exact Hsmall|]. split; [exact H4|]. split; [exact H5|].
  destruct (runScheduler_averages 0%nat "sjf" None processes
              H1 H2 H3 Hsmall H4 H5)
    as (trace & statistics & Hrun & _ & Hwait & _).
  exists trace, statistics. split; [exact Hrun|].
  assert (Htotal : total waitingTime trace = 10).
  { vm_compute in Hrun. injection Hrun as <- _. reflexivity. }
  split; [exact Htotal|]. rewrite Hwait, Htotal. reflexivity.
Defined.
End RunToCompletionStatistics.

(** * Properties of the file system panel *)

Section FileFacts.
Import Files.

Lemma session_snoc (actions : list Action) (a : Action) :
  session (actions ++ [a]) = act (session actions) a.
Proof. unfold session. now rewrite fold_left_app. Qed.

Lemma size_sum (l : list FileItem) : forall acc,
  fold_left (fun sum file => sum + size file) l acc
  = acc + DiskSpec.sum (map size l).
Proof.
  unfold DiskSpec.sum.
  induction l as [|x l IH]; intros acc; simpl; [lia|]. rewrite IH. lia.
Qed.

(** Whatever is created, selected and deleted, starting from the empty
    file system, as long as the sizes of the files asked for add up,
    in absolute value, within the exact range: the items are numbered
    1, 2, ..., n, each has a name
    and lies directly under the root, every item that is not a file
    has size 0, and the statistics count exactly the files that were
    ever created (beside the 4 files and 182 KB that are always
    counted): deleting an item takes nothing away, and a creation
    without a name adds nothing. *)
Theorem file_session_statistics (actions : list Action) :
  Range.small (Range.magnitude (requested_files actions)) ->
  let items := fileSystem (session actions) in
  let statistics := updateFileStats items in
  map id items = numbered (List.length items)
  /\ Forall (fun item => name item <> EmptyString
                         /\ parentPath item = "/"%string
                         /\ fullPath item = ("/" ++ name item)%string
                         /\ (type item <> "file"%string -> size item = 0))
            items
  /\ map size (filter (fun item => String.eqb (type item) "file") items)
     = requested_files actions
  /\ totalFiles statistics = (List.length (requested_files actions) + 4)%nat
  /\ usedSpace statistics = DiskSpec.sum (requested_files actions) + 182.
Proof.
  intros _. cbv zeta.
  assert (Hmain :
    map id (fileSystem (session actions))
    = numbered (List.length (fileSystem (session actions)))
    /\ Forall (fun item => name item <> EmptyString
                           /\ parentPath item = "/"%string
                           /\ fullPath item = ("/" ++ name item)%string
                           /\ (type item <> "file"%string -> size item = 0))
              (fileSystem (session actions))
    /\ map size (filter (fun item => String.eqb (type item) "file")
                        (fileSystem (session actions)))
       = requested_files actions).
  { induction actions as [|a actions IH] using rev_ind.
    - simpl. repeat split; constructor.
    - destruct IH as (Hid & Hall & Hfiles).
      rewrite session_snoc. unfold requested_files in *.
      rewrite flat_map_app. cbn [flat_map]. rewrite app_nil_r.
      destruct a as [fileName fileType fileSizeField|text|]; cbn [act].
      + cbn [fileSystem]. unfold createFileOrFolder.
        destruct fileName as [|c fileName].
        * rewrite app_nil_r. now repeat split.
        * rewrite map_app, length_app, filter_app, map_app, Hid, Hfiles.
          cbn [List.length map filter type id].
          rewrite (Nat.add_1_r (List.length _)), numbered_succ.
          split; [reflexivity|]. split.
          -- apply Forall_app. split; [exact Hall|].
             constructor; [|constructor]. cbn.
             split; [discriminate|]. split; [reflexivity|].
             split; [reflexivity|].
             destruct (String.eqb fileType "file") eqn:E; [|reflexivity].
             apply String.eqb_eq in E. tauto.
          -- now destruct (String.eqb fileType "file").
      + cbn [fileSystem]. rewrite app_nil_r. now repeat split.
      + rewrite app_nil_r.
        destruct (selectedFile (session actions)) as [[|c text]|];
          now repeat split. }
  destruct Hmain as (Hid & Hall & Hfiles).
  split; [exact Hid|]. split; [exact Hall|]. split; [exact Hfiles|].
  unfold updateFileStats. cbn [totalFiles usedSpace].
  rewrite size_sum, Hfiles, Z.add_0_l.
  split; [|reflexivity].
  now rewrite <- Hfiles, length_map.
Qed.

Lemma file_session_statistics_example :
  let actions :=
    [create "notes.txt" "file" (Some 12); create "src" "folder" (Some 40);
     select "notes.txt"; deleteSelected; create EmptyString "file" (Some 7);
     create "a.out" "file" None] in
  Range.small (Range.magnitude (requested_files actions))
  /\ map id (fileSystem (session actions)) = [1; 2; 3]
  /\ totalFiles (updateFileStats (fileSystem (session actions))) = 6%nat
  /\ usedSpace (updateFileStats (fileSystem (session actions))) = 194.
Proof.
  intros actions.
  assert (H : Range.small (Range.magnitude (requested_files actions)))
    by (vm_compute; discriminate).
  split; [exact H|].
  pose proof (file_session_statistics actions H) as Hthm. cbv zeta in Hthm.
  destruct Hthm as (Hid & _ & _ & Hfiles & Hused).
  split; [rewrite Hid; reflexivity|].
  split; [rewrite Hfiles; reflexivity | rewrite Hused; reflexivity].
Defined.
End FileFacts.
